(** * First-order resolution prover: unification, substitution, saturation

    A shallow embedding of [main.py]: the term model, syntactic unification
    with occurs-check over triangular substitutions, substitution
    application, the binary resolution rule and the saturation loop. *)

From Stdlib Require Import Ascii String Wellfounded.
From stdpp Require Import base option list strings gmap fin_maps fin_sets.

#[local] Set Warnings "-register-all,-clear-no-such-hyp".

Local Open Scope string_scope.
Local Open Scope list_scope.
Local Open Scope nat_scope.

(** ** Data classes *)

(** [Term] and [Function] objects.  The arguments of a [Function] are a
    Python list of [Term]/[Function] objects. *)
Inductive term : Type :=
| Term (name : string)
| Function (name : string) (args : list term).

(** [Predicate(name, args, negated)]. *)
Record Predicate : Type := mkPredicate {
  pname : string;
  pargs : list term;
  negated : bool
}.

(** [Clause(literals)]: the literals are kept as the list the object holds;
    equality of clauses is equality of the sets of literals. *)
Record Clause : Type := mkClause { literals : list Predicate }.

(** A substitution is a [dict] whose keys are [Term] objects.  [Term] hashes
    and compares by name, so the dictionary is a finite map on names. *)
Abbreviation subst := (gmap string term).

(** Recursive calls that follow bindings are not structural, so the
    recursive functions take a recursion budget; [Timeout] is the outcome
    of a run that exhausts it. *)
Inductive outcome (A : Type) : Type :=
| Timeout
| Done (a : A).
Arguments Timeout {A}.
Arguments Done {A} a.

Definition obind {A B} (m : outcome A) (k : A → outcome B) : outcome B :=
  match m with
  | Timeout => Timeout
  | Done a => k a
  end.

Notation "'do' x <- m ; k" := (obind m (fun x => k))
  (at level 10, x name, m at level 100, k at level 200).

(** *** Structural equality: [Term.__eq__], [Function.__eq__] and the
    element-wise equality of Python lists *)

Fixpoint term_eqb (a b : term) : bool :=
  match a, b with
  | Term n, Term m => String.eqb n m
  | Function f xs, Function g ys =>
      String.eqb f g &&
      (fix list_eqb (l r : list term) : bool :=
         match l, r with
         | [], [] => true
         | x :: l', y :: r' => term_eqb x y && list_eqb l' r'
         | _, _ => false
         end) xs ys
  | _, _ => false
  end.

Fixpoint args_eqb (l r : list term) : bool :=
  match l, r with
  | [], [] => true
  | x :: l', y :: r' => term_eqb x y && args_eqb l' r'
  | _, _ => false
  end.

(** *** [Term.is_variable]: [re.fullmatch(r"[a-z][a-zA-Z0-9_]*", name)]

    Names are strings of bytes; the character classes of the pattern are
    ASCII ranges, which no byte of a multi-byte character falls in. *)

Definition char_between (lo hi c : ascii) : bool :=
  (nat_of_ascii lo <=? nat_of_ascii c) && (nat_of_ascii c <=? nat_of_ascii hi).

Definition is_lower (c : ascii) : bool := char_between "a" "z" c.
Definition is_upper (c : ascii) : bool := char_between "A" "Z" c.
Definition is_digit (c : ascii) : bool := char_between "0" "9" c.

Definition is_word_char (c : ascii) : bool :=
  is_lower c || is_upper c || is_digit c || Ascii.eqb c "_".

Fixpoint all_chars (p : ascii → bool) (s : string) : bool :=
  match s with
  | EmptyString => true
  | String c r => p c && all_chars p r
  end.

Definition name_is_variable (n : string) : bool :=
  match n with
  | EmptyString => false
  | String c r => is_lower c && all_chars is_word_char r
  end.

Definition name_is_constant (n : string) : bool :=
  match n with
  | EmptyString => false
  | String c r => is_upper c && all_chars is_word_char r
  end.

(** [is_variable(x)]: [isinstance(x, Term) and x.is_variable()]. *)
Definition is_variable (x : term) : bool :=
  match x with
  | Term n => name_is_variable n
  | Function _ _ => false
  end.

(** ** Unification

    [unify] is called on two terms (by itself, [unify_var] and
    [unify_lists]) and on two argument lists (by [resolve]); each of the
    two uses has its function here, [unify] and [unify_args]. *)

(** [x in subst] and [subst[x]]: a [Function] hashes and compares
    differently from every [Term] key, so it is never found. *)
Definition subst_get (x : term) (s : subst) : option term :=
  match x with
  | Term n => s !! n
  | Function _ _ => None
  end.

(** [any(...)] over a generator: stops at the first true element. *)
Fixpoint any_outcome (f : term → outcome bool) (l : list term) : outcome bool :=
  match l with
  | [] => Done false
  | a :: l' =>
      do b <- f a;
      if b then Done true else any_outcome f l'
  end.

Fixpoint occurs_check (fuel : nat) (var x : term) (s : subst) : outcome bool :=
  match fuel with
  | O => Timeout
  | S n =>
      if term_eqb var x then Done true
      else match x with
           | Term nm =>
               match s !! nm with
               | Some t => occurs_check n var t s
               | None => Done false
               end
           | Function _ args => any_outcome (fun a => occurs_check n var a s) args
           end
  end.

(** The loop of [unify_lists] over [zip(xs, ys)], threading the
    substitution and leaving at the first failure. *)
Fixpoint unify_zip (u : term → term → option subst → outcome (option subst))
    (xs ys : list term) (s : subst) : outcome (option subst) :=
  match xs, ys with
  | x :: xs', y :: ys' =>
      do r <- u x y (Some s);
      match r with
      | None => Done None
      | Some s' => unify_zip u xs' ys' s'
      end
  | _, _ => Done (Some s)
  end.

Definition unify_lists (u : term → term → option subst → outcome (option subst))
    (xs ys : list term) (s : subst) : outcome (option subst) :=
  if negb (length xs =? length ys) then Done None
  else unify_zip u xs ys s.

(** [unify_var(var, x, subst)] where [var] is the [Term] named [vn]. *)
Definition unify_var (u : term → term → option subst → outcome (option subst))
    (fuel : nat) (vn : string) (x : term) (s : subst) : outcome (option subst) :=
  match s !! vn with
  | Some t => u t x (Some s)
  | None =>
      match subst_get x s with
      | Some t => u (Term vn) t (Some s)
      | None =>
          do occ <- occurs_check fuel (Term vn) x s;
          if occ then Done None
          else Done (Some (<[vn := x]> s))
      end
  end.

(** [unify(x, y, subst)] on two terms.  [unify_var] is entered with a
    variable, which is a [Term]; the [Function] case of the inner matches
    is not reached. *)
Fixpoint unify (fuel : nat) (x y : term) (subst0 : option subst)
    : outcome (option subst) :=
  match fuel with
  | O => Timeout
  | S n =>
      match subst0 with
      | None => Done None
      | Some s =>
          if term_eqb x y then Done (Some s)
          else if is_variable x then
            match x with
            | Term vx => unify_var (unify n) n vx y s
            | Function _ _ => Done None
            end
          else if is_variable y then
            match y with
            | Term vy => unify_var (unify n) n vy x s
            | Function _ _ => Done None
            end
          else
            match x, y with
            | Function f xs, Function g ys =>
                if negb (String.eqb f g) || negb (length xs =? length ys)
                then Done None
                else unify_lists (unify n) xs ys s
            | _, _ => Done None
            end
      end
  end.

(** [unify(x, y, subst)] on two argument lists (the call made by
    [resolve]): neither is a variable nor a [Function], so after the
    equality test the call reaches [unify_lists]. *)
Definition unify_args (fuel : nat) (xs ys : list term) (subst0 : option subst)
    : outcome (option subst) :=
  match fuel with
  | O => Timeout
  | S n =>
      match subst0 with
      | None => Done None
      | Some s =>
          if args_eqb xs ys then Done (Some s)
          else unify_lists (unify n) xs ys s
      end
  end.

(** ** Substitution *)

Fixpoint map_outcome {A B} (f : A → outcome B) (l : list A) : outcome (list B) :=
  match l with
  | [] => Done []
  | a :: l' =>
      do b <- f a;
      do bs <- map_outcome f l';
      Done (b :: bs)
  end.

Fixpoint substitute (fuel : nat) (t : term) (s : subst) : outcome term :=
  match fuel with
  | O => Timeout
  | S n =>
      match subst_get t s with
      | Some t' => substitute n t' s
      | None =>
          match t with
          | Function f args =>
              do args' <- map_outcome (fun a => substitute n a s) args;
              Done (Function f args')
          | Term _ => Done t
          end
      end
  end.

Definition substitute_predicate (fuel : nat) (p : Predicate) (s : subst)
    : outcome Predicate :=
  do new_args <- map_outcome (fun a => substitute fuel a s) (pargs p);
  Done (mkPredicate (pname p) new_args (negated p)).

(** ** Specification vocabulary *)

(** Names of the [Term] objects occurring in a term. *)
Fixpoint tnames (t : term) : gset string :=
  match t with
  | Term n => {[ n ]}
  | Function _ args => ⋃ (tnames <$> args)
  end.

Fixpoint tsize (t : term) : nat :=
  match t with
  | Term _ => 1
  | Function _ args => S (sum_list (tsize <$> args))
  end.

(** An ordinary (parallel) substitution maps variable names to terms and
    leaves every other [Term] alone. *)
Fixpoint app (θ : string → term) (t : term) : term :=
  match t with
  | Term n => if name_is_variable n then θ n else Term n
  | Function f args => Function f (app θ <$> args)
  end.

(** [θ] solves the bindings of [s], read as equations. *)
Definition solves (θ : string → term) (s : subst) : Prop :=
  ∀ n t, s !! n = Some t → app θ (Term n) = app θ t.

(** [below s v n]: the value bound to [n] mentions [v]. *)
Definition below (s : subst) (v n : string) : Prop :=
  ∃ t, s !! n = Some t ∧ v ∈ tnames t.

(** A substitution is well formed when its keys are variables and its
    bindings have no cycle. *)
Definition acyclic (s : subst) : Prop := ∀ n, Acc (below s) n.

Definition well_formed (s : subst) : Prop :=
  (∀ n, is_Some (s !! n) → name_is_variable n = true) ∧ acyclic s.

(** Every name of [s] is drawn from [U]. *)
Definition closed (U : gset string) (s : subst) : Prop :=
  dom s ⊆ U ∧ ∀ n t, s !! n = Some t → tnames t ⊆ U.

(** The full chase as a parallel substitution, for a budget [n]. *)
Definition closure (n : nat) (s : subst) (v : string) : term :=
  match substitute n (Term v) s with
  | Done t => t
  | Timeout => Term v
  end.

(** What a run of [unify] on [x], [y] from [s] guarantees. *)
Definition unify_post (x y : term) (s : subst) (r : option subst) : Prop :=
  match r with
  | Some σ =>
      s ⊆ σ ∧
      (∀ θ, solves θ σ ↔ solves θ s ∧ app θ x = app θ y) ∧
      (well_formed s → well_formed σ) ∧
      (∀ U, closed U s → tnames x ⊆ U → tnames y ⊆ U → closed U σ)
  | None => ∀ θ, solves θ s → app θ x ≠ app θ y
  end.

Definition unify_post_list (xs ys : list term) (s : subst) (r : option subst) : Prop :=
  match r with
  | Some σ =>
      s ⊆ σ ∧
      (∀ θ, solves θ σ ↔ solves θ s ∧ app θ <$> xs = app θ <$> ys) ∧
      (well_formed s → well_formed σ) ∧
      (∀ U, closed U s → ⋃ (tnames <$> xs) ⊆ U → ⋃ (tnames <$> ys) ⊆ U → closed U σ)
  | None => ∀ θ, solves θ s → app θ <$> xs ≠ app θ <$> ys
  end.

(** All names of a substitution: its keys and the names in its values. *)
Definition subst_names (s : subst) : gset string :=
  dom s ∪ ⋃ (tnames <$> (map_to_list s).*2).

(** [occurs s vn x]: the variable named [vn] occurs in [x], directly or
    after chasing bindings of [s]. *)
Inductive occurs (s : subst) (vn : string) : term → Prop :=
| occurs_here : occurs s vn (Term vn)
| occurs_bound (nm : string) (t : term) :
    s !! nm = Some t → occurs s vn t → occurs s vn (Term nm)
| occurs_arg (f : string) (args : list term) (a : term) :
    a ∈ args → occurs s vn a → occurs s vn (Function f args).

(** Unifiers, and the order "is more general than". *)
Definition unifies (θ : string → term) (x y : term) : Prop :=
  app θ x = app θ y.

Definition unifies_args (θ : string → term) (xs ys : list term) : Prop :=
  app θ <$> xs = app θ <$> ys.

(** [θ] is an instance of the full chase of [σ]: chasing [σ] first and then
    applying [θ] is the same as applying [θ]. *)
Definition more_general (σ : subst) (θ : string → term) : Prop :=
  ∀ t, ∃ n r, substitute n t σ = Done r ∧ app θ r = app θ t.

(** Two triangular substitutions denote the same unifier up to the
    direction of variable-to-variable bindings when the full chase of each
    is an instance of the full chase of the other. *)
Definition same_unifier (σ1 σ2 : subst) : Prop :=
  ∀ t, ∃ n r1 r2,
    substitute n t σ1 = Done r1 ∧ substitute n t σ2 = Done r2 ∧
    substitute n r2 σ1 = Done r1 ∧ substitute n r1 σ2 = Done r2.

(** The first character of a name is a lowercase ASCII letter. *)
Definition starts_lower (n : string) : bool :=
  match n with
  | EmptyString => false
  | String c _ => is_lower c
  end.

(** ** Unification over dictionary objects

    The same algorithm with the dictionaries as mutable objects: a heap of
    dictionaries addressed by position, a substitution argument that is
    either [None] or the address of a dictionary, [subst.copy()] as an
    allocation and [subst[var] = x] as an update in place. *)

Definition dict_at (h : list subst) (l : nat) : subst := default ∅ (h !! l).

(** [subst.copy()]: a fresh object holding the same bindings. *)
Definition dict_copy (l : nat) (h : list subst) : nat * list subst :=
  (length h, h ++ [dict_at h l]).

(** [subst[var] = x]: update of the object at [l], in place. *)
Definition dict_setitem (l : nat) (vn : string) (x : term) (h : list subst)
    : list subst :=
  <[l := <[vn := x]> (dict_at h l)]> h.

Definition unify_var_ref
    (u : term → term → option nat → list subst → outcome (option nat * list subst))
    (fuel : nat) (vn : string) (x : term) (l : nat) (h : list subst)
    : outcome (option nat * list subst) :=
  match dict_at h l !! vn with
  | Some t => u t x (Some l) h
  | None =>
      match subst_get x (dict_at h l) with
      | Some t => u (Term vn) t (Some l) h
      | None =>
          do occ <- occurs_check fuel (Term vn) x (dict_at h l);
          if occ then Done (None, h)
          else
            let '(l', h1) := dict_copy l h in
            Done (Some l', dict_setitem l' vn x h1)
      end
  end.

Fixpoint unify_zip_ref
    (u : term → term → option nat → list subst → outcome (option nat * list subst))
    (xs ys : list term) (l : nat) (h : list subst)
    : outcome (option nat * list subst) :=
  match xs, ys with
  | x :: xs', y :: ys' =>
      do r <- u x y (Some l) h;
      match r with
      | (None, h') => Done (None, h')
      | (Some l', h') => unify_zip_ref u xs' ys' l' h'
      end
  | _, _ => Done (Some l, h)
  end.

Definition unify_lists_ref
    (u : term → term → option nat → list subst → outcome (option nat * list subst))
    (xs ys : list term) (l : nat) (h : list subst)
    : outcome (option nat * list subst) :=
  if negb (length xs =? length ys) then Done (None, h)
  else unify_zip_ref u xs ys l h.

Fixpoint unify_ref (fuel : nat) (x y : term) (subst0 : option nat) (h : list subst)
    : outcome (option nat * list subst) :=
  match fuel with
  | O => Timeout
  | S n =>
      match subst0 with
      | None => Done (None, h)
      | Some l =>
          if term_eqb x y then Done (Some l, h)
          else if is_variable x then
            match x with
            | Term vx => unify_var_ref (unify_ref n) n vx y l h
            | Function _ _ => Done (None, h)
            end
          else if is_variable y then
            match y with
            | Term vy => unify_var_ref (unify_ref n) n vy x l h
            | Function _ _ => Done (None, h)
            end
          else
            match x, y with
            | Function f xs, Function g ys =>
                if negb (String.eqb f g) || negb (length xs =? length ys)
                then Done (None, h)
                else unify_lists_ref (unify_ref n) xs ys l h
            | _, _ => Done (None, h)
            end
      end
  end.

Definition unify_args_ref (fuel : nat) (xs ys : list term) (subst0 : option nat)
    (h : list subst) : outcome (option nat * list subst) :=
  match fuel with
  | O => Timeout
  | S n =>
      match subst0 with
      | None => Done (None, h)
      | Some l =>
          if args_eqb xs ys then Done (Some l, h)
          else unify_lists_ref (unify_ref n) xs ys l h
      end
  end.

(** The run on objects against the run on values: both exhaust the budget,
    or both return; then the heap has only grown, and the returned address
    is the caller's or a fresh one and holds the returned value. *)
Definition ref_sim (l : nat) (h : list subst)
    (m : outcome (option subst)) (m' : outcome (option nat * list subst)) : Prop :=
  match m, m' with
  | Timeout, Timeout => True
  | Done r, Done (r', h') =>
      (∃ k, h' = h ++ k) ∧
      match r, r' with
      | None, None => True
      | Some σ, Some l' => h' !! l' = Some σ ∧ (l' = l ∨ length h ≤ l')
      | _, _ => False
      end
  | _, _ => False
  end.

(** ** Resolution *)

(** [Predicate.__eq__]: name, arguments and polarity. *)
Definition pred_eqb (p q : Predicate) : bool :=
  String.eqb (pname p) (pname q) && args_eqb (pargs p) (pargs q) &&
  Bool.eqb (negated p) (negated q).

Definition pred_in (p : Predicate) (l : list Predicate) : bool :=
  existsb (pred_eqb p) l.

(** [Clause.__eq__]: [set(self.literals) == set(other.literals)]. *)
Definition clause_eqb (c d : Clause) : bool :=
  forallb (λ p, pred_in p (literals d)) (literals c) &&
  forallb (λ p, pred_in p (literals c)) (literals d).

(** A Python [set] of clauses is kept as the list of its members in the
    order they were added; [c in s] and [s.add(c)] compare with
    [Clause.__eq__]. *)
Definition clause_in (c : Clause) (s : list Clause) : bool :=
  existsb (clause_eqb c) s.

Definition set_add (c : Clause) (s : list Clause) : list Clause :=
  if clause_in c s then s else s ++ [c].

(** [set(clauses)]. *)
Definition clause_set (l : list Clause) : list Clause :=
  foldl (λ s c, set_add c s) [] l.

Fixpoint concat_outcome {A B} (f : A → outcome (list B)) (l : list A)
    : outcome (list B) :=
  match l with
  | [] => Done []
  | a :: l' =>
      do bs <- f a;
      do rest <- concat_outcome f l';
      Done (bs ++ rest)
  end.

(** [pairs]: [(clauses[i], clauses[j])] for [i < j], in the order of the
    comprehension. *)
Fixpoint all_pairs (l : list Clause) : list (Clause * Clause) :=
  match l with
  | [] => []
  | c :: l' => map (pair c) l' ++ all_pairs l'
  end.

(** The state of the scan of the resolvents of a round: the empty clause
    was met ([return "no"]), or the scan went on with the sets [new] and
    [derived]. *)
Inductive scan : Type :=
| Refuted (derived : list Clause)
| Scanned (new derived : list Clause).

(** The loop [for res in resolvents]. *)
Fixpoint scan_resolvents (rs : list Clause) (new derived : list Clause) : scan :=
  match rs with
  | [] => Scanned new derived
  | res :: rs' =>
      match literals res with
      | [] => Refuted derived
      | _ :: _ =>
          if clause_in res derived then scan_resolvents rs' new derived
          else scan_resolvents rs' (set_add res new) (set_add res derived)
      end
  end.

(** The knowledge base and the working list [clauses] are list objects in a
    heap of lists addressed by position. *)
Definition list_at (h : list (list Clause)) (l : nat) : list Clause :=
  default [] (h !! l).

(** [clauses.extend(items)]: update of the list object in place. *)
Definition list_extend (l : nat) (items : list Clause) (h : list (list Clause))
    : list (list Clause) :=
  <[l := list_at h l ++ items]> h.

(** What a run of [resolution] leaves: the returned verdict, the set
    [derived] at the return, and the heap. *)
Record final : Type := mkFinal {
  verdict : string;
  final_derived : list Clause;
  final_heap : list (list Clause)
}.

Section resolution.
(** The order in which Python iterates over a set depends on the hashes
    of its members; it is a parameter of the model.  [list_set l] stands
    for [list(set(l))] on literals, [iter_set s] for the iteration over
    the set of clauses [s]. *)
Variable list_set : list Predicate → list Predicate.
Variable iter_set : list Clause → list Clause.

(** The body of the two nested loops of [resolve] for one pair of
    literals: no resolvent or one. *)
Definition resolve_literals (fuel : nat) (ci cj : Clause) (pi pj : Predicate)
    : outcome (list Clause) :=
  if String.eqb (pname pi) (pname pj) && negb (Bool.eqb (negated pi) (negated pj))
  then
    do r <- unify_args fuel (pargs pi) (pargs pj) (Some ∅);
    match r with
    | None => Done []
    | Some s =>
        do new_ci <- map_outcome (λ p, substitute_predicate fuel p s)
                       (List.filter (λ p, negb (pred_eqb p pi)) (literals ci));
        do new_cj <- map_outcome (λ p, substitute_predicate fuel p s)
                       (List.filter (λ p, negb (pred_eqb p pj)) (literals cj));
        Done [mkClause (list_set (new_ci ++ new_cj))]
    end
  else Done [].

Definition resolve (fuel : nat) (ci cj : Clause) : outcome (list Clause) :=
  concat_outcome
    (λ pi, concat_outcome (λ pj, resolve_literals fuel ci cj pi pj) (literals cj))
    (literals ci).

(** The loop [for (ci, cj) in pairs]. *)
Fixpoint scan_pairs (fuel : nat) (ps : list (Clause * Clause))
    (new derived : list Clause) : outcome scan :=
  match ps with
  | [] => Done (Scanned new derived)
  | (ci, cj) :: ps' =>
      do rs <- resolve fuel ci cj;
      match scan_resolvents rs new derived with
      | Refuted d => Done (Refuted d)
      | Scanned new' derived' => scan_pairs fuel ps' new' derived'
      end
  end.

(** The loop [while True], for at most [rounds] rounds; [lc] is the
    address of the working list [clauses]. *)
Fixpoint saturate (rounds fuel : nat) (lc : nat) (new derived : list Clause)
    (h : list (list Clause)) : outcome final :=
  match rounds with
  | O => Timeout
  | S k =>
      do r <- scan_pairs fuel (all_pairs (list_at h lc)) new derived;
      match r with
      | Refuted d => Done (mkFinal "no" d h)
      | Scanned new' derived' =>
          match new' with
          | [] => Done (mkFinal "yes" derived' h)
          | _ :: _ =>
              saturate k fuel lc [] derived' (list_extend lc (iter_set new') h)
          end
      end
  end.

(** [resolution(kb)], where [kb] is the address of the caller's list:
    [clauses = list(kb)] allocates the working list. *)
Definition resolution_run (rounds fuel : nat) (kb : nat) (h : list (list Clause))
    : outcome final :=
  let clauses := list_at h kb in
  saturate rounds fuel (length h) [] (clause_set clauses) (h ++ [clauses]).

Definition resolution (rounds fuel : nat) (kb : nat) (h : list (list Clause))
    : outcome string :=
  do f <- resolution_run rounds fuel kb h;
  Done (verdict f).
End resolution.


(** One iteration order a set of literals can have: the order of first
    insertion. *)
Definition insertion_order (l : list Predicate) : list Predicate :=
  foldl (λ s p, if pred_in p s then s else s ++ [p]) [] l.

(** The knowledge bases [{P(x)}, {!P(A)}] and [{P(A)}, {Q(B)}]. *)
Definition kb_refutable : list Clause :=
  [mkClause [mkPredicate "P" [Term "x"] false];
   mkClause [mkPredicate "P" [Term "A"] true]].

Definition kb_saturated : list Clause :=
  [mkClause [mkPredicate "P" [Term "A"] false];
   mkClause [mkPredicate "Q" [Term "B"] false]].

(** Induction on terms, through the argument lists. *)
Section term_induction.
Variable P : term → Prop.
Hypothesis HTerm : ∀ n, P (Term n).
Hypothesis HFunction : ∀ f args, Forall P args → P (Function f args).

Fixpoint term_ind' (t : term) : P t :=
  match t with
  | Term n => HTerm n
  | Function f args =>
      HFunction f args
        ((fix go (l : list term) : Forall P l :=
            match l with
            | [] => Forall_nil_2 P
            | a :: l' => Forall_cons_2 P a l' (term_ind' a) (go l')
            end) args)
  end.
End term_induction.

(** The comprehension [[(clauses[i], clauses[j]) for i in range(n)
    for j in range(i + 1, n)]], by positions. *)
Definition pairs_by_index (l : list Clause) : list (option (Clause * Clause)) :=
  flat_map
    (λ i, map (λ j, match l !! i, l !! j with
                    | Some a, Some b => Some (a, b)
                    | _, _ => None
                    end)
              (seq (S i) (length l - S i)))
    (seq 0 (length l)).


(** ** First-order semantics

    An interpretation of the symbols over a non-empty carrier.  As in
    [unify], a [Term] whose name is a variable name is a variable and every
    other [Term] is a constant; the variables of a clause are universally
    quantified. *)
Record interp : Type := mkInterp {
  carrier : Type;
  point : carrier;
  constant : string → carrier;
  func : string → list carrier → carrier;
  rel : string → list carrier → Prop
}.

Fixpoint eval (I : interp) (ρ : string → carrier I) (t : term) : carrier I :=
  match t with
  | Term n => if name_is_variable n then ρ n else constant I n
  | Function f args => func I f (eval I ρ <$> args)
  end.

Definition literal_holds (I : interp) (ρ : string → carrier I) (p : Predicate) : Prop :=
  if negated p then ¬ rel I (pname p) (eval I ρ <$> pargs p)
  else rel I (pname p) (eval I ρ <$> pargs p).

Definition clause_holds (I : interp) (ρ : string → carrier I) (c : Clause) : Prop :=
  ∃ p, p ∈ literals c ∧ literal_holds I ρ p.

Definition models (I : interp) (c : Clause) : Prop :=
  ∀ ρ, clause_holds I ρ c.

Definition satisfiable (kb : list Clause) : Prop :=
  ∃ I, ∀ c, c ∈ kb → models I c.

(** The knowledge base [{p(v)}, {!p(f(v))}]. *)
Definition kb_shared_variable (p v f : string) : list Clause :=
  [mkClause [mkPredicate p [Term v] false];
   mkClause [mkPredicate p [Function f [Term v]] true]].




(** ** Printing: the [__repr__] methods *)

(** [sep.join(l)]. *)
Fixpoint join (sep : string) (l : list string) : string :=
  match l with
  | [] => ""
  | [a] => a
  | a :: l' => a +:+ sep +:+ join sep l'
  end.

(** [Term.__repr__] and [Function.__repr__]. *)
Fixpoint repr_term (t : term) : string :=
  match t with
  | Term n => n
  | Function f args => f +:+ "(" +:+ join "," (map repr_term args) +:+ ")"
  end.

(** [Predicate.__repr__]. *)
Definition repr_predicate (p : Predicate) : string :=
  let args_str := join "," (map repr_term (pargs p)) in
  let bang := if negated p then "!" else "" in
  match pargs p with
  | [] => bang +:+ pname p
  | _ :: _ => bang +:+ pname p +:+ "(" +:+ args_str +:+ ")"
  end.

(** [Clause.__repr__]. *)
Definition repr_clause (c : Clause) : string :=
  join " | " (map repr_predicate (literals c)).

(** ** CNF file parsing *)

(** [split_args]: the loop over the characters of [s], with the list
    [args], the counter [balance] and the string [current]. *)
Fixpoint split_args_loop (s : string) (args : list string) (balance : Z)
    (current : string) : list string :=
  match s with
  | EmptyString =>
      match current with
      | EmptyString => args
      | String _ _ => args ++ [current]
      end
  | String char r =>
      if Ascii.eqb char "," && (balance =? 0)%Z then
        split_args_loop r (args ++ [current]) balance ""
      else
        let balance' :=
          if Ascii.eqb char "(" then (balance + 1)%Z
          else if Ascii.eqb char ")" then (balance - 1)%Z
          else balance in
        split_args_loop r args balance' (current +:+ String char "")
  end.

Definition split_args (s : string) : list string :=
  split_args_loop s [] 0%Z "".

(** [c in s] for a character [c]. *)
Fixpoint contains_char (c : ascii) (s : string) : bool :=
  match s with
  | EmptyString => false
  | String x r => Ascii.eqb x c || contains_char c r
  end.

(** The part of [s] before its last occurrence of [c]. *)
Fixpoint before_last (c : ascii) (s : string) : option string :=
  match s with
  | EmptyString => None
  | String x r =>
      match before_last c r with
      | Some a => Some (String x a)
      | None => if Ascii.eqb x c then Some "" else None
      end
  end.

(** The part of [s] before its first newline. *)
Fixpoint line_prefix (s : string) : string :=
  match s with
  | EmptyString => ""
  | String x r => if Ascii.eqb x "010" then "" else String x (line_prefix r)
  end.

Definition is_ascii (c : ascii) : bool := nat_of_ascii c <? 128.

(** [str.isspace] on the ASCII characters: tab, line feed, vertical tab,
    form feed, carriage return, the four separators [0x1c]-[0x1f] and the
    space. *)
Definition is_ascii_space (c : ascii) : bool :=
  char_between "009" "013" c || char_between "028" "031" c || Ascii.eqb c " ".

Section parser.
(** Beyond ASCII, whether a character is white space and whether it is in
    the class [\w] are read from the Unicode database; they are parameters
    here. *)
Variable space_beyond_ascii : ascii → bool.
Variable word_beyond_ascii : ascii → bool.

Definition is_space (c : ascii) : bool :=
  if is_ascii c then is_ascii_space c else space_beyond_ascii c.

Definition is_word (c : ascii) : bool :=
  if is_ascii c then is_word_char c else word_beyond_ascii c.

(** [s.strip()]. *)
Fixpoint lstrip (s : string) : string :=
  match s with
  | EmptyString => ""
  | String c r => if is_space c then lstrip r else s
  end.

Fixpoint rstrip (s : string) : string :=
  match s with
  | EmptyString => ""
  | String c r =>
      match rstrip r with
      | EmptyString => if is_space c then "" else String c ""
      | String _ _ as r' => String c r'
      end
  end.

Definition strip (s : string) : string := rstrip (lstrip s).

(** [s.split()]: the maximal runs of characters that are not white
    space. *)
Fixpoint split_loop (s : string) (current : string) : list string :=
  match s with
  | EmptyString =>
      match current with
      | EmptyString => []
      | String _ _ => [current]
      end
  | String c r =>
      if is_space c then
        match current with
        | EmptyString => split_loop r ""
        | String _ _ => current :: split_loop r ""
        end
      else split_loop r (current +:+ String c "")
  end.

Definition split (s : string) : list string := split_loop s "".

(** The longest prefix of word characters, and the rest. *)
Fixpoint span_word (s : string) : string * string :=
  match s with
  | EmptyString => ("", "")
  | String c r =>
      if is_word c then
        let '(w, rest) := span_word r in (String c w, rest)
      else ("", s)
  end.

(** [re.match(pattern, token)], as its two groups; the pattern is the
    group [\w+], an opening parenthesis, the group [.*] and a closing
    parenthesis.  The first group is the longest prefix of word characters,
    since a shorter one is followed by a word character and not by a
    parenthesis; the second group runs from that parenthesis to the last
    closing parenthesis before the end of the line, since [.] matches no
    newline and [.*] is greedy. *)
Definition match_call (token : string) : option (string * string) :=
  match span_word token with
  | (String c w, String p rest) =>
      if Ascii.eqb p "(" then
        match before_last ")" (line_prefix rest) with
        | Some args_str => Some (String c w, args_str)
        | None => None
        end
      else None
  | _ => None
  end.

Fixpoint parse_term_or_function (fuel : nat) (token : string) : outcome term :=
  match fuel with
  | O => Timeout
  | S n =>
      let token := strip token in
      if contains_char "(" token then
        match match_call token with
        | None => Done (Term token)
        | Some (name, args_str) =>
            do args <- map_outcome (λ arg, parse_term_or_function n (strip arg))
                         (split_args args_str);
            Done (Function name args)
        end
      else Done (Term token)
  end.

(** [parse_predicate]; the inner [None] is the value it returns when the
    pattern does not match. *)
Definition parse_predicate (fuel : nat) (literal : string)
    : outcome (option Predicate) :=
  let negated := String.prefix "!" literal in
  let literal :=
    if negated then match literal with String _ r => r | EmptyString => "" end
    else literal in
  if negb (contains_char "(" literal) then Done (Some (mkPredicate literal [] negated))
  else
    match match_call literal with
    | None => Done None
    | Some (name, args_str) =>
        do args <- map_outcome (λ arg, parse_term_or_function fuel (strip arg))
                     (split_args args_str);
        Done (Some (mkPredicate name args negated))
    end.

(** The loop of [parse_clause] over the tokens of the line. *)
Fixpoint parse_literals (fuel : nat) (tokens : list string)
    : outcome (list Predicate) :=
  match tokens with
  | [] => Done []
  | l :: rest =>
      match l with
      | EmptyString => parse_literals fuel rest
      | String _ _ =>
          do pred <- parse_predicate fuel l;
          do preds <- parse_literals fuel rest;
          match pred with
          | Some p => Done (p :: preds)
          | None => Done preds
          end
      end
  end.

Definition parse_clause (fuel : nat) (line : string) : outcome Clause :=
  do predicates <- parse_literals fuel (split (strip line));
  Done (mkClause predicates).

(** The loop of [parse_input] over the lines that [readlines()] returned,
    with the flag [read_clauses]. *)
Fixpoint parse_lines (fuel : nat) (lines : list string) (read_clauses : bool)
    : outcome (list Clause) :=
  match lines with
  | [] => Done []
  | line :: rest =>
      let line := strip line in
      match line with
      | EmptyString => parse_lines fuel rest read_clauses
      | String _ _ =>
          if String.prefix "Clauses:" line then parse_lines fuel rest true
          else if read_clauses then
            do clause <- parse_clause fuel line;
            do clauses <- parse_lines fuel rest true;
            match literals clause with
            | [] => Done clauses
            | _ :: _ => Done (clause :: clauses)
            end
          else parse_lines fuel rest false
      end
  end.

Definition parse_input (fuel : nat) (lines : list string) : outcome (list Clause) :=
  parse_lines fuel lines false.
End parser.


(** [a + "," + b + "," + ...], each member followed by a comma. *)
Fixpoint comma_terminated (l : list string) : string :=
  match l with
  | [] => ""
  | a :: l' => a +:+ "," +:+ comma_terminated l'
  end.

(** Names the parser reads back: non-empty, of ASCII word characters. *)
Definition name_ok (n : string) : bool :=
  match n with
  | EmptyString => false
  | String _ _ => all_chars is_word_char n
  end.

Fixpoint term_ok (t : term) : bool :=
  match t with
  | Term n => name_ok n
  | Function f args => name_ok f && forallb term_ok args
  end.

Definition pred_ok (p : Predicate) : bool :=
  name_ok (pname p) && forallb term_ok (pargs p).

(** The characters of a printed term. *)
Definition repr_char (c : ascii) : bool :=
  is_word_char c || Ascii.eqb c "(" || Ascii.eqb c ")" || Ascii.eqb c ",".


(** ** The main driver *)


(** The members of [l] with [x] between each two. *)
Fixpoint intersperse {A} (x : A) (l : list A) : list A :=
  match l with
  | [] => []
  | [a] => [a]
  | a :: l' => a :: x :: intersperse x l'
  end.


(** * Properties *)

(** ** Structural equality decides equality *)

Lemma term_eqb_spec (a b : term) : term_eqb a b = true ↔ a = b.
Proof.
  revert b. induction a as [n | f xs IH] using term_ind'; intros [m | g ys]; simpl;
    try (split; [discriminate | congruence]).
  - rewrite String.eqb_eq. split; congruence.
  - rewrite andb_true_iff, String.eqb_eq.
    enough (Hl : ∀ ys,
      (fix list_eqb (l r : list term) : bool :=
         match l, r with
         | [], [] => true
         | x :: l', y :: r' => term_eqb x y && list_eqb l' r'
         | _, _ => false
         end) xs ys = true ↔ xs = ys).
    { rewrite Hl. split; [intros [-> ->]; done | intros [= -> ->]; done]. }
    clear ys. induction IH as [| x xs Hx _ IHxs]; intros [| y ys];
      try (split; [discriminate | congruence]); [done |].
    rewrite andb_true_iff, Hx, IHxs. split; [intros [-> ->]; done | intros [= -> ->]; done].
Qed.

Lemma args_eqb_spec (l r : list term) : args_eqb l r = true ↔ l = r.
Proof.
  revert r. induction l as [| x l IH]; intros [| y r]; simpl;
    try (split; [discriminate | congruence]); [done |].
  rewrite andb_true_iff, term_eqb_spec, IH.
  split; [intros [-> ->]; done | intros [= -> ->]; done].
Qed.

Lemma term_eqb_refl (a : term) : term_eqb a a = true.
Proof. by apply term_eqb_spec. Qed.

Lemma term_eqb_neq (a b : term) : term_eqb a b = false ↔ a ≠ b.
Proof. rewrite <- term_eqb_spec. destruct (term_eqb a b); split; congruence. Qed.

#[global] Instance term_eq_dec : EqDecision term.
Proof.
  intros a b. destruct (term_eqb a b) eqn:E.
  - left. by apply term_eqb_spec.
  - right. by apply term_eqb_neq.
Defined.

(** ** A larger recursion budget never changes a result *)

Lemma obind_done {A B} (m : outcome A) (k : A → outcome B) (b : B) :
  obind m k = Done b ↔ ∃ a, m = Done a ∧ k a = Done b.
Proof.
  destruct m as [| a]; simpl; split.
  - done.
  - by intros (a & [=] & _).
  - intros H. by exists a.
  - by intros (a' & [= <-] & H).
Qed.

Lemma any_outcome_mono (f g : term → outcome bool) (l : list term) (b : bool) :
  Forall (λ a, ∀ c, f a = Done c → g a = Done c) l →
  any_outcome f l = Done b → any_outcome g l = Done b.
Proof.
  induction 1 as [| a l Ha _ IH]; simpl; [done |].
  rewrite !obind_done. intros (c & Hc & Hr). exists c. split; [by apply Ha |].
  destruct c; [done | by apply IH].
Qed.

Lemma map_outcome_mono {A B} (f g : A → outcome B) (l : list A) (r : list B) :
  Forall (λ a, ∀ c, f a = Done c → g a = Done c) l →
  map_outcome f l = Done r → map_outcome g l = Done r.
Proof.
  intros H. revert r. induction H as [| a l Ha _ IH]; simpl; [done |].
  intros r. rewrite !obind_done. intros (c & Hc & Hr). exists c. split; [by apply Ha |].
  revert Hr. rewrite !obind_done. intros (cs & Hcs & Hr). exists cs. split; [by apply IH | done].
Qed.

Lemma occurs_check_mono (n m : nat) (var x : term) (s : subst) (b : bool) :
  n ≤ m → occurs_check n var x s = Done b → occurs_check m var x s = Done b.
Proof.
  revert m x b. induction n as [| n IH]; intros m x b Hle; [done |].
  destruct m as [| m]; [lia |]. simpl.
  destruct (term_eqb var x); [done |].
  destruct x as [nm | f args].
  - destruct (s !! nm); [apply IH; lia | done].
  - apply any_outcome_mono, Forall_forall. intros a _ c. apply IH. lia.
Qed.

Lemma substitute_mono (n m : nat) (t : term) (s : subst) (r : term) :
  n ≤ m → substitute n t s = Done r → substitute m t s = Done r.
Proof.
  revert m t r. induction n as [| n IH]; intros m t r Hle; [done |].
  destruct m as [| m]; [lia |]. simpl.
  destruct (subst_get t s); [apply IH; lia |].
  destruct t as [nm | f args]; [done |].
  rewrite !obind_done. intros (args' & Ha & Hr). exists args'. split; [| done].
  revert Ha. apply map_outcome_mono, Forall_forall. intros a _ c. apply IH. lia.
Qed.

Lemma unify_zip_mono (u v : term → term → option subst → outcome (option subst))
    (xs ys : list term) (s : subst) (r : option subst) :
  (∀ x y s r, x ∈ xs → u x y (Some s) = Done r → v x y (Some s) = Done r) →
  unify_zip u xs ys s = Done r → unify_zip v xs ys s = Done r.
Proof.
  revert ys s. induction xs as [| x xs IH]; intros [| y ys] s Huv; simpl; try done.
  rewrite !obind_done. intros (r1 & Hr1 & Hr). exists r1.
  split; [apply Huv; [left | done] |].
  destruct r1 as [s1 |]; [| done].
  revert Hr. apply IH. intros x' y' s' r' Hin. apply Huv. by right.
Qed.

Lemma unify_mono (n m : nat) (x y : term) (s0 : option subst) (r : option subst) :
  n ≤ m → unify n x y s0 = Done r → unify m x y s0 = Done r.
Proof.
  revert m x y s0 r. induction n as [| n IH]; intros m x y s0 r Hle; [done |].
  destruct m as [| m]; [lia |]. simpl.
  destruct s0 as [s |]; [| done].
  destruct (term_eqb x y); [done |].
  assert (Hvar : ∀ vn z, unify_var (unify n) n vn z s = Done r →
                         unify_var (unify m) m vn z s = Done r).
  { intros vn z. unfold unify_var.
    destruct (s !! vn); [apply IH; lia |].
    destruct (subst_get z s); [apply IH; lia |].
    rewrite !obind_done. intros (occ & Hocc & Hr). exists occ.
    split; [| done]. revert Hocc. apply occurs_check_mono. lia. }
  destruct (is_variable x).
  { destruct x; [apply Hvar | done]. }
  destruct (is_variable y).
  { destruct y; [apply Hvar | done]. }
  destruct x as [| f xs]; [done |]. destruct y as [| g ys]; [done |].
  destruct (negb (String.eqb f g) || negb (length xs =? length ys)); [done |].
  unfold unify_lists. destruct (negb (length xs =? length ys)); [done |].
  apply unify_zip_mono. intros x' y' s' r' _. apply IH. lia.
Qed.

Lemma unify_args_mono (n m : nat) (xs ys : list term) (s0 : option subst)
    (r : option subst) :
  n ≤ m → unify_args n xs ys s0 = Done r → unify_args m xs ys s0 = Done r.
Proof.
  intros Hle. destruct n as [| n]; [done |]. destruct m as [| m]; [lia |]. simpl.
  destruct s0 as [s |]; [| done].
  destruct (args_eqb xs ys); [done |].
  unfold unify_lists. destruct (negb (length xs =? length ys)); [done |].
  apply unify_zip_mono. intros x' y' s' r' _. apply unify_mono. lia.
Qed.

(** ** Names, sizes and parallel substitutions *)

Lemma tnames_Function (v f : string) (args : list term) :
  v ∈ tnames (Function f args) ↔ ∃ a, a ∈ args ∧ v ∈ tnames a.
Proof.
  simpl. rewrite elem_of_union_list. split.
  - intros (X & HX & Hv). apply list_elem_of_fmap in HX as (a & -> & Ha). eauto.
  - intros (a & Ha & Hv). exists (tnames a). split; [| done].
    apply list_elem_of_fmap. eauto.
Qed.

Lemma tnames_arg_subseteq (f : string) (args : list term) (a : term) :
  a ∈ args → tnames a ⊆ tnames (Function f args).
Proof. intros Ha v Hv. apply tnames_Function. eauto. Qed.

Lemma tsize_pos (t : term) : 0 < tsize t.
Proof. destruct t; simpl; lia. Qed.

Lemma sum_list_elem_le (k : nat) (l : list nat) : k ∈ l → k ≤ sum_list l.
Proof. induction 1; simpl; lia. Qed.

Lemma tsize_app_arg (θ : string → term) (f : string) (args : list term) (a : term) :
  a ∈ args → tsize (app θ a) < tsize (app θ (Function f args)).
Proof.
  intros Ha. simpl. apply Nat.lt_succ_r, sum_list_elem_le.
  apply list_elem_of_fmap. exists (app θ a). split; [done |].
  apply list_elem_of_fmap. eauto.
Qed.

Lemma any_outcome_false (f : term → outcome bool) (l : list term) :
  any_outcome f l = Done false → Forall (λ a, f a = Done false) l.
Proof.
  induction l as [| a l IH]; simpl; [by constructor |].
  rewrite obind_done. intros ([] & Ha & Hr); [done |]. constructor; auto.
Qed.

Lemma any_outcome_true (f : term → outcome bool) (l : list term) :
  any_outcome f l = Done true → Exists (λ a, f a = Done true) l.
Proof.
  induction l as [| a l IH]; simpl; [done |].
  rewrite obind_done. intros ([] & Ha & Hr); [by left | right; auto].
Qed.

(** ** Termination of the chase on acyclic substitutions *)

Lemma map_outcome_total {A B} (f : nat → A → outcome B) (l : list A) :
  (∀ n m a b, n ≤ m → f n a = Done b → f m a = Done b) →
  Forall (λ a, ∃ n b, f n a = Done b) l →
  ∃ n bs, map_outcome (f n) l = Done bs.
Proof.
  intros Hmono. induction 1 as [| a l (n1 & b & Hb) _ (n2 & bs & Hbs)].
  - by exists 0, [].
  - exists (n1 `max` n2), (b :: bs). simpl.
    rewrite (Hmono n1 _ a b) by (lia || done). simpl.
    erewrite map_outcome_mono; [done | | exact Hbs].
    apply Forall_forall. intros a' _ c. apply Hmono. lia.
Qed.

Lemma substitute_total_names (s : subst) (t : term) :
  (∀ v, v ∈ tnames t → ∃ n r, substitute n (Term v) s = Done r) →
  ∃ n r, substitute n t s = Done r.
Proof.
  induction t as [v | f args IH] using term_ind'; intros Hn.
  - apply Hn. simpl. set_solver.
  - destruct (map_outcome_total (λ n a, substitute n a s) args) as (n & bs & Hbs).
    + intros n m a b. apply substitute_mono.
    + rewrite Forall_forall in IH. apply Forall_forall. intros a Ha.
      apply IH; [done |]. intros v Hv. apply Hn, tnames_Function. eauto.
    + exists (S n), (Function f bs). simpl. by rewrite Hbs.
Qed.

Lemma substitute_total (s : subst) (t : term) :
  acyclic s → ∃ n r, substitute n t s = Done r.
Proof.
  intros Hacc. apply substitute_total_names. intros v _.
  induction (Hacc v) as [v _ IH].
  destruct (s !! v) as [t' |] eqn:Hv.
  - destruct (substitute_total_names s t') as (n & r & Hr).
    { intros u Hu. apply IH. by exists t'. }
    exists (S n), r. simpl. by rewrite Hv.
  - exists 1, (Term v). simpl. by rewrite Hv.
Qed.

(** The occurs-check follows the same recursion as the full chase. *)
Lemma occurs_check_total (n : nat) (var x : term) (s : subst) (r : term) :
  substitute n x s = Done r → ∃ b, occurs_check n var x s = Done b.
Proof.
  revert x r. induction n as [| n IH]; intros x r; [done |]. simpl.
  destruct (term_eqb var x); [by eauto |].
  destruct x as [nm | f args]; simpl.
  - destruct (s !! nm); [apply IH | by eauto].
  - rewrite obind_done. intros (args' & Ha & _). clear r.
    revert args' Ha. induction args as [| a args IHa]; intros args'; simpl; [by eauto |].
    rewrite obind_done. intros (b & Hb & Hr).
    apply obind_done in Hr as (bs & Hbs & _).
    destruct (IH _ _ Hb) as ([] & ->); simpl; [by eauto |]. by eapply IHa.
Qed.

(** ** What the occurs-check decides *)

Lemma occurs_check_false_below (n : nat) (vn : string) (x : term) (s : subst) :
  occurs_check n (Term vn) x s = Done false →
  ∀ v, v ∈ tnames x → ¬ rtc (below s) vn v.
Proof.
  revert x. induction n as [| n IH]; intros x; [done |]. cbn [occurs_check].
  destruct (term_eqb (Term vn) x) eqn:E; [done |].
  apply term_eqb_neq in E.
  destruct x as [nm | f args].
  - intros Ho v Hv Hrtc. simpl in Hv. apply elem_of_singleton in Hv as ->.
    apply rtc_inv_r in Hrtc as [-> | (u & Hu & (t & Ht & Hin))]; [done |].
    rewrite Ht in Ho. by eapply IH.
  - intros Ho v Hv. apply tnames_Function in Hv as (a & Ha & Hv).
    apply any_outcome_false in Ho. rewrite Forall_forall in Ho. by eapply IH; eauto.
Qed.

Lemma occurs_check_true_size (n : nat) (vn : string) (x : term) (s : subst)
    (θ : string → term) :
  occurs_check n (Term vn) x s = Done true → solves θ s →
  tsize (app θ (Term vn)) ≤ tsize (app θ x).
Proof.
  intros Ho Hθ. revert x Ho. induction n as [| n IH]; intros x; [done |].
  cbn [occurs_check].
  destruct (term_eqb (Term vn) x) eqn:E.
  { apply term_eqb_spec in E as <-. done. }
  destruct x as [nm | f args].
  - destruct (s !! nm) as [t |] eqn:Ht; [| done].
    intros Ho. rewrite (Hθ _ _ Ht). by apply IH.
  - intros Ho. apply any_outcome_true, Exists_exists in Ho as (a & Ha & Ho).
    apply IH in Ho. pose proof (tsize_app_arg θ f args a Ha). lia.
Qed.

(** ** Well-formed substitutions *)

Lemma well_formed_empty : well_formed ∅.
Proof.
  split.
  - intros n [t Ht]. by rewrite lookup_empty in Ht.
  - intros n. constructor. intros v (t & Ht & _). by rewrite lookup_empty in Ht.
Qed.

Lemma closed_empty (U : gset string) : closed U ∅.
Proof.
  split; [set_solver |]. intros n t Ht. by rewrite lookup_empty in Ht.
Qed.

Lemma acyclic_insert (s : subst) (vn : string) (x : term) :
  acyclic s → s !! vn = None →
  (∀ v, v ∈ tnames x → ¬ rtc (below s) vn v) →
  acyclic (<[vn := x]> s).
Proof.
  intros Hacc Hvn Hx.
  assert (HA : ∀ w, ¬ rtc (below s) vn w → Acc (below (<[vn := x]> s)) w).
  { intros w. induction (Hacc w) as [w _ IH]. intros Hw.
    constructor. intros u (t & Ht & Hu).
    assert (vn ≠ w) as Hne by (intros ->; by apply Hw).
    rewrite lookup_insert_ne in Ht by done.
    apply IH; [by exists t |].
    intros Hrtc. apply Hw. eapply rtc_r; [done |]. by exists t. }
  assert (HB : Acc (below (<[vn := x]> s)) vn).
  { constructor. intros u (t & Ht & Hu).
    rewrite lookup_insert_eq in Ht. injection Ht as <-. by apply HA, Hx. }
  intros w. induction (Hacc w) as [w _ IH].
  destruct (decide (vn = w)) as [<- | Hne]; [done |].
  constructor. intros u (t & Ht & Hu). rewrite lookup_insert_ne in Ht by done.
  apply IH. by exists t.
Qed.

(** ** Each branch of [unify] establishes [unify_post] *)

Lemma unify_post_refl (x : term) (s : subst) : unify_post x x s (Some s).
Proof.
  split; [done |]. split; [| done]. intros θ. split; [done | by intros [H _]].
Qed.

Lemma unify_post_sym (x y : term) (s : subst) (r : option subst) :
  unify_post x y s r → unify_post y x s r.
Proof.
  destruct r as [σ |]; simpl.
  - intros (Hsub & Hsol & Hwf & Hcl). split; [done |]. split; [| split; [done |]].
    + intros θ. rewrite Hsol. split; intros [H1 H2]; done.
    + intros U HU Hy Hx. by apply Hcl.
  - intros H θ Hθ Heq. by apply (H θ Hθ).
Qed.

Lemma unify_post_chase (vx : string) (t y : term) (s : subst) (r : option subst) :
  s !! vx = Some t → unify_post t y s r → unify_post (Term vx) y s r.
Proof.
  intros Hvx. destruct r as [σ |]; cbn [unify_post].
  - intros (Hsub & Hsol & Hwf & Hcl). split; [done |]. split; [| split; [done |]].
    + intros θ. rewrite Hsol. split; intros [H1 H2]; (split; [done |]);
        pose proof (H1 _ _ Hvx) as E; congruence.
    + intros U HU Hx Hy. apply Hcl; [done | | done]. destruct HU as [_ H]. by eapply H.
  - intros H θ Hθ Heq. apply (H θ Hθ). rewrite <- Heq. symmetry. by apply (Hθ _ _ Hvx).
Qed.

Lemma unify_post_bind (vn : string) (x : term) (s : subst) :
  s !! vn = None → name_is_variable vn = true →
  (∀ v, v ∈ tnames x → ¬ rtc (below s) vn v) →
  unify_post (Term vn) x s (Some (<[vn := x]> s)).
Proof.
  intros Hvn Hvar Hocc. split; [by apply insert_subseteq |]. split; [| split].
  - intros θ. split.
    + intros Hθ. split.
      * intros n t Hn. apply Hθ. rewrite lookup_insert_ne; [done |]. congruence.
      * apply Hθ. by rewrite lookup_insert_eq.
    + intros [Hθ Heq] n t. rewrite lookup_insert. case_decide as E.
      * intros [= <-]. by subst.
      * apply Hθ.
  - intros [Hkeys Hacc]. split.
    + intros n. rewrite lookup_insert. case_decide as E; [by subst | apply Hkeys].
    + by apply acyclic_insert.
  - intros U [Hdom Hval] HU Hx. split.
    + rewrite dom_insert. simpl in HU. set_solver.
    + intros n t. rewrite lookup_insert. case_decide as E; [by intros [= <-] | apply Hval].
Qed.

Lemma unify_post_occurs (n : nat) (vn : string) (x : term) (s : subst) :
  occurs_check n (Term vn) x s = Done true → Term vn ≠ x → subst_get x s = None →
  unify_post (Term vn) x s None.
Proof.
  intros Ho Hne Hx θ Hθ Heq.
  destruct n as [| n]; [done |]. cbn [occurs_check] in Ho.
  apply term_eqb_neq in Hne. rewrite Hne in Ho.
  destruct x as [nm | f args].
  - simpl in Hx. by rewrite Hx in Ho.
  - apply any_outcome_true, Exists_exists in Ho as (a & Ha & Ho).
    apply (occurs_check_true_size _ _ _ _ θ) in Ho; [| done].
    pose proof (tsize_app_arg θ f args a Ha). rewrite <- Heq in *. lia.
Qed.

Lemma unify_post_Function (f : string) (xs ys : list term) (s : subst)
    (r : option subst) :
  unify_post_list xs ys s r → unify_post (Function f xs) (Function f ys) s r.
Proof.
  destruct r as [σ |]; simpl.
  - intros (Hsub & Hsol & Hwf & Hcl). split; [done |]. split; [| split; [done |]].
    + intros θ. rewrite Hsol. split; [intros [H1 ->]; done | intros [H1 [= H2]]; done].
    + intros U HU Hx Hy. by apply Hcl.
  - intros H θ Hθ [= Heq]. by apply (H θ Hθ).
Qed.

Lemma unify_post_mismatch (f g : string) (xs ys : list term) (s : subst) :
  f ≠ g ∨ length xs ≠ length ys →
  unify_post (Function f xs) (Function g ys) s None.
Proof.
  intros H θ _ [= Hfg Heq]. destruct H as [H | H]; [done |].
  apply H. apply (f_equal length) in Heq. by rewrite !length_fmap in Heq.
Qed.

Lemma unify_post_clash (x y : term) (s : subst) :
  is_variable x = false → is_variable y = false → x ≠ y →
  match x, y with Function _ _, Function _ _ => False | _, _ => True end →
  unify_post x y s None.
Proof.
  intros Hx Hy Hne Hshape θ _.
  destruct x as [a | f xs], y as [b | g ys]; simpl in *; try done.
  all: rewrite ?Hx, ?Hy; congruence.
Qed.

Lemma unify_post_zip (u : term → term → option subst → outcome (option subst))
    (xs ys : list term) (s : subst) (r : option subst) :
  (∀ x y s r, u x y (Some s) = Done r → unify_post x y s r) →
  length xs = length ys →
  unify_zip u xs ys s = Done r → unify_post_list xs ys s r.
Proof.
  intros Hu. revert ys s. induction xs as [| x xs IH]; intros [| y ys] s Hlen; try done.
  - simpl. intros [= <-]. split; [done |]. split; [| done].
    intros θ. split; [done | by intros [H _]].
  - simpl. rewrite obind_done. intros (r1 & Hr1 & Hr). apply Hu in Hr1.
    destruct r1 as [s1 |].
    + apply IH in Hr; [| by injection Hlen]. clear IH.
      destruct Hr1 as (Hsub1 & Hsol1 & Hwf1 & Hcl1).
      destruct r as [σ |]; simpl in *.
      * destruct Hr as (Hsub & Hsol & Hwf & Hcl). split; [by etrans |].
        split; [| split].
        -- intros θ. rewrite Hsol, Hsol1. split.
           ++ intros [[H1 H2] H3]. split; [done |]. f_equal; [done | exact H3].
           ++ intros [H1 [= H2 H3]]. done.
        -- auto.
        -- intros U HU Hx Hy. apply Hcl; [| set_solver | set_solver].
           apply Hcl1; [done | set_solver | set_solver].
      * intros θ Hθ [= H2 H3]. apply (Hr θ); [| done]. apply Hsol1. done.
    + injection Hr as <-. simpl in *. intros θ Hθ [= H2 H3]. by apply (Hr1 θ).
Qed.

Lemma unify_post_var (u : term → term → option subst → outcome (option subst))
    (n : nat) (vn : string) (z : term) (s : subst) (r : option subst) :
  (∀ x y s r, u x y (Some s) = Done r → unify_post x y s r) →
  name_is_variable vn = true → Term vn ≠ z →
  unify_var u n vn z s = Done r → unify_post (Term vn) z s r.
Proof.
  intros Hu Hvar Hne. unfold unify_var.
  destruct (s !! vn) as [t |] eqn:Hvn.
  { intros H. eapply unify_post_chase; eauto. }
  destruct (subst_get z s) as [t |] eqn:Hz.
  { intros H. destruct z as [vz | ]; [| done]. simpl in Hz.
    apply unify_post_sym. eapply unify_post_chase; [done |].
    apply unify_post_sym. eauto. }
  rewrite obind_done. intros ([] & Ho & Hr); injection Hr as <-.
  - by eapply unify_post_occurs.
  - apply unify_post_bind; [done | done |]. by eapply occurs_check_false_below.
Qed.

Lemma unify_sound (n : nat) (x y : term) (s : subst) (r : option subst) :
  unify n x y (Some s) = Done r → unify_post x y s r.
Proof.
  revert x y s r. induction n as [| n IH]; intros x y s r; [done |].
  cbn [unify].
  destruct (term_eqb x y) eqn:E.
  { apply term_eqb_spec in E as ->. intros [= <-]. apply unify_post_refl. }
  apply term_eqb_neq in E.
  destruct (is_variable x) eqn:Hx.
  { destruct x as [vx |]; [| done]. by apply unify_post_var. }
  destruct (is_variable y) eqn:Hy.
  { destruct y as [vy |]; [| done]. intros H. apply unify_post_sym.
    revert H. by apply unify_post_var. }
  destruct x as [a | f xs], y as [b | g ys];
    try (intros [= <-]; by apply unify_post_clash).
  destruct (String.eqb_spec f g) as [<- | Hfg]; simpl.
  2:{ intros [= <-]. apply unify_post_mismatch. by left. }
  destruct (Nat.eqb_spec (length xs) (length ys)) as [Hlen | Hlen]; simpl.
  2:{ intros [= <-]. apply unify_post_mismatch. by right. }
  unfold unify_lists. rewrite Hlen, Nat.eqb_refl. simpl.
  intros H. apply unify_post_Function. revert H. by apply unify_post_zip.
Qed.

Lemma unify_args_sound (n : nat) (xs ys : list term) (s : subst) (r : option subst) :
  unify_args n xs ys (Some s) = Done r →
  length xs = length ys ∧ unify_post_list xs ys s r ∨
  length xs ≠ length ys ∧ r = None.
Proof.
  destruct n as [| n]; [done |]. simpl.
  destruct (args_eqb xs ys) eqn:E.
  { apply args_eqb_spec in E as ->. intros [= <-]. left. split; [done |].
    split; [done |]. split; [| done]. intros θ. split; [done | by intros [H _]]. }
  unfold unify_lists.
  destruct (Nat.eqb_spec (length xs) (length ys)) as [Hlen | Hlen]; simpl.
  - intros H. left. split; [done |]. revert H. apply unify_post_zip; [| done].
    intros x y s' r'. apply unify_sound.
  - intros [= <-]. by right.
Qed.

(** ** The full chase of a well-formed substitution is a solution of it *)

Lemma substitute_det (n m : nat) (t : term) (s : subst) (r r' : term) :
  substitute n t s = Done r → substitute m t s = Done r' → r = r'.
Proof.
  intros H1 H2.
  apply (substitute_mono _ (n `max` m)) in H1; [| lia].
  apply (substitute_mono _ (n `max` m)) in H2; [| lia]. congruence.
Qed.

Lemma uniform_budget (s : subst) :
  acyclic s → ∃ F, ∀ v, ∃ t, substitute F (Term v) s = Done t.
Proof.
  intros Hacc.
  assert (HX : ∀ X : gset string,
    ∃ F, ∀ v, v ∈ X → ∃ t, substitute F (Term v) s = Done t).
  { intros X. induction X as [| v X Hv (F & HF)] using set_ind_L.
    - exists 0. set_solver.
    - destruct (substitute_total s (Term v) Hacc) as (n & r & Hr).
      exists (n `max` F). intros w [->%elem_of_singleton | Hw]%elem_of_union.
      + exists r. revert Hr. apply substitute_mono. lia.
      + destruct (HF w Hw) as [t Ht]. exists t. revert Ht. apply substitute_mono. lia. }
  destruct (HX (dom s)) as (F & HF). exists (S F). intros v.
  destruct (s !! v) as [t |] eqn:Hv.
  - destruct (HF v) as [r Hr]; [by apply elem_of_dom |].
    exists r. revert Hr. apply substitute_mono. lia.
  - exists (Term v). simpl. by rewrite Hv.
Qed.

Section closure.
Variables (s : subst) (F : nat).
Hypothesis Hkeys : ∀ n, is_Some (s !! n) → name_is_variable n = true.
Hypothesis HF : ∀ v, ∃ t, substitute F (Term v) s = Done t.

Lemma closure_substitute (n : nat) (t r : term) :
  substitute n t s = Done r → app (closure F s) t = r.
Proof.
  revert t r. induction n as [| n IH]; intros t r; [done |]. simpl.
  destruct t as [v | f args]; simpl.
  - destruct (HF v) as [r' Hr']. unfold closure. rewrite Hr'.
    destruct (s !! v) as [t' |] eqn:Hv.
    + rewrite Hkeys by eauto. intros Hr.
      eapply substitute_det; [exact Hr' |]. instantiate (1 := S n). simpl.
      by rewrite Hv.
    + intros [= <-]. apply (substitute_mono _ (S F)) in Hr'; [| lia]. simpl in Hr'.
      rewrite Hv in Hr'. injection Hr' as <-. by destruct (name_is_variable v).
  - rewrite obind_done. intros (args' & Ha & [= <-]). f_equal.
    revert args' Ha. induction args as [| a args IHa]; intros args'; simpl.
    + by intros [= <-].
    + rewrite obind_done. intros (b & Hb & Hr).
      apply obind_done in Hr as (bs & Hbs & [= <-]).
      f_equal; [by apply IH | by apply IHa].
Qed.

Lemma closure_substitute_list (n : nat) (ts rs : list term) :
  map_outcome (λ a, substitute n a s) ts = Done rs → app (closure F s) <$> ts = rs.
Proof.
  revert rs. induction ts as [| a ts IH]; intros rs; simpl.
  - by intros [= <-].
  - rewrite obind_done. intros (b & Hb & Hr).
    apply obind_done in Hr as (bs & Hbs & [= <-]).
    f_equal; [by eapply closure_substitute | by apply IH].
Qed.

Lemma closure_solves : solves (closure F s) s.
Proof.
  intros n t Hn. destruct (HF n) as [r Hr].
  assert (app (closure F s) (Term n) = r) as -> by by eapply closure_substitute.
  apply (substitute_mono _ (S F)) in Hr; [| lia]. simpl in Hr. rewrite Hn in Hr.
  symmetry. by eapply closure_substitute.
Qed.
End closure.

(** A solution of [s] is unchanged by chasing [s] first. *)
Lemma solves_substitute (θ : string → term) (s : subst) (n : nat) (t r : term) :
  solves θ s → substitute n t s = Done r → app θ r = app θ t.
Proof.
  intros Hθ. revert t r. induction n as [| n IH]; intros t r; [done |]. simpl.
  destruct t as [v | f args]; simpl.
  - destruct (s !! v) as [t' |] eqn:Hv.
    + intros Hr. rewrite (IH _ _ Hr). symmetry. apply (Hθ _ _ Hv).
    + by intros [= <-].
  - rewrite obind_done. intros (args' & Ha & [= <-]). simpl. f_equal.
    revert args' Ha. induction args as [| a args IHa]; intros args'; simpl.
    + by intros [= <-].
    + rewrite obind_done. intros (b & Hb & Hr).
      apply obind_done in Hr as (bs & Hbs & [= <-]). simpl.
      f_equal; [by apply IH | by apply IHa].
Qed.

Lemma map_substitute_total (s : subst) (ts : list term) :
  acyclic s → ∃ n rs, map_outcome (λ a, substitute n a s) ts = Done rs.
Proof.
  intros Hacc. apply (map_outcome_total (λ n a, substitute n a s)).
  - intros n m a b. apply substitute_mono.
  - apply Forall_forall. intros a _. by apply substitute_total.
Qed.

(** ** Termination of [unify] on well-formed substitutions *)

Lemma subseteq_dom_eq (s s' : subst) : s ⊆ s' → dom s' ⊆ dom s → s = s'.
Proof.
  intros Hsub Hdom. apply map_eq. intros i.
  destruct (s' !! i) as [t |] eqn:Hi.
  - assert (i ∈ dom s) as [t0 Ht0]%elem_of_dom by (apply Hdom, elem_of_dom; eauto).
    pose proof (lookup_weaken _ _ _ _ Ht0 Hsub). congruence.
  - by eapply lookup_weaken_None.
Qed.

Lemma size_unbound_lt (U : gset string) (s s' : subst) :
  s ⊆ s' → s ≠ s' → dom s' ⊆ U → size (U ∖ dom s') < size (U ∖ dom s).
Proof.
  intros Hsub Hne HU. apply subset_size. split.
  - apply subseteq_dom in Hsub. set_solver.
  - intros Hrev. apply Hne, subseteq_dom_eq; [done |].
    intros i Hi. destruct (decide (i ∈ dom s)) as [| Hni]; [done |].
    assert (i ∈ U ∖ dom s') by set_solver. set_solver.
Qed.

Lemma unify_zip_terminates (U : gset string) (xs ys : list term) (s : subst) :
  (∀ x y s', x ∈ xs → y ∈ ys → s ⊆ s' → well_formed s' → closed U s' →
     ∃ N r, unify N x y (Some s') = Done r) →
  well_formed s → closed U s →
  (∀ x, x ∈ xs → tnames x ⊆ U) → (∀ y, y ∈ ys → tnames y ⊆ U) →
  ∃ N r, unify_zip (unify N) xs ys s = Done r.
Proof.
  revert ys s. induction xs as [| x xs IH]; intros [| y ys] s Hu Hwf Hcl Hxs Hys;
    try (by exists 0, (Some s)).
  destruct (Hu x y s) as (N1 & r1 & Hr1); [by left | by left | done | done | done |].
  destruct r1 as [s1 |].
  - pose proof (unify_sound _ _ _ _ _ Hr1) as (Hsub & _ & Hwf1 & Hcl1).
    destruct (IH ys s1) as (N2 & r2 & Hr2).
    + intros x' y' s' Hx' Hy' Hsub'. apply Hu; [by right | by right | by etrans].
    + by apply Hwf1.
    + apply Hcl1; [done | apply Hxs; by left | apply Hys; by left].
    + intros x' Hx'. apply Hxs. by right.
    + intros y' Hy'. apply Hys. by right.
    + exists (N1 `max` N2), r2. simpl.
      rewrite (unify_mono N1 _ _ _ _ (Some s1)) by (lia || done). simpl.
      revert Hr2. apply unify_zip_mono. intros ? ? ? ? _. apply unify_mono. lia.
  - exists N1, None. simpl. by rewrite Hr1.
Qed.

Lemma substitute_Function_args (n : nat) (f : string) (args : list term)
    (s : subst) (r : term) :
  substitute (S n) (Function f args) s = Done r →
  ∀ a, a ∈ args → ∃ ra, substitute n a s = Done ra.
Proof.
  simpl. rewrite obind_done. intros (args' & Ha & _). clear r.
  revert args' Ha. induction args as [| b args IH]; intros args'; simpl.
  - intros _ a Ha. by apply elem_of_nil in Ha.
  - rewrite obind_done. intros (rb & Hb & Hr).
    apply obind_done in Hr as (bs & Hbs & _).
    intros a [-> | Ha]%elem_of_cons; [by eauto | by eapply IH].
Qed.

Lemma unify_terminates_closed (U : gset string) (m : nat) :
  ∀ k x y s kx ky rx ry,
    well_formed s → closed U s → tnames x ⊆ U → tnames y ⊆ U →
    size (U ∖ dom s) ≤ m →
    substitute kx x s = Done rx → substitute ky y s = Done ry → kx + ky ≤ k →
    ∃ N r, unify N x y (Some s) = Done r.
Proof.
  induction m as [m IHm] using lt_wf_ind.
  induction k as [| k IHk]; intros x y s kx ky rx ry Hwf Hcl Hx Hy Hm Hkx Hky Hk.
  { destruct kx; [done | lia]. }
  destruct kx as [| kx]; [done |]. destruct ky as [| ky]; [done |].
  (* the call [unify_var(var, z, s)], in either orientation *)
  assert (Hvar : ∀ vn z kv kz rv rz,
    tnames (Term vn) ⊆ U → tnames z ⊆ U →
    substitute (S kv) (Term vn) s = Done rv → substitute (S kz) z s = Done rz →
    S kv + S kz ≤ S k →
    ∃ N r, unify_var (unify N) N vn z s = Done r).
  { intros vn z kv kz rv rz Hvn Hz Hkv Hkz Hle. unfold unify_var.
    destruct (s !! vn) as [t |] eqn:Ht.
    { simpl in Hkv. rewrite Ht in Hkv.
      apply (IHk t z s kv (S kz) rv rz Hwf Hcl); [| done | done | done | done | lia].
      destruct Hcl as [_ Hcl]. by eapply Hcl. }
    destruct (subst_get z s) as [t |] eqn:Ht'.
    { destruct z as [vz |]; [| done]. simpl in Ht', Hkz. rewrite Ht' in Hkz.
      apply (IHk (Term vn) t s (S kv) kz rv rz Hwf Hcl);
        [done | | done | done | done | lia].
      destruct Hcl as [_ Hcl]. by eapply Hcl. }
    destruct (occurs_check_total _ (Term vn) _ _ _ Hkz) as [b Hb].
    exists (S kz). rewrite Hb. simpl. destruct b; eauto. }
  destruct (term_eqb x y) eqn:E.
  { exists 1, (Some s). simpl. by rewrite E. }
  destruct (is_variable x) eqn:Hvx.
  { destruct x as [vx |]; [| done].
    destruct (Hvar vx y kx ky rx ry) as (N & r & Hr); [done | done | done | done | lia |].
    exists (S N), r. cbn [unify]. by rewrite E, Hvx. }
  destruct (is_variable y) eqn:Hvy.
  { destruct y as [vy |]; [| done].
    destruct (Hvar vy x ky kx ry rx) as (N & r & Hr); [done | done | done | done | lia |].
    exists (S N), r. cbn [unify]. by rewrite E, Hvx, Hvy. }
  destruct x as [a | f xs], y as [b | g ys];
    try (exists 1, None; cbn [unify]; by rewrite E, ?Hvx, ?Hvy).
  destruct (negb (f =? g)%string || negb (length xs =? length ys)) eqn:Hfg.
  { exists 1, None. cbn [unify]. by rewrite E, Hfg. }
  pose proof Hfg as Hlen. apply orb_false_iff in Hlen as [_ Hlen].
  destruct (unify_zip_terminates U xs ys s) as (N & r & Hr); try done.
  - intros x y s' Hx' Hy' Hsub Hwf' Hcl'.
    assert (Hxu : tnames x ⊆ U) by (etrans; [by apply tnames_arg_subseteq | done]).
    assert (Hyu : tnames y ⊆ U) by (etrans; [by apply tnames_arg_subseteq | done]).
    destruct (decide (s = s')) as [<- | Hne].
    + destruct (substitute_Function_args _ _ _ _ _ Hkx x Hx') as [rx' Hrx'].
      destruct (substitute_Function_args _ _ _ _ _ Hky y Hy') as [ry' Hry'].
      apply (IHk x y s kx ky rx' ry'); try done. lia.
    + destruct (substitute_total s' x (proj2 Hwf')) as (nx & rx' & Hnx).
      destruct (substitute_total s' y (proj2 Hwf')) as (ny & ry' & Hny).
      apply (IHm (size (U ∖ dom s')))
        with (k := nx + ny) (kx := nx) (ky := ny) (rx := rx') (ry := ry'); try done.
      eapply Nat.lt_le_trans; [| exact Hm].
      apply size_unbound_lt; [done | done | apply Hcl'].
  - intros x Hx'. etrans; [by apply tnames_arg_subseteq | done].
  - intros y Hy'. etrans; [by apply tnames_arg_subseteq | done].
  - exists (S N), r. cbn [unify]. rewrite E. simpl. rewrite Hfg.
    unfold unify_lists. by rewrite Hlen.
Qed.

Lemma closed_subst_names (s : subst) (X : gset string) :
  closed (subst_names s ∪ X) s.
Proof.
  unfold subst_names. split; [set_solver |].
  intros n t Hn v Hv. apply elem_of_union. left. apply elem_of_union. right.
  apply elem_of_union_list. exists (tnames t). split; [| done].
  apply list_elem_of_fmap. exists t. split; [done |].
  apply list_elem_of_fmap. exists (n, t). split; [done |].
  by apply elem_of_map_to_list.
Qed.

Lemma unify_terminates (x y : term) (s : subst) :
  well_formed s → ∃ N r, unify N x y (Some s) = Done r.
Proof.
  intros Hwf.
  destruct (substitute_total s x (proj2 Hwf)) as (kx & rx & Hkx).
  destruct (substitute_total s y (proj2 Hwf)) as (ky & ry & Hky).
  pose (U := subst_names s ∪ (tnames x ∪ tnames y)).
  apply (unify_terminates_closed U (size (U ∖ dom s)) (kx + ky) x y s kx ky rx ry);
    try done.
  - apply closed_subst_names.
  - subst U. set_solver.
  - subst U. set_solver.
Qed.

Lemma unify_args_terminates (xs ys : list term) (s : subst) :
  well_formed s → ∃ N r, unify_args N xs ys (Some s) = Done r.
Proof.
  intros Hwf.
  destruct (args_eqb xs ys) eqn:E.
  { exists 1, (Some s). simpl. by rewrite E. }
  destruct (length xs =? length ys) eqn:Hlen.
  2:{ exists 1, None. simpl. rewrite E. unfold unify_lists. by rewrite Hlen. }
  pose (U := subst_names s ∪ (⋃ (tnames <$> xs) ∪ ⋃ (tnames <$> ys))).
  destruct (unify_zip_terminates U xs ys s) as (N & r & Hr); try done.
  - intros x y s' _ _ _ Hwf' _. by apply unify_terminates.
  - apply closed_subst_names.
  - intros x Hx v Hv. subst U. apply elem_of_union. right. apply elem_of_union. left.
    apply elem_of_union_list. exists (tnames x). split; [| done].
    apply list_elem_of_fmap. eauto.
  - intros y Hy v Hv. subst U. apply elem_of_union. right. apply elem_of_union. right.
    apply elem_of_union_list. exists (tnames y). split; [| done].
    apply list_elem_of_fmap. eauto.
  - exists (S N), r. simpl. rewrite E. unfold unify_lists. by rewrite Hlen.
Qed.

Lemma solves_empty (θ : string → term) : solves θ ∅.
Proof. intros n t Hn. by rewrite lookup_empty in Hn. Qed.

(** A well-formed substitution has a solution: its own full chase. *)
Lemma well_formed_solution (σ : subst) :
  well_formed σ →
  ∃ θ, solves θ σ ∧
       (∀ n t r, substitute n t σ = Done r → app θ t = r) ∧
       (∀ n ts rs, map_outcome (λ a, substitute n a σ) ts = Done rs → app θ <$> ts = rs).
Proof.
  intros [Hkeys Hacc]. destruct (uniform_budget σ Hacc) as [F HF].
  exists (closure F σ). split; [| split].
  - by apply closure_solves.
  - intros n t r. by apply closure_substitute.
  - intros n ts rs. by apply closure_substitute_list.
Qed.

(** ** Unification from the empty substitution *)

Lemma unify_empty_post (n : nat) (x y : term) (σ : subst) :
  unify n x y (Some ∅) = Done (Some σ) →
  well_formed σ ∧ ∀ θ, solves θ σ ↔ unifies θ x y.
Proof.
  intros H. apply unify_sound in H as (_ & Hsol & Hwf & _). split.
  - apply Hwf, well_formed_empty.
  - intros θ. rewrite Hsol. split; [by intros [_ H] | intros H; split; [apply solves_empty | done]].
Qed.

Lemma unify_args_empty_post (n : nat) (xs ys : list term) (σ : subst) :
  unify_args n xs ys (Some ∅) = Done (Some σ) →
  length xs = length ys ∧ well_formed σ ∧ ∀ θ, solves θ σ ↔ unifies_args θ xs ys.
Proof.
  intros H. apply unify_args_sound in H as [[Hlen (_ & Hsol & Hwf & _)] | [_ [=]]].
  split; [done |]. split.
  - apply Hwf, well_formed_empty.
  - intros θ. rewrite Hsol. split; [by intros [_ H] | intros H; split; [apply solves_empty | done]].
Qed.

Lemma unify_success_iff (n : nat) (x y : term) (r : option subst) :
  unify n x y (Some ∅) = Done r → is_Some r ↔ ∃ θ, unifies θ x y.
Proof.
  intros H. destruct r as [σ |].
  - apply unify_empty_post in H as [Hwf Hsol]. split; [intros _ | by eauto].
    destruct (well_formed_solution σ Hwf) as (θ & Hθ & _). exists θ. by apply Hsol.
  - apply unify_sound in H. split; [by intros [? [=]] |].
    intros [θ Hθ]. exfalso. by apply (H θ (solves_empty θ)).
Qed.

Lemma unify_args_success_iff (n : nat) (xs ys : list term) (r : option subst) :
  unify_args n xs ys (Some ∅) = Done r → is_Some r ↔ ∃ θ, unifies_args θ xs ys.
Proof.
  intros H. destruct r as [σ |].
  - apply unify_args_empty_post in H as (_ & Hwf & Hsol). split; [intros _ | by eauto].
    destruct (well_formed_solution σ Hwf) as (θ & Hθ & _). exists θ. by apply Hsol.
  - apply unify_args_sound in H as [[_ H] | [Hlen _]]; (split; [by intros [? [=]] |]).
    + intros [θ Hθ]. exfalso. by apply (H θ (solves_empty θ)).
    + intros [θ Hθ]. apply (f_equal length) in Hθ. by rewrite !length_fmap in Hθ.
Qed.

Lemma solves_more_general (σ : subst) (θ : string → term) :
  well_formed σ → solves θ σ → more_general σ θ.
Proof.
  intros Hwf Hθ t. destruct (substitute_total σ t (proj2 Hwf)) as (n & r & Hr).
  exists n, r. split; [done |]. by eapply solves_substitute.
Qed.

Lemma solves_same_unifier (σ1 σ2 : subst) :
  well_formed σ1 → well_formed σ2 →
  (∀ θ, solves θ σ1 ↔ solves θ σ2) → same_unifier σ1 σ2.
Proof.
  assert (Hhalf : ∀ (a b : subst) n1 n2 t r1 r2,
    well_formed a → (∀ θ, solves θ a → solves θ b) →
    substitute n1 t a = Done r1 → substitute n2 t b = Done r2 →
    ∃ n, substitute n r2 a = Done r1).
  { intros a b n1 n2 t r1 r2 Hwf Hsol H1 H2.
    destruct (well_formed_solution a Hwf) as (θ & Hθ & Happ & _).
    destruct (substitute_total a r2 (proj2 Hwf)) as (n & r' & Hr').
    exists n. rewrite Hr'. f_equal.
    rewrite <- (Happ _ _ _ Hr'), <- (Happ _ _ _ H1).
    eapply solves_substitute; [| done]. by apply Hsol. }
  intros Hwf1 Hwf2 Hsol t.
  destruct (substitute_total σ1 t (proj2 Hwf1)) as (n1 & r1 & H1).
  destruct (substitute_total σ2 t (proj2 Hwf2)) as (n2 & r2 & H2).
  destruct (Hhalf σ1 σ2 n1 n2 t r1 r2) as [n3 H3]; [done | apply Hsol | done | done |].
  destruct (Hhalf σ2 σ1 n2 n1 t r2 r1) as [n4 H4]; [done | apply Hsol | done | done |].
  exists ((n1 `max` n2) `max` (n3 `max` n4)), r1, r2.
  repeat split; eapply substitute_mono; try eassumption; lia.
Qed.

(** ** The claims on unification and substitution *)

(** C1: when [unify(x, y, {})] returns a substitution [σ], the full chase
    [substitute(·, σ)] returns the same term on [x] and on [y]; for two
    argument lists (which then have equal length) it returns the same list
    of terms, element by element. *)
Theorem unify_makes_identical :
  (∀ n x y σ,
     unify n x y (Some ∅) = Done (Some σ) →
     ∃ m r, substitute m x σ = Done r ∧ substitute m y σ = Done r) ∧
  (∀ n xs ys σ,
     unify_args n xs ys (Some ∅) = Done (Some σ) →
     length xs = length ys ∧
     ∃ m rs, map_outcome (λ a, substitute m a σ) xs = Done rs ∧
             map_outcome (λ a, substitute m a σ) ys = Done rs).
Proof.
  split.
  - intros n x y σ H. apply unify_empty_post in H as [Hwf Hsol].
    destruct (well_formed_solution σ Hwf) as (θ & Hθ & Happ & _).
    destruct (substitute_total σ x (proj2 Hwf)) as (nx & rx & Hx).
    destruct (substitute_total σ y (proj2 Hwf)) as (ny & ry & Hy).
    apply Hsol in Hθ. red in Hθ.
    rewrite (Happ _ _ _ Hx), (Happ _ _ _ Hy) in Hθ. subst ry.
    exists (nx `max` ny), rx.
    split; [apply (substitute_mono nx) | apply (substitute_mono ny)]; (lia || done).
  - intros n xs ys σ H. apply unify_args_empty_post in H as (Hlen & Hwf & Hsol).
    split; [done |].
    destruct (well_formed_solution σ Hwf) as (θ & Hθ & _ & Happ).
    destruct (map_substitute_total σ xs (proj2 Hwf)) as (nx & rx & Hx).
    destruct (map_substitute_total σ ys (proj2 Hwf)) as (ny & ry & Hy).
    apply Hsol in Hθ. red in Hθ.
    rewrite (Happ _ _ _ Hx), (Happ _ _ _ Hy) in Hθ. subst ry.
    exists (nx `max` ny), rx.
    split; (eapply map_outcome_mono; [| eassumption]);
      apply Forall_forall; intros a _ c; apply substitute_mono; lia.
Qed.

(** C4: on a substitution returned by a successful unification that started
    from a well-formed substitution (the empty one in particular),
    [substitute] terminates on every term: from some recursion budget on it
    returns a term. *)
Theorem substitute_terminates :
  (∀ n x y s σ,
     well_formed s → unify n x y (Some s) = Done (Some σ) →
     ∀ t, ∃ m r, ∀ m', m ≤ m' → substitute m' t σ = Done r) ∧
  (∀ n xs ys s σ,
     well_formed s → unify_args n xs ys (Some s) = Done (Some σ) →
     ∀ t, ∃ m r, ∀ m', m ≤ m' → substitute m' t σ = Done r).
Proof.
  assert (Hgo : ∀ σ, well_formed σ →
    ∀ t, ∃ m r, ∀ m', m ≤ m' → substitute m' t σ = Done r).
  { intros σ Hwf t. destruct (substitute_total σ t (proj2 Hwf)) as (m & r & Hr).
    exists m, r. intros m' Hle. by eapply substitute_mono. }
  split.
  - intros n x y s σ Hwf H. apply unify_sound in H as (_ & _ & Hwf' & _). auto.
  - intros n xs ys s σ Hwf H.
    apply unify_args_sound in H as [[_ (_ & _ & Hwf' & _)] | [_ [=]]]. auto.
Qed.

Lemma unify_makes_identical_witness :
  (∃ m r,
     substitute m (Function "f" [Term "x"; Term "A"])
       (<["y" := Term "A"]> (<["x" := Term "y"]> ∅)) = Done r ∧
     substitute m (Function "f" [Term "y"; Term "x"])
       (<["y" := Term "A"]> (<["x" := Term "y"]> ∅)) = Done r) ∧
  (length [Term "x"; Function "g" [Term "x"]] = length [Term "B"; Term "z"] ∧
   ∃ m rs,
     map_outcome (λ a, substitute m a
       (<["z" := Function "g" [Term "x"]]> (<["x" := Term "B"]> ∅)))
       [Term "x"; Function "g" [Term "x"]] = Done rs ∧
     map_outcome (λ a, substitute m a
       (<["z" := Function "g" [Term "x"]]> (<["x" := Term "B"]> ∅)))
       [Term "B"; Term "z"] = Done rs).
Proof.
  split.
  - apply (proj1 unify_makes_identical 5). vm_compute. reflexivity.
  - apply (proj2 unify_makes_identical 5). vm_compute. reflexivity.
Defined.

Lemma substitute_terminates_witness :
  (∃ m r, ∀ m', m ≤ m' →
     substitute m' (Function "h" [Term "y"; Term "w"])
       (<["y" := Term "A"]> (<["x" := Term "y"]> ∅)) = Done r) ∧
  (∃ m r, ∀ m', m ≤ m' →
     substitute m' (Term "z")
       (<["z" := Function "g" [Term "x"]]> (<["x" := Term "B"]> ∅)) = Done r).
Proof.
  split.
  - apply (proj1 substitute_terminates 5
             (Function "f" [Term "x"; Term "A"]) (Function "f" [Term "y"; Term "x"]) ∅).
    + apply well_formed_empty.
    + vm_compute. reflexivity.
  - apply (proj2 substitute_terminates 5
             [Term "x"; Function "g" [Term "x"]] [Term "B"; Term "z"] ∅).
    + apply well_formed_empty.
    + vm_compute. reflexivity.
Defined.

Lemma occurs_below (s : subst) (vn : string) (x : term) :
  occurs s vn x → ∃ v, v ∈ tnames x ∧ rtc (below s) vn v.
Proof.
  induction 1 as [| nm t Ht _ (v & Hv & Hrtc) | f args a Ha _ (v & Hv & Hrtc)].
  - exists vn. split; [simpl; set_solver | done].
  - exists nm. split; [simpl; set_solver |].
    eapply rtc_r; [done |]. by exists t.
  - exists v. split; [| done]. apply tnames_Function. eauto.
Qed.

Lemma occurs_check_complete (s : subst) (vn : string) (x : term) :
  well_formed s → occurs s vn x →
  ∃ N, occurs_check N (Term vn) x s = Done true.
Proof.
  intros Hwf Hocc.
  destruct (substitute_total s x (proj2 Hwf)) as (N & r & Hr).
  destruct (occurs_check_total _ (Term vn) _ _ _ Hr) as [[] Hb]; [by eauto |].
  apply occurs_below in Hocc as (v & Hv & Hrtc).
  by destruct (occurs_check_false_below _ _ _ _ Hb v Hv).
Qed.

(** C5: [unify(Variable("x"), Function("f", [Variable("x")]), {})] returns
    the failure value [None]; and whenever [unify] is about to bind an
    unbound variable to a term that contains it, directly or through the
    bindings of a well-formed substitution, it returns [None]. *)
Theorem occurs_check_rejects :
  unify 3 (Term "x") (Function "f" [Term "x"]) (Some ∅) = Done None ∧
  (∀ s vn x,
     well_formed s → name_is_variable vn = true →
     s !! vn = None → subst_get x s = None → Term vn ≠ x →
     occurs s vn x →
     ∃ N, ∀ n, N ≤ n → unify n (Term vn) x (Some s) = Done None).
Proof.
  split; [by vm_compute |].
  intros s vn x Hwf Hvar Hvn Hx Hne Hocc.
  destruct (occurs_check_complete s vn x Hwf Hocc) as [N HN].
  exists (S N). intros n Hle. apply (unify_mono (S N)); [done |].
  cbn [unify]. apply term_eqb_neq in Hne. rewrite Hne. simpl. rewrite Hvar.
  unfold unify_var. by rewrite Hvn, Hx, HN.
Qed.

Lemma occurs_check_rejects_witness :
  ∃ N, ∀ n, N ≤ n →
    unify n (Term "x") (Function "f" [Term "y"])
      (Some (<["y" := Function "g" [Term "x"]]> ∅)) = Done None.
Proof.
  apply (proj2 occurs_check_rejects).
  - apply (unify_sound 5 (Term "y") (Function "g" [Term "x"]) ∅
             (Some (<["y" := Function "g" [Term "x"]]> ∅))); [by vm_compute |].
    apply well_formed_empty.
  - reflexivity.
  - reflexivity.
  - reflexivity.
  - discriminate.
  - apply occurs_arg with (a := Term "y"); [by left |].
    eapply occurs_bound; [reflexivity |].
    apply occurs_arg with (a := Term "x"); [by left | apply occurs_here].
Defined.

(** C7: from the empty substitution, [unify(x, y, {})] and [unify(y, x, {})]
    both terminate and one succeeds exactly when the other does; when both
    succeed, every unifier of [x] and [y] is an instance of either result,
    and the two results denote the same unifier: the full chase of each is
    an instance of the full chase of the other.  The same holds for two
    argument lists. *)
Theorem unify_symmetric :
  (∀ x y,
     (∃ N r1 r2, unify N x y (Some ∅) = Done r1 ∧ unify N y x (Some ∅) = Done r2 ∧
                 (is_Some r1 ↔ is_Some r2)) ∧
     (∀ n1 n2 σ1 σ2,
        unify n1 x y (Some ∅) = Done (Some σ1) →
        unify n2 y x (Some ∅) = Done (Some σ2) →
        (∀ θ, unifies θ x y → more_general σ1 θ ∧ more_general σ2 θ) ∧
        same_unifier σ1 σ2)) ∧
  (∀ xs ys,
     (∃ N r1 r2, unify_args N xs ys (Some ∅) = Done r1 ∧
                 unify_args N ys xs (Some ∅) = Done r2 ∧
                 (is_Some r1 ↔ is_Some r2)) ∧
     (∀ n1 n2 σ1 σ2,
        unify_args n1 xs ys (Some ∅) = Done (Some σ1) →
        unify_args n2 ys xs (Some ∅) = Done (Some σ2) →
        (∀ θ, unifies_args θ xs ys → more_general σ1 θ ∧ more_general σ2 θ) ∧
        same_unifier σ1 σ2)).
Proof.
  split.
  - intros x y. split.
    + destruct (unify_terminates x y ∅ well_formed_empty) as (N1 & r1 & H1).
      destruct (unify_terminates y x ∅ well_formed_empty) as (N2 & r2 & H2).
      exists (N1 `max` N2), r1, r2.
      split; [apply (unify_mono N1); (lia || done) |].
      split; [apply (unify_mono N2); (lia || done) |].
      rewrite (unify_success_iff _ _ _ _ H1), (unify_success_iff _ _ _ _ H2).
      unfold unifies. split; intros [θ Hθ]; by exists θ.
    + intros n1 n2 σ1 σ2 H1 H2.
      apply unify_empty_post in H1 as [Hwf1 Hsol1].
      apply unify_empty_post in H2 as [Hwf2 Hsol2]. split.
      * intros θ Hθ. split; apply solves_more_general; try done.
        -- by apply Hsol1.
        -- by apply Hsol2.
      * apply solves_same_unifier; [done | done |].
        intros θ. rewrite Hsol1, Hsol2. unfold unifies. split; by intros ->.
  - intros xs ys. split.
    + destruct (unify_args_terminates xs ys ∅ well_formed_empty) as (N1 & r1 & H1).
      destruct (unify_args_terminates ys xs ∅ well_formed_empty) as (N2 & r2 & H2).
      exists (N1 `max` N2), r1, r2.
      split; [apply (unify_args_mono N1); (lia || done) |].
      split; [apply (unify_args_mono N2); (lia || done) |].
      rewrite (unify_args_success_iff _ _ _ _ H1), (unify_args_success_iff _ _ _ _ H2).
      unfold unifies_args. split; intros [θ Hθ]; by exists θ.
    + intros n1 n2 σ1 σ2 H1 H2.
      apply unify_args_empty_post in H1 as (_ & Hwf1 & Hsol1).
      apply unify_args_empty_post in H2 as (_ & Hwf2 & Hsol2). split.
      * intros θ Hθ. split; apply solves_more_general; try done.
        -- by apply Hsol1.
        -- by apply Hsol2.
      * apply solves_same_unifier; [done | done |].
        intros θ. rewrite Hsol1, Hsol2. unfold unifies_args. split; by intros ->.
Qed.

Lemma unify_symmetric_witness :
  same_unifier (<["x" := Term "y"]> ∅) (<["y" := Term "x"]> ∅).
Proof.
  apply (proj2 (proj1 unify_symmetric (Term "x") (Term "y")) 5 5).
  - vm_compute. reflexivity.
  - vm_compute. reflexivity.
Defined.

(** ** Terms that are not variables *)

Lemma starts_lower_variable (nm : string) :
  starts_lower nm = false → name_is_variable nm = false.
Proof. destruct nm as [| c r]; simpl; [done |]. by intros ->. Qed.

Lemma unify_constant (n : nat) (nm : string) (y : term) (s σ : subst) :
  name_is_variable nm = false → is_variable y = false →
  unify n (Term nm) y (Some s) = Done (Some σ) ∨
  unify n y (Term nm) (Some s) = Done (Some σ) →
  y = Term nm ∧ σ = s.
Proof.
  intros Hnm Hy. destruct n as [| n]; [by intros [|] |]. cbn [unify].
  intros [H | H]; revert H.
  - destruct (term_eqb (Term nm) y) eqn:E.
    { apply term_eqb_spec in E as <-. by intros [= <-]. }
    simpl. rewrite Hnm, Hy. by destruct y.
  - destruct (term_eqb y (Term nm)) eqn:E.
    { apply term_eqb_spec in E as ->. by intros [= <-]. }
    simpl. rewrite Hnm, Hy. by destruct y.
Qed.

(** Bindings are created for variables only. *)
Lemma unify_zip_keeps (u : term → term → option subst → outcome (option subst))
    (k : string) (xs ys : list term) (s σ : subst) :
  (∀ x y s σ, u x y (Some s) = Done (Some σ) → σ !! k = s !! k) →
  unify_zip u xs ys s = Done (Some σ) → σ !! k = s !! k.
Proof.
  intros Hu. revert ys s. induction xs as [| x xs IH]; intros [| y ys] s; simpl;
    try by intros [= <-].
  rewrite obind_done. intros ([s1 |] & Hr1 & Hr); [| done].
  rewrite (IH _ _ Hr). by eapply Hu.
Qed.

Lemma unify_keeps (n : nat) (k : string) (x y : term) (s σ : subst) :
  name_is_variable k = false →
  unify n x y (Some s) = Done (Some σ) → σ !! k = s !! k.
Proof.
  intros Hk. revert x y s σ. induction n as [| n IH]; intros x y s σ; [done |].
  cbn [unify].
  destruct (term_eqb x y); [by intros [= <-] |].
  assert (Hvar : ∀ vn z, name_is_variable vn = true →
    unify_var (unify n) n vn z s = Done (Some σ) → σ !! k = s !! k).
  { intros vn z Hvn. unfold unify_var.
    destruct (s !! vn); [apply IH |].
    destruct (subst_get z s); [apply IH |].
    rewrite obind_done. intros ([] & _ & [= <-]).
    apply lookup_insert_ne. intros ->. congruence. }
  destruct (is_variable x) eqn:Hx; [destruct x; [by apply Hvar | done] |].
  destruct (is_variable y) eqn:Hy; [destruct y; [by apply Hvar | done] |].
  destruct x as [| f xs]; [done |]. destruct y as [| g ys]; [done |].
  destruct (negb (f =? g)%string || negb (length xs =? length ys)); [done |].
  unfold unify_lists. destruct (negb (length xs =? length ys)); [done |].
  apply unify_zip_keeps. intros x' y' s' σ'. apply IH.
Qed.

Lemma unify_args_keeps (n : nat) (k : string) (xs ys : list term) (s σ : subst) :
  name_is_variable k = false →
  unify_args n xs ys (Some s) = Done (Some σ) → σ !! k = s !! k.
Proof.
  intros Hk. destruct n as [| n]; [done |]. simpl.
  destruct (args_eqb xs ys); [by intros [= <-] |].
  unfold unify_lists. destruct (negb (length xs =? length ys)); [done |].
  apply unify_zip_keeps. intros x y s' σ'. by apply unify_keeps.
Qed.

(** C10, as stated, fails: the term [A] does not begin with a lowercase
    letter, yet it unifies with the different term [x], a variable. *)
Lemma constant_unifies_with_variable :
  ¬ (starts_lower "A" = false →
     ∀ σ, unify 2 (Term "A") (Term "x") (Some ∅) = Done (Some σ) →
          Term "A" = Term "x").
Proof.
  intros H. specialize (H eq_refl (<["x" := Term "A"]> ∅)).
  discriminate H. vm_compute. reflexivity.
Qed.

(** C10, amended: a [Term] whose name does not begin with a lowercase
    letter is not a variable; no unification creates or changes a binding
    for it; and it unifies with a term that is not a variable only when the
    two are structurally equal, the substitution being returned as it
    was. *)
Theorem non_variable_is_constant (nm : string) :
  starts_lower nm = false →
  is_variable (Term nm) = false ∧
  (∀ n x y s σ, unify n x y (Some s) = Done (Some σ) → σ !! nm = s !! nm) ∧
  (∀ n xs ys s σ, unify_args n xs ys (Some s) = Done (Some σ) → σ !! nm = s !! nm) ∧
  (∀ n y s σ,
     is_variable y = false →
     unify n (Term nm) y (Some s) = Done (Some σ) ∨
     unify n y (Term nm) (Some s) = Done (Some σ) →
     term_eqb (Term nm) y = true ∧ σ = s).
Proof.
  intros Hnm%starts_lower_variable.
  split; [done |]. split; [| split].
  - intros n x y s σ. by apply unify_keeps.
  - intros n xs ys s σ. by apply unify_args_keeps.
  - intros n y s σ Hy H. destruct (unify_constant n nm y s σ Hnm Hy H) as [-> ->].
    split; [apply term_eqb_refl | done].
Qed.

Lemma non_variable_is_constant_witness :
  is_variable (Term "_A1") = false ∧
  (∀ n x y s σ, unify n x y (Some s) = Done (Some σ) → σ !! "_A1" = s !! "_A1") ∧
  (∀ n xs ys s σ,
     unify_args n xs ys (Some s) = Done (Some σ) → σ !! "_A1" = s !! "_A1") ∧
  (∀ n y s σ,
     is_variable y = false →
     unify n (Term "_A1") y (Some s) = Done (Some σ) ∨
     unify n y (Term "_A1") (Some s) = Done (Some σ) →
     term_eqb (Term "_A1") y = true ∧ σ = s).
Proof. apply (non_variable_is_constant "_A1"). reflexivity. Defined.

(** ** Unification over dictionary objects refines unification on values *)

Lemma dict_at_lookup (h : list subst) (l : nat) (s : subst) :
  h !! l = Some s → dict_at h l = s.
Proof. unfold dict_at. by intros ->. Qed.

Lemma dict_copy_setitem (h : list subst) (l : nat) (s : subst) (vn : string) (x : term) :
  h !! l = Some s →
  dict_setitem (length h) vn x (h ++ [dict_at h l]) = h ++ [<[vn := x]> s].
Proof.
  intros Hl. unfold dict_setitem. rewrite (dict_at_lookup _ _ _ Hl).
  assert (dict_at (h ++ [s]) (length h) = s) as ->.
  { apply dict_at_lookup. by apply list_lookup_middle. }
  replace (length h) with (length h + 0) at 1 by lia. by rewrite insert_app_r.
Qed.

Lemma ref_sim_trans (l l1 : nat) (h k : list subst)
    (m : outcome (option subst)) (m' : outcome (option nat * list subst)) :
  l1 = l ∨ length h ≤ l1 →
  ref_sim l1 (h ++ k) m m' → ref_sim l h m m'.
Proof.
  intros Hl1. unfold ref_sim. destruct m as [| r], m' as [| [r' h']]; try done.
  intros [[k' ->] Hr]. split; [exists (k ++ k'); by rewrite app_assoc |].
  destruct r as [σ |], r' as [l' |]; try done.
  destruct Hr as [Hσ Hl']. split; [done |].
  rewrite length_app in Hl'. lia.
Qed.

Lemma unify_zip_ref_sim
    (u : term → term → option subst → outcome (option subst))
    (u' : term → term → option nat → list subst → outcome (option nat * list subst))
    (xs ys : list term) :
  (∀ x y l h s, h !! l = Some s → ref_sim l h (u x y (Some s)) (u' x y (Some l) h)) →
  ∀ l h s, h !! l = Some s →
    ref_sim l h (unify_zip u xs ys s) (unify_zip_ref u' xs ys l h).
Proof.
  intros Hu. revert ys. induction xs as [| x xs IH]; intros [| y ys] l h s Hl;
    try (simpl; split; [exists []; by rewrite app_nil_r | by auto]).
  simpl. specialize (Hu x y l h s Hl). unfold ref_sim in Hu.
  destruct (u x y (Some s)) as [| r1], (u' x y (Some l) h) as [| [r1' h1]];
    simpl; try done.
  destruct Hu as [[k ->] Hr1].
  destruct r1 as [s1 |], r1' as [l1 |]; try done.
  - destruct Hr1 as [Hs1 Hl1]. eapply ref_sim_trans; [exact Hl1 |]. by apply IH.
  - split; [by exists k | done].
Qed.

Lemma unify_ref_sim (n : nat) (x y : term) (l : nat) (h : list subst) (s : subst) :
  h !! l = Some s →
  ref_sim l h (unify n x y (Some s)) (unify_ref n x y (Some l) h).
Proof.
  revert x y l h s. induction n as [| n IH]; intros x y l h s Hl; [done |].
  assert (Hrefl : ∀ r : option subst,
    ref_sim l h (Done r) (Done (match r with Some _ => Some l | None => None end, h))
    ↔ (match r with Some σ => h !! l = Some σ | None => True end)).
  { intros r. unfold ref_sim. split.
    - intros [_ Hr]. destruct r; [apply Hr | done].
    - intros Hr. split; [exists []; by rewrite app_nil_r |]. destruct r; auto. }
  assert (Hnone : ref_sim l h (Done None) (Done (None, h))) by by apply (Hrefl None).
  assert (Hvar : ∀ vn z,
    ref_sim l h (unify_var (unify n) n vn z s) (unify_var_ref (unify_ref n) n vn z l h)).
  { intros vn z. unfold unify_var, unify_var_ref. rewrite (dict_at_lookup _ _ _ Hl).
    destruct (s !! vn); [by apply IH |].
    destruct (subst_get z s); [by apply IH |].
    destruct (occurs_check n (Term vn) z s) as [| []]; simpl; [done | done |].
    unfold dict_copy. rewrite (dict_copy_setitem _ _ _ _ _ Hl).
    split; [by eexists |]. split; [by apply list_lookup_middle | by right]. }
  cbn [unify unify_ref].
  destruct (term_eqb x y); [by apply (Hrefl (Some s)) |].
  destruct (is_variable x); [destruct x; [apply Hvar | done] |].
  destruct (is_variable y); [destruct y; [apply Hvar | done] |].
  destruct x as [| f xs]; [done |]. destruct y as [| g ys]; [done |].
  destruct (negb (f =? g)%string || negb (length xs =? length ys)); [done |].
  unfold unify_lists, unify_lists_ref.
  destruct (negb (length xs =? length ys)); [done |].
  apply unify_zip_ref_sim; [| done]. intros x' y' l' h' s'. apply IH.
Qed.

Lemma unify_args_ref_sim (n : nat) (xs ys : list term) (l : nat) (h : list subst)
    (s : subst) :
  h !! l = Some s →
  ref_sim l h (unify_args n xs ys (Some s)) (unify_args_ref n xs ys (Some l) h).
Proof.
  intros Hl. destruct n as [| n]; [done |]. simpl.
  destruct (args_eqb xs ys).
  { split; [exists []; by rewrite app_nil_r | by auto]. }
  unfold unify_lists, unify_lists_ref.
  destruct (negb (length xs =? length ys)).
  { split; [exists []; by rewrite app_nil_r | done]. }
  apply unify_zip_ref_sim; [| done]. intros x' y' l' h' s'. apply unify_ref_sim.
Qed.

(** What [ref_sim] gives the caller of a returned run. *)
Lemma ref_sim_frame (l : nat) (h : list subst) (s : subst)
    (m : outcome (option subst)) (r' : option nat) (h' : list subst) :
  h !! l = Some s →
  (∀ σ, m = Done (Some σ) → s ⊆ σ) →
  ref_sim l h m (Done (r', h')) →
  (∀ a, a < length h → h' !! a = h !! a) ∧
  match r' with
  | None => m = Done None
  | Some l' =>
      ∃ σ, m = Done (Some σ) ∧ h' !! l' = Some σ ∧ s ⊆ σ ∧
           (l' = l ∨ length h ≤ l')
  end.
Proof.
  intros Hl Hsub. unfold ref_sim. destruct m as [| r]; [done |].
  intros [[k ->] Hr]. split.
  - intros a Ha. by apply lookup_app_l.
  - destruct r as [σ |], r' as [l' |]; try done.
    destruct Hr as [Hσ Hl']. exists σ. split; [done |]. split; [done |]. auto.
Qed.

(** C6: a call [unify(x, y, s)] on the dictionary object [s] changes no
    dictionary that existed before the call, the caller's included, whether
    it fails or succeeds; when it succeeds, the dictionary it returns
    extends the caller's and is the caller's own object or one allocated
    during the call.  The same holds for the call on two argument lists. *)
Theorem unify_leaves_subst_unchanged :
  (∀ n x y l h r' h',
     l < length h → unify_ref n x y (Some l) h = Done (r', h') →
     (∀ a, a < length h → h' !! a = h !! a) ∧
     match r' with
     | None => unify n x y (Some (dict_at h l)) = Done None
     | Some l' =>
         ∃ σ, unify n x y (Some (dict_at h l)) = Done (Some σ) ∧
              h' !! l' = Some σ ∧ dict_at h l ⊆ σ ∧ (l' = l ∨ length h ≤ l')
     end) ∧
  (∀ n xs ys l h r' h',
     l < length h → unify_args_ref n xs ys (Some l) h = Done (r', h') →
     (∀ a, a < length h → h' !! a = h !! a) ∧
     match r' with
     | None => unify_args n xs ys (Some (dict_at h l)) = Done None
     | Some l' =>
         ∃ σ, unify_args n xs ys (Some (dict_at h l)) = Done (Some σ) ∧
              h' !! l' = Some σ ∧ dict_at h l ⊆ σ ∧ (l' = l ∨ length h ≤ l')
     end).
Proof.
  split.
  - intros n x y l h r' h' Hlt Hrun.
    destruct (lookup_lt_is_Some_2 h l Hlt) as [s Hl].
    rewrite (dict_at_lookup _ _ _ Hl).
    apply (ref_sim_frame l h s); [done | |].
    + intros σ Hσ. by apply unify_sound in Hσ as (? & _).
    + rewrite <- Hrun. by apply unify_ref_sim.
  - intros n xs ys l h r' h' Hlt Hrun.
    destruct (lookup_lt_is_Some_2 h l Hlt) as [s Hl].
    rewrite (dict_at_lookup _ _ _ Hl).
    apply (ref_sim_frame l h s); [done | |].
    + intros σ Hσ. by apply unify_args_sound in Hσ as [[_ (? & _)] | [_ [=]]].
    + rewrite <- Hrun. by apply unify_args_ref_sim.
Qed.

Lemma unify_leaves_subst_unchanged_witness :
  (∀ a, a < length [(∅ : subst)] →
     [∅; <["x" := Term "A"]> ∅] !! a = [(∅ : subst)] !! a) ∧
  ∃ σ, unify 3 (Function "f" [Term "x"]) (Function "f" [Term "A"])
         (Some (dict_at [∅] 0)) = Done (Some σ) ∧
       [∅; <["x" := Term "A"]> ∅] !! 1 = Some σ ∧ dict_at [∅] 0 ⊆ σ ∧
       (1 = 0 ∨ length [(∅ : subst)] ≤ 1).
Proof.
  apply (proj1 unify_leaves_subst_unchanged 3
           (Function "f" [Term "x"]) (Function "f" [Term "A"]) 0 [∅]
           (Some 1) [∅; <["x" := Term "A"]> ∅]).
  - simpl. lia.
  - vm_compute. reflexivity.
Defined.

(** ** The resolution rule returns, and a larger budget returns the same *)

Lemma concat_outcome_mono {A B} (f g : A → outcome (list B)) (l : list A) (r : list B) :
  Forall (λ a, ∀ c, f a = Done c → g a = Done c) l →
  concat_outcome f l = Done r → concat_outcome g l = Done r.
Proof.
  intros H. revert r. induction H as [| a l Ha _ IH]; simpl; [done |].
  intros r. rewrite !obind_done. intros (c & Hc & Hr). exists c. split; [by apply Ha |].
  revert Hr. rewrite !obind_done. intros (cs & Hcs & Hr). exists cs. split; [by apply IH | done].
Qed.

Lemma concat_outcome_total {A B} (f : nat → A → outcome (list B)) (l : list A) :
  (∀ n m a b, n ≤ m → f n a = Done b → f m a = Done b) →
  Forall (λ a, ∃ n b, f n a = Done b) l →
  ∃ n bs, concat_outcome (f n) l = Done bs.
Proof.
  intros Hmono. induction 1 as [| a l (n1 & b & Hb) _ (n2 & bs & Hbs)].
  - by exists 0, [].
  - exists (n1 `max` n2), (b ++ bs). simpl.
    rewrite (Hmono n1 _ a b) by (lia || done). simpl.
    erewrite concat_outcome_mono; [done | | exact Hbs].
    apply Forall_forall. intros a' _ c. apply Hmono. lia.
Qed.

Lemma substitute_predicate_mono (n m : nat) (p : Predicate) (s : subst) (q : Predicate) :
  n ≤ m → substitute_predicate n p s = Done q → substitute_predicate m p s = Done q.
Proof.
  intros Hle. unfold substitute_predicate. rewrite !obind_done.
  intros (args & Ha & Hq). exists args. split; [| done].
  revert Ha. apply map_outcome_mono, Forall_forall. intros a _ c.
  by apply substitute_mono.
Qed.

Lemma substitute_predicate_total (p : Predicate) (s : subst) :
  acyclic s → ∃ n q, substitute_predicate n p s = Done q.
Proof.
  intros Hacc. destruct (map_substitute_total s (pargs p) Hacc) as (n & args & Ha).
  exists n, (mkPredicate (pname p) args (negated p)).
  unfold substitute_predicate. by rewrite Ha.
Qed.

Section resolve_returns.
Variable list_set : list Predicate → list Predicate.

Lemma resolve_literals_mono (n m : nat) (ci cj : Clause) (pi pj : Predicate)
    (rs : list Clause) :
  n ≤ m → resolve_literals list_set n ci cj pi pj = Done rs →
  resolve_literals list_set m ci cj pi pj = Done rs.
Proof.
  intros Hle. unfold resolve_literals.
  destruct ((pname pi =? pname pj)%string && negb (Bool.eqb (negated pi) (negated pj)));
    [| done].
  rewrite !obind_done. intros (r & Hr & Hrs). exists r.
  split; [by eapply unify_args_mono |].
  destruct r as [s |]; [| done]. revert Hrs. rewrite !obind_done.
  intros (a & Ha & Hrs). exists a. split.
  { revert Ha. apply map_outcome_mono, Forall_forall. intros p _ c.
    by apply substitute_predicate_mono. }
  revert Hrs. rewrite !obind_done.
  intros (b & Hb & Hrs). exists b. split; [| done].
  revert Hb. apply map_outcome_mono, Forall_forall. intros p _ c.
  by apply substitute_predicate_mono.
Qed.

Lemma resolve_literals_total (ci cj : Clause) (pi pj : Predicate) :
  ∃ n rs, resolve_literals list_set n ci cj pi pj = Done rs.
Proof.
  unfold resolve_literals.
  destruct ((pname pi =? pname pj)%string && negb (Bool.eqb (negated pi) (negated pj)));
    [| by exists 0, []].
  destruct (unify_args_terminates (pargs pi) (pargs pj) ∅ well_formed_empty)
    as (N & r & Hr).
  destruct r as [s |].
  2:{ exists N, []. by rewrite Hr. }
  pose proof (unify_args_empty_post _ _ _ _ Hr) as (_ & [_ Hacc] & _).
  destruct (map_outcome_total (λ n p, substitute_predicate n p s)
              (List.filter (λ p, negb (pred_eqb p pi)) (literals ci)))
    as (na & a & Ha).
  { intros n m p q. apply substitute_predicate_mono. }
  { apply Forall_forall. intros p _. by apply substitute_predicate_total. }
  destruct (map_outcome_total (λ n p, substitute_predicate n p s)
              (List.filter (λ p, negb (pred_eqb p pj)) (literals cj)))
    as (nb & b & Hb).
  { intros n m p q. apply substitute_predicate_mono. }
  { apply Forall_forall. intros p _. by apply substitute_predicate_total. }
  exists (N `max` (na `max` nb)), [mkClause (list_set (a ++ b))].
  rewrite (unify_args_mono N _ _ _ _ (Some s)) by (lia || done). simpl.
  erewrite map_outcome_mono; [| | exact Ha].
  2:{ apply Forall_forall. intros p _ c. apply substitute_predicate_mono. lia. }
  simpl. erewrite map_outcome_mono; [| | exact Hb].
  2:{ apply Forall_forall. intros p _ c. apply substitute_predicate_mono. lia. }
  done.
Qed.

Lemma resolve_mono (n m : nat) (ci cj : Clause) (rs : list Clause) :
  n ≤ m → resolve list_set n ci cj = Done rs → resolve list_set m ci cj = Done rs.
Proof.
  intros Hle. unfold resolve. apply concat_outcome_mono, Forall_forall.
  intros pi _ c. apply concat_outcome_mono, Forall_forall.
  intros pj _ c'. by apply resolve_literals_mono.
Qed.

Lemma resolve_total (ci cj : Clause) :
  ∃ n rs, resolve list_set n ci cj = Done rs.
Proof.
  unfold resolve.
  apply (concat_outcome_total
    (λ n pi, concat_outcome (λ pj, resolve_literals list_set n ci cj pi pj) (literals cj))).
  - intros n m pi rs Hle. apply concat_outcome_mono, Forall_forall.
    intros pj _ c. by apply resolve_literals_mono.
  - apply Forall_forall. intros pi _.
    apply (concat_outcome_total (λ n pj, resolve_literals list_set n ci cj pi pj)).
    + intros n m pj rs. apply resolve_literals_mono.
    + apply Forall_forall. intros pj _. apply resolve_literals_total.
Qed.

End resolve_returns.

(** ** The saturation loop *)

Lemma scan_resolvents_refuted (rs : list Clause) (new derived : list Clause)
    (res : Clause) :
  res ∈ rs → literals res = [] → ∃ d, scan_resolvents rs new derived = Refuted d.
Proof.
  intros Hin Hres. revert new derived.
  induction Hin as [res rs | res c rs _ IH]; intros new derived; simpl.
  - rewrite Hres. by eauto.
  - destruct (literals c); [by eauto |]. destruct (clause_in c derived); by apply IH.
Qed.

Lemma list_at_extend (h : list (list Clause)) (lc : nat) (items : list Clause) :
  lc < length h → list_at (list_extend lc items h) lc = list_at h lc ++ items.
Proof.
  intros Hlt. unfold list_extend. unfold list_at at 1.
  by rewrite list_lookup_insert_eq.
Qed.

Section saturation.
Variable list_set : list Predicate → list Predicate.
Variable iter_set : list Clause → list Clause.

Lemma scan_pairs_short_circuit (fuel : nat) (ps1 ps2 : list (Clause * Clause))
    (new derived d : list Clause) :
  scan_pairs list_set fuel ps1 new derived = Done (Refuted d) →
  scan_pairs list_set fuel (ps1 ++ ps2) new derived = Done (Refuted d).
Proof.
  revert new derived. induction ps1 as [| [ci cj] ps1 IH]; intros new derived; simpl;
    [done |].
  rewrite !obind_done. intros (rs & Hrs & Hr). exists rs. split; [done |].
  destruct (scan_resolvents rs new derived); [done | by apply IH].
Qed.

Lemma scan_pairs_refuted (ps : list (Clause * Clause)) (new derived : list Clause)
    (ci cj : Clause) (n : nat) (rs : list Clause) (res : Clause) :
  (ci, cj) ∈ ps → resolve list_set n ci cj = Done rs →
  res ∈ rs → literals res = [] →
  ∃ N, ∀ fuel, N ≤ fuel →
    ∃ d, scan_pairs list_set fuel ps new derived = Done (Refuted d).
Proof.
  intros Hin Hrs Hres Hlit. revert new derived.
  induction ps as [| [ci0 cj0] ps IH]; intros new derived.
  { by apply elem_of_nil in Hin. }
  destruct (resolve_total list_set ci0 cj0) as (N1 & rs1 & Hrs1).
  destruct (scan_resolvents rs1 new derived) as [d | new' derived'] eqn:Hscan.
  - exists N1. intros fuel Hle. exists d. simpl.
    rewrite (resolve_mono _ N1 fuel _ _ rs1) by done. simpl. by rewrite Hscan.
  - apply elem_of_cons in Hin as [[= <- <-] | Hin].
    + exfalso. assert (rs1 = rs) as ->.
      { apply (resolve_mono _ _ (N1 `max` n)) in Hrs1; [| lia].
        apply (resolve_mono _ _ (N1 `max` n)) in Hrs; [| lia]. congruence. }
      destruct (scan_resolvents_refuted rs new derived res Hres Hlit) as [d Hd].
      congruence.
    + destruct (IH Hin new' derived') as [N2 HN2].
      exists (N1 `max` N2). intros fuel Hle. simpl.
      rewrite (resolve_mono _ N1 fuel _ _ rs1) by (lia || done). simpl.
      rewrite Hscan. apply HN2. lia.
Qed.


Lemma saturate_frame (rounds fuel : nat) (lc : nat) (new derived : list Clause)
    (h : list (list Clause)) (f : final) :
  saturate list_set iter_set rounds fuel lc new derived h = Done f →
  ∀ a, a ≠ lc → final_heap f !! a = h !! a.
Proof.
  revert new derived h. induction rounds as [| k IH]; intros new derived h; [done |].
  simpl. rewrite obind_done. intros (r & _ & Hrun) a Ha.
  destruct r as [d | new' derived'].
  { by injection Hrun as <-. }
  destruct new' as [| c new'].
  { by injection Hrun as <-. }
  rewrite (IH _ _ _ Hrun a Ha). unfold list_extend.
  by rewrite list_lookup_insert_ne.
Qed.


Lemma resolution_run_frame (rounds fuel kb : nat) (h : list (list Clause)) (f : final) :
  resolution_run list_set iter_set rounds fuel kb h = Done f →
  ∀ a, a < length h → final_heap f !! a = h !! a.
Proof.
  unfold resolution_run. intros Hrun a Ha.
  rewrite (saturate_frame _ _ _ _ _ _ _ Hrun a) by lia.
  by apply lookup_app_l.
Qed.

(** C9: [resolution(kb)] changes no list that existed before the call;
    the caller's knowledge base holds the same clauses in the same order
    after the call as before. *)
Theorem resolution_leaves_kb_unchanged (rounds fuel kb : nat)
    (h : list (list Clause)) (f : final) :
  kb < length h →
  resolution_run list_set iter_set rounds fuel kb h = Done f →
  list_at (final_heap f) kb = list_at h kb ∧
  ∀ a, a < length h → final_heap f !! a = h !! a.
Proof.
  intros Hkb Hrun. split; [| by eapply resolution_run_frame].
  unfold list_at. by rewrite (resolution_run_frame _ _ _ _ _ Hrun kb Hkb).
Qed.

End saturation.

Lemma insertion_order_elem (l : list Predicate) (p : Predicate) :
  p ∈ insertion_order l → p ∈ l.
Proof.
  unfold insertion_order.
  assert (H : ∀ acc, p ∈ foldl (λ s q, if pred_in q s then s else s ++ [q]) acc l →
                     p ∈ acc ∨ p ∈ l).
  { induction l as [| q l IH]; intros acc; simpl; [by left |].
    intros [Hacc | Hl]%IH; [| right; by right].
    destruct (pred_in q acc); [by left |].
    apply elem_of_app in Hacc as [Hacc | ->%list_elem_of_singleton]; [by left |].
    right. by left. }
  intros [Hnil | Hl]%H; [by apply elem_of_nil in Hnil | done].
Qed.

Section refutation.
Variable list_set : list Predicate → list Predicate.
Variable iter_set : list Clause → list Clause.

(** [list(set(l))] lists members of [l] only. *)
Hypothesis list_set_elem : ∀ l p, p ∈ list_set l → p ∈ l.

Lemma list_set_nil : list_set [] = [].
Proof.
destruct (list_set []) as [| p l] eqn:E; [done |].
assert (p ∈ []) as Hp by (apply list_set_elem; rewrite E; by left).
by apply elem_of_nil in Hp.
Qed.

Lemma resolve_kb_refutable (fuel : nat) :
3 ≤ fuel →
resolve list_set fuel (mkClause [mkPredicate "P" [Term "x"] false])
  (mkClause [mkPredicate "P" [Term "A"] true]) = Done [mkClause []].
Proof.
intros Hle. apply (resolve_mono _ 3); [done |].
transitivity (Done [mkClause (list_set [])]); [by vm_compute |].
by rewrite list_set_nil.
Qed.

(** C2: when a pair of the round has an empty resolvent, the loop returns
  ["no"] in that round, with [derived] and the heap as they were when the
  empty clause was met; the pairs after the one that refutes are not
  examined; and on [{P(x)}, {!P(A)}] the two clauses resolve under
  [x ↦ A] to the empty clause and [resolution] returns ["no"]. *)
Theorem empty_clause_reports_no :
(∀ lc new derived h ci cj n rs res,
   (ci, cj) ∈ all_pairs (list_at h lc) →
   resolve list_set n ci cj = Done rs → res ∈ rs → literals res = [] →
   ∃ N, ∀ rounds fuel, N ≤ fuel →
     ∃ d, saturate list_set iter_set (S rounds) fuel lc new derived h
          = Done (mkFinal "no" d h)) ∧
(∀ fuel ps1 ps2 new derived d,
   scan_pairs list_set fuel ps1 new derived = Done (Refuted d) →
   scan_pairs list_set fuel (ps1 ++ ps2) new derived = Done (Refuted d)) ∧
(unify_args 3 [Term "x"] [Term "A"] (Some ∅) = Done (Some (<["x" := Term "A"]> ∅)) ∧
 resolve list_set 3 (mkClause [mkPredicate "P" [Term "x"] false])
   (mkClause [mkPredicate "P" [Term "A"] true]) = Done [mkClause []] ∧
 ∀ rounds fuel, 3 ≤ fuel →
   resolution list_set iter_set (S rounds) fuel 0 [kb_refutable] = Done "no").
Proof.
split; [| split; [| split; [| split]]].
- intros lc new derived h ci cj n rs res Hin Hrs Hres Hlit.
  destruct (scan_pairs_refuted list_set _ new derived _ _ _ _ _ Hin Hrs Hres Hlit)
    as [N HN].
  exists N. intros rounds fuel Hle. destruct (HN fuel Hle) as [d Hd].
  exists d. simpl. by rewrite Hd.
- intros fuel ps1 ps2 new derived d. apply scan_pairs_short_circuit.
- vm_compute. reflexivity.
- by apply resolve_kb_refutable.
- intros rounds fuel Hle. unfold resolution, resolution_run.
  cbn [saturate].
  assert (Hps : all_pairs (list_at ([kb_refutable] ++ [list_at [kb_refutable] 0])
                                   (length [kb_refutable]))
                = [(mkClause [mkPredicate "P" [Term "x"] false],
                    mkClause [mkPredicate "P" [Term "A"] true])]) by reflexivity.
  rewrite Hps. cbn [scan_pairs]. by rewrite (resolve_kb_refutable fuel Hle).
Qed.

(** C3: on [{P(A)}, {Q(B)}] the only pair of clauses has no resolvent, the
  first round adds nothing to [new] or [derived], and [resolution]
  returns ["yes"] within a single round. *)
Theorem saturation_reports_yes (fuel : nat) :
resolve list_set fuel (mkClause [mkPredicate "P" [Term "A"] false])
  (mkClause [mkPredicate "Q" [Term "B"] false]) = Done [] ∧
scan_pairs list_set fuel (all_pairs kb_saturated) [] (clause_set kb_saturated)
  = Done (Scanned [] kb_saturated) ∧
resolution_run list_set iter_set 1 fuel 0 [kb_saturated]
  = Done (mkFinal "yes" kb_saturated [kb_saturated; kb_saturated]) ∧
∀ rounds, resolution list_set iter_set (S rounds) fuel 0 [kb_saturated] = Done "yes".
Proof. repeat split. Qed.
End refutation.

Lemma empty_clause_reports_no_witness :
  ∃ N, ∀ rounds fuel, N ≤ fuel →
    ∃ d, saturate insertion_order id (S rounds) fuel 0 [] (clause_set kb_refutable)
           [kb_refutable] = Done (mkFinal "no" d [kb_refutable]).
Proof.
  apply (proj1 (empty_clause_reports_no insertion_order id insertion_order_elem)
           0 [] (clause_set kb_refutable) [kb_refutable]
           (mkClause [mkPredicate "P" [Term "x"] false])
           (mkClause [mkPredicate "P" [Term "A"] true])
           3 [mkClause []] (mkClause [])).
  - by left.
  - vm_compute. reflexivity.
  - by left.
  - reflexivity.
Defined.

Lemma resolution_leaves_kb_unchanged_witness :
  list_at [kb_refutable; kb_refutable] 0 = list_at [kb_refutable] 0 ∧
  ∀ a, a < length [kb_refutable] →
    [kb_refutable; kb_refutable] !! a = [kb_refutable] !! a.
Proof.
  apply (resolution_leaves_kb_unchanged insertion_order id 1 3 0 [kb_refutable]
           (mkFinal "no" kb_refutable [kb_refutable; kb_refutable])).
  - simpl. lia.
  - vm_compute. reflexivity.
Defined.


(** * Further properties of the code *)

(** ** The occurs-check *)

Lemma occurs_check_true_occurs (n : nat) (vn : string) (x : term) (s : subst) :
  occurs_check n (Term vn) x s = Done true → occurs s vn x.
Proof.
  revert x. induction n as [| n IH]; intros x; [done |]. cbn [occurs_check].
  destruct (term_eqb (Term vn) x) eqn:E.
  { apply term_eqb_spec in E as <-. intros _. apply occurs_here. }
  destruct x as [nm | f args].
  - destruct (s !! nm) as [t |] eqn:Ht; [| done].
    intros Ho. eapply occurs_bound; [done |]. by apply IH.
  - intros Ho. apply any_outcome_true, Exists_exists in Ho as (a & Ha & Ho).
    eapply occurs_arg; [done |]. by apply IH.
Qed.

(** X1: on a well-formed substitution [occurs_check(var, x, subst)] returns,
    and it returns [True] exactly when [var] occurs in [x] directly or
    through the bindings of [subst]. *)
Theorem occurs_check_decides (s : subst) (vn : string) (x : term) :
  well_formed s →
  ∃ N b, (∀ n, N ≤ n → occurs_check n (Term vn) x s = Done b) ∧
         (b = true ↔ occurs s vn x).
Proof.
  intros Hwf.
  destruct (substitute_total s x (proj2 Hwf)) as (N & r & Hr).
  destruct (occurs_check_total _ (Term vn) _ _ _ Hr) as [b Hb].
  exists N, b. split.
  - intros n Hle. by eapply occurs_check_mono.
  - split.
    + intros ->. by eapply occurs_check_true_occurs.
    + intros Hocc. destruct (occurs_check_complete s vn x Hwf Hocc) as [M HM].
      apply (occurs_check_mono _ (N `max` M)) in Hb; [| lia].
      apply (occurs_check_mono _ (N `max` M)) in HM; [| lia]. congruence.
Qed.

Lemma occurs_check_decides_witness :
  ∃ N b,
    (∀ n, N ≤ n →
       occurs_check n (Term "x") (Function "f" [Term "A"; Term "y"])
         (<["y" := Function "g" [Term "x"]]> ∅) = Done b) ∧
    (b = true ↔
     occurs (<["y" := Function "g" [Term "x"]]> ∅) "x" (Function "f" [Term "A"; Term "y"])).
Proof.
  apply occurs_check_decides.
  apply (unify_sound 5 (Term "y") (Function "g" [Term "x"]) ∅
           (Some (<["y" := Function "g" [Term "x"]]> ∅))); [by vm_compute |].
  apply well_formed_empty.
Defined.

(** ** The full chase *)

Lemma map_outcome_Forall2 {A B} (f : A → outcome B) (l : list A) (r : list B) :
  map_outcome f l = Done r ↔ Forall2 (λ a b, f a = Done b) l r.
Proof.
  revert r. induction l as [| a l IH]; intros r; simpl.
  - split; [intros [= <-]; constructor | by inversion 1].
  - rewrite obind_done. split.
    + intros (b & Hb & Hr). apply obind_done in Hr as (bs & Hbs & [= <-]).
      constructor; [done | by apply IH].
    + inversion 1 as [| ? b ? bs Hb Hbs]; subst. exists b. split; [done |].
      apply IH in Hbs. by rewrite Hbs.
Qed.

Lemma substitute_fixed (n : nat) (t : term) (s : subst) (r : term) :
  substitute n t s = Done r → substitute n r s = Done r.
Proof.
  revert t r. induction n as [| n IH]; intros t r Hr; [done |].
  cbn [substitute] in Hr.
  destruct (subst_get t s) as [t' |] eqn:Ht.
  { apply (substitute_mono n); [lia | by eapply IH]. }
  destruct t as [v | f args].
  - injection Hr as <-. cbn [substitute]. by rewrite Ht.
  - apply obind_done in Hr as (args' & Ha & [= <-]). simpl.
    apply map_outcome_Forall2 in Ha.
    assert (map_outcome (λ a, substitute n a s) args' = Done args') as ->; [| done].
    apply map_outcome_Forall2. clear Ht.
    induction Ha as [| a b l l' Hab _ IHl]; constructor; [by eapply IH | done].
Qed.

(** X2: the full chase is idempotent: applying [substitute] to a term it
    returned, with the same substitution, returns that term again. *)
Theorem substitute_idempotent (n : nat) (t : term) (s : subst) (r : term) :
  substitute n t s = Done r → ∀ m, n ≤ m → substitute m r s = Done r.
Proof.
  intros Hr m Hle. apply (substitute_mono n); [done |]. by eapply substitute_fixed.
Qed.

Lemma substitute_idempotent_witness :
  substitute 4 (Function "f" [Term "x"; Term "w"])
    (<["y" := Term "A"]> (<["x" := Term "y"]> ∅))
  = Done (Function "f" [Term "A"; Term "w"]) ∧
  substitute 5 (Function "f" [Term "A"; Term "w"])
    (<["y" := Term "A"]> (<["x" := Term "y"]> ∅))
  = Done (Function "f" [Term "A"; Term "w"]).
Proof.
  split; [vm_compute; reflexivity |].
  apply (substitute_idempotent 4 (Function "f" [Term "x"; Term "w"])); [| lia].
  vm_compute. reflexivity.
Defined.

Lemma sum_list_fmap_le {A} (f : A → nat) (l : list A) (a : A) :
  a ∈ l → f a ≤ sum_list (f <$> l).
Proof. intros Ha. apply sum_list_elem_le, list_elem_of_fmap. eauto. Qed.

(** X3: [substitute] returns a term unchanged when none of its names is
    bound; with the empty dictionary it is the identity. *)
Theorem substitute_unbound (t : term) (s : subst) :
  (∀ v, v ∈ tnames t → s !! v = None) →
  ∀ n, tsize t ≤ n → substitute n t s = Done t.
Proof.
  intros Hun n. revert t Hun. induction n as [| n IH]; intros t Hun Hle.
  { pose proof (tsize_pos t). lia. }
  destruct t as [v | f args]; simpl.
  - rewrite Hun; [done | simpl; set_solver].
  - assert (map_outcome (λ a, substitute n a s) args = Done args) as ->; [| done].
    apply map_outcome_Forall2, Forall2_same_length_lookup_2; [done |].
    intros i a b Ha Hb. rewrite Ha in Hb. injection Hb as <-.
    apply list_elem_of_lookup_2 in Ha.
    apply IH.
    + intros v Hv. apply Hun, tnames_Function. eauto.
    + pose proof (sum_list_fmap_le tsize args a Ha). simpl in Hle. lia.
Qed.

Lemma substitute_unbound_witness :
  substitute 4 (Function "f" [Term "x"; Function "g" [Term "A"]]) ∅
  = Done (Function "f" [Term "x"; Function "g" [Term "A"]]).
Proof.
  apply substitute_unbound; [| vm_compute; lia]. intros v _. apply lookup_empty.
Defined.

Lemma below_weaken (s s' : subst) (v n : string) :
  s ⊆ s' → below s v n → below s' v n.
Proof.
  intros Hsub (t & Ht & Hv). exists t. split; [| done]. by eapply lookup_weaken.
Qed.

Lemma acc_no_cycle {A} (R : relation A) (v : A) :
  Acc R v → ¬ ∃ w, R w v ∧ rtc R v w.
Proof.
  induction 1 as [v _ IH]. intros (w & Hwv & Hvw).
  apply (IH w Hwv).
  apply rtc_inv_r in Hvw as [-> | (u & Hvu & Huw)].
  - exists w. split; [done | done].
  - exists u. split; [done |]. by eapply rtc_l.
Qed.

Lemma substitute_to_Term (n : nat) (t : term) (s : subst) (v : string) :
  substitute n t s = Done (Term v) →
  ∃ w, t = Term w ∧ rtc (below s) v w.
Proof.
  revert t. induction n as [| n IH]; intros t; [done |]. simpl.
  destruct t as [w | f args]; simpl.
  - destruct (s !! w) as [t' |] eqn:Hw.
    + intros (w' & -> & Hrtc)%IH. exists w. split; [done |].
      eapply rtc_r; [done |]. exists (Term w'). split; [done | simpl; set_solver].
    + intros [= ->]. by exists v.
  - rewrite obind_done. by intros (? & _ & [=]).
Qed.

(** X6: unifying again under the dictionary a successful [unify] returned
    succeeds and returns that dictionary with nothing added. *)
Theorem unify_again_adds_nothing (n : nat) (x y : term) (s σ : subst) :
  well_formed s → unify n x y (Some s) = Done (Some σ) →
  ∃ N, ∀ m, N ≤ m → unify m x y (Some σ) = Done (Some σ).
Proof.
  intros Hwf H. apply unify_sound in H as (_ & Hsol & Hwfσ & _).
  specialize (Hwfσ Hwf).
  destruct (unify_terminates x y σ Hwfσ) as (N & r & Hr).
  exists N. intros m Hle. apply (unify_mono N); [done |]. rewrite Hr. do 2 f_equal.
  destruct (well_formed_solution σ Hwfσ) as (θ & Hθ & Happ & _).
  pose proof (unify_sound _ _ _ _ _ Hr) as Hpost.
  destruct r as [σ' |].
  2:{ exfalso. apply (Hpost θ Hθ). by apply Hsol. }
  destruct Hpost as (Hsub & Hsol' & Hwf' & _). specialize (Hwf' Hwfσ).
  f_equal. symmetry. apply subseteq_dom_eq; [done |].
  intros v Hv. destruct (decide (v ∈ dom σ)) as [| Hnv]; [done |]. exfalso.
  apply elem_of_dom in Hv as [t Ht]. apply not_elem_of_dom in Hnv.
  assert (Hθ' : solves θ σ').
  { apply Hsol'. split; [done |]. by apply Hsol. }
  pose proof (Hθ' _ _ Ht) as Hvt.
  destruct (substitute_total σ t (proj2 Hwfσ)) as (k & r & Hk).
  rewrite (Happ _ _ _ Hk) in Hvt.
  assert (app θ (Term v) = Term v) as Hv.
  { apply (Happ 1). simpl. by rewrite Hnv. }
  rewrite Hv in Hvt. subst r.
  apply substitute_to_Term in Hk as (w & -> & Hrtc).
  apply (acc_no_cycle (below σ') v (proj2 Hwf' v)).
  exists w. split.
  - exists (Term w). split; [done | simpl; set_solver].
  - eapply rtc_subrel; [| exact Hrtc]. intros a b. by apply below_weaken.
Qed.

Lemma unify_again_adds_nothing_witness :
  ∃ N, ∀ m, N ≤ m →
    unify m (Function "f" [Term "x"; Term "A"]) (Function "f" [Term "y"; Term "x"])
      (Some (<["y" := Term "A"]> (<["x" := Term "y"]> ∅)))
    = Done (Some (<["y" := Term "A"]> (<["x" := Term "y"]> ∅))).
Proof.
  apply (unify_again_adds_nothing 5 _ _ ∅).
  - apply well_formed_empty.
  - vm_compute. reflexivity.
Defined.

(** ** Equality of literals and clauses *)

Lemma pred_eqb_spec (p q : Predicate) : pred_eqb p q = true ↔ p = q.
Proof.
  destruct p as [n1 a1 b1], q as [n2 a2 b2]. unfold pred_eqb. simpl.
  rewrite !andb_true_iff, String.eqb_eq, args_eqb_spec, Bool.eqb_true_iff.
  split; [intros [[-> ->] ->]; done | intros [= -> -> ->]; done].
Qed.

#[global] Instance pred_eq_dec : EqDecision Predicate.
Proof.
  intros p q. destruct (pred_eqb p q) eqn:E.
  - left. by apply pred_eqb_spec.
  - right. intros H%pred_eqb_spec. congruence.
Defined.

Lemma pred_in_spec (p : Predicate) (l : list Predicate) : pred_in p l = true ↔ p ∈ l.
Proof.
  unfold pred_in. rewrite existsb_exists, list_elem_of_In. split.
  - intros (q & Hq & ->%pred_eqb_spec). done.
  - intros Hp. exists p. split; [done | by apply pred_eqb_spec].
Qed.

Lemma clause_eqb_spec (c d : Clause) :
  clause_eqb c d = true ↔ ∀ p, p ∈ literals c ↔ p ∈ literals d.
Proof.
  unfold clause_eqb. rewrite andb_true_iff, !forallb_forall. split.
  - intros [H1 H2] p. split; intros Hp.
    + apply pred_in_spec, H1. by apply list_elem_of_In.
    + apply pred_in_spec, H2. by apply list_elem_of_In.
  - intros H. split; intros p Hp%list_elem_of_In; apply pred_in_spec; by apply H.
Qed.

(** X7: [Clause.__eq__] is equality of the sets of literals: two clauses
    are equal exactly when each literal of one is a literal of the other,
    whatever the order and the repetitions in the two lists. *)
Theorem clause_eq_is_set_eq :
  (∀ c d, clause_eqb c d = true ↔ ∀ p, p ∈ literals c ↔ p ∈ literals d) ∧
  (∀ l1 l2, l1 ≡ₚ l2 → clause_eqb (mkClause l1) (mkClause l2) = true) ∧
  (∀ p l, clause_eqb (mkClause (p :: l)) (mkClause (p :: p :: l)) = true).
Proof.
  split; [apply clause_eqb_spec |]. split.
  - intros l1 l2 Hperm. apply clause_eqb_spec. intros p. simpl. by rewrite Hperm.
  - intros p l. apply clause_eqb_spec. intros q. simpl. set_solver.
Qed.

(** ** The pairs of a round *)

Lemma map_lookup_seq {A B} (f : option A → B) (l : list A) :
  map (λ j, f (l !! j)) (seq 0 (length l)) = map (λ a, f (Some a)) l.
Proof.
  induction l as [| a l IH]; [done |]. simpl. f_equal.
  rewrite <- seq_shift, map_map. exact IH.
Qed.

Lemma flat_map_map {A B C} (g : B → list C) (h : A → B) (l : list A) :
  flat_map g (map h l) = flat_map (λ a, g (h a)) l.
Proof. induction l as [| a l IH]; [done |]. simpl. by rewrite IH. Qed.

Lemma all_pairs_by_index (l : list Clause) :
  map Some (all_pairs l) = pairs_by_index l.
Proof.
  unfold pairs_by_index. induction l as [| c l IH]; [done |].
  cbn [all_pairs length seq flat_map]. rewrite map_app. f_equal.
  - replace (S (length l) - 1) with (length l) by lia.
    rewrite <- seq_shift, !map_map. cbn [lookup list_lookup].
    exact (eq_sym (map_lookup_seq
      (λ o, match o with Some b => Some (c, b) | None => None end) l)).
  - rewrite IH, <- seq_shift, flat_map_map.
    apply flat_map_ext. intros i. cbn [lookup list_lookup Nat.sub].
    rewrite <- (seq_shift _ (S i)), map_map. done.
Qed.

Lemma all_pairs_length (l : list Clause) :
  2 * length (all_pairs l) = length l * (length l - 1).
Proof.
  induction l as [| c l IH]; [done |].
  cbn [all_pairs]. rewrite length_app, length_map. simpl length.
  replace (S (length l) - 1) with (length l) by lia. nia.
Qed.

(** X8: the pairs of a round are the pairs of clauses at positions
    [i < j], each once, in the order of the comprehension; a clause is
    never paired with itself at the same position, and a list of [n]
    clauses gives [n (n - 1) / 2] pairs. *)
Theorem all_pairs_distinct_positions (l : list Clause) :
  map Some (all_pairs l) = pairs_by_index l ∧
  2 * length (all_pairs l) = length l * (length l - 1) ∧
  ∀ a b, (a, b) ∈ all_pairs l ↔ ∃ i j, i < j ∧ l !! i = Some a ∧ l !! j = Some b.
Proof.
  split; [apply all_pairs_by_index |]. split; [apply all_pairs_length |].
  induction l as [| c l IH]; intros a b.
  { simpl. split; [by intros ?%elem_of_nil | by intros (i & j & _ & ? & _)]. }
  cbn [all_pairs]. rewrite elem_of_app, IH, list_elem_of_In, in_map_iff. split.
  - intros [(x & [= <- <-] & Hx) | (i & j & Hij & Hi & Hj)].
    + apply list_elem_of_In, list_elem_of_lookup in Hx as [j Hj].
      exists 0, (S j). split; [lia | done].
    + exists (S i), (S j). split; [lia | done].
  - intros (i & j & Hij & Hi & Hj). destruct j as [| j]; [lia |]. simpl in Hj.
    destruct i as [| i].
    + left. injection Hi as ->. exists b. split; [done |].
      apply list_elem_of_In. by eapply list_elem_of_lookup_2.
    + right. exists i, j. split; [lia | done].
Qed.

(** ** Soundness of the resolution rule *)

Lemma eval_app (I : interp) (ρ : string → carrier I) (θ : string → term) (t : term) :
  eval I ρ (app θ t) = eval I (λ v, eval I ρ (θ v)) t.
Proof.
  induction t as [n | f args IH] using term_ind'; simpl.
  - destruct (name_is_variable n) eqn:E; [done |]. simpl. by rewrite E.
  - f_equal. rewrite <- list_fmap_compose. apply list_fmap_ext.
    intros i a Ha. rewrite Forall_forall in IH. apply IH.
    by eapply list_elem_of_lookup_2.
Qed.

Lemma eval_app_list (I : interp) (ρ : string → carrier I) (θ : string → term)
    (ts : list term) :
  eval I ρ <$> (app θ <$> ts) = eval I (λ v, eval I ρ (θ v)) <$> ts.
Proof.
  rewrite <- list_fmap_compose. apply list_fmap_ext. intros i a _. apply eval_app.
Qed.

Lemma concat_outcome_elem {A B} (f : A → outcome (list B)) (l : list A)
    (rs : list B) (res : B) :
  concat_outcome f l = Done rs → res ∈ rs →
  ∃ a bs, a ∈ l ∧ f a = Done bs ∧ res ∈ bs.
Proof.
  revert rs. induction l as [| a l IH]; intros rs; simpl.
  - intros [= <-] Hres. by apply elem_of_nil in Hres.
  - rewrite obind_done. intros (bs & Hbs & Hr).
    apply obind_done in Hr as (rest & Hrest & [= <-]).
    intros [Hres | Hres]%elem_of_app.
    + exists a, bs. split; [by left | done].
    + destruct (IH _ Hrest Hres) as (a' & bs' & Ha' & Hf & Hin).
      exists a', bs'. split; [by right | done].
Qed.

Lemma map_outcome_elem {A B} (f : A → outcome B) (l : list A) (r : list B) (a : A) :
  map_outcome f l = Done r → a ∈ l → ∃ b, f a = Done b ∧ b ∈ r.
Proof.
  intros H%map_outcome_Forall2 Ha.
  induction H as [| a' b l r Hab _ IH].
  - by apply elem_of_nil in Ha.
  - apply elem_of_cons in Ha as [-> | Ha].
    + exists b. split; [done | by left].
    + destruct (IH Ha) as (b' & Hb' & Hin). exists b'. split; [done | by right].
Qed.

Section resolution_rule_sound.
Variable list_set : list Predicate → list Predicate.

(** [list(set(l))] keeps every member of [l]. *)
Hypothesis list_set_keeps : ∀ l p, p ∈ l → p ∈ list_set l.

Lemma resolve_literals_sound (I : interp) (n : nat) (ci cj : Clause)
    (pi pj : Predicate) (rs : list Clause) (res : Clause) :
  resolve_literals list_set n ci cj pi pj = Done rs → res ∈ rs →
  models I ci → models I cj → models I res.
Proof.
  unfold resolve_literals.
  destruct ((pname pi =? pname pj)%string && negb (Bool.eqb (negated pi) (negated pj)))
    eqn:Hcompl.
  2:{ intros [= <-] Hres. by apply elem_of_nil in Hres. }
  apply andb_true_iff in Hcompl as [Hname%String.eqb_eq Hneg%negb_true_iff].
  apply Bool.eqb_false_iff in Hneg.
  rewrite obind_done. intros ([s |] & Hu & Hrs).
  2:{ injection Hrs as <-. intros Hres. by apply elem_of_nil in Hres. }
  apply obind_done in Hrs as (new_ci & Hci & Hrs).
  apply obind_done in Hrs as (new_cj & Hcj & [= <-]).
  intros ->%list_elem_of_singleton Mi Mj ρ.
  apply unify_args_empty_post in Hu as (_ & Hwf & Hsol).
  destruct (well_formed_solution s Hwf) as (θ & Hθ & _ & Happ).
  apply Hsol in Hθ. red in Hθ.
  set (ρ' := λ v, eval I ρ (θ v)).
  assert (Hlit : ∀ p q, substitute_predicate n p s = Done q →
                        literal_holds I ρ' p → literal_holds I ρ q).
  { intros p q Hq. unfold substitute_predicate in Hq.
    apply obind_done in Hq as (args & Ha & [= <-]).
    apply Happ in Ha. unfold literal_holds. simpl.
    by rewrite <- Ha, eval_app_list. }
  assert (Hkeep : ∀ (c : Clause) (pk p : Predicate) (new : list Predicate),
            map_outcome (λ p, substitute_predicate n p s)
              (List.filter (λ p, negb (pred_eqb p pk)) (literals c)) = Done new →
            p ∈ literals c → p ≠ pk → literal_holds I ρ' p →
            ∃ q, q ∈ new ∧ literal_holds I ρ q).
  { intros c pk p new Hnew Hp Hne Hh.
    destruct (map_outcome_elem _ _ _ p Hnew) as (q & Hq & Hin).
    - apply list_elem_of_In, filter_In. split; [by apply list_elem_of_In |].
      apply negb_true_iff. destruct (pred_eqb p pk) eqn:E; [| done].
      by apply pred_eqb_spec in E.
    - exists q. split; [done | by eapply Hlit]. }
  destruct (Mi ρ') as (p & Hp & Hh).
  destruct (decide (p = pi)) as [-> | Hne].
  2:{ destruct (Hkeep ci pi p new_ci Hci Hp Hne Hh) as (q & Hq & Hhq).
      exists q. split; [| done]. simpl. apply list_set_keeps, elem_of_app. by left. }
  destruct (Mj ρ') as (p' & Hp' & Hh').
  destruct (decide (p' = pj)) as [-> | Hne'].
  2:{ destruct (Hkeep cj pj p' new_cj Hcj Hp' Hne' Hh') as (q & Hq & Hhq).
      exists q. split; [| done]. simpl. apply list_set_keeps, elem_of_app. by right. }
  exfalso. unfold literal_holds in Hh, Hh'.
  assert (Heq : eval I ρ' <$> pargs pi = eval I ρ' <$> pargs pj).
  { unfold ρ'. by rewrite <- !eval_app_list, Hθ. }
  rewrite Hname, Heq in Hh.
  destruct (negated pi), (negated pj); done.
Qed.

Lemma resolve_sound_elem (I : interp) (n : nat) (ci cj : Clause)
    (rs : list Clause) (res : Clause) :
  resolve list_set n ci cj = Done rs → res ∈ rs →
  models I ci → models I cj → models I res.
Proof.
  unfold resolve. intros Hrs Hres.
  destruct (concat_outcome_elem _ _ _ _ Hrs Hres) as (pi & rs1 & _ & Hrs1 & Hres1).
  destruct (concat_outcome_elem _ _ _ _ Hrs1 Hres1) as (pj & rs2 & _ & Hrs2 & Hres2).
  by eapply resolve_literals_sound.
Qed.

(** X9: the resolution rule is sound: every resolvent that
    [resolve(ci, cj)] returns holds in every interpretation in which both
    [ci] and [cj] hold. *)
Theorem resolve_sound (n : nat) (ci cj : Clause) (rs : list Clause) :
  resolve list_set n ci cj = Done rs →
  ∀ I, models I ci → models I cj → ∀ res, res ∈ rs → models I res.
Proof. intros Hrs I Mi Mj res Hres. by eapply resolve_sound_elem. Qed.
End resolution_rule_sound.

Lemma insertion_order_keeps (l : list Predicate) (p : Predicate) :
  p ∈ l → p ∈ insertion_order l.
Proof.
  unfold insertion_order.
  assert (H : ∀ acc, p ∈ acc ∨ p ∈ l →
                     p ∈ foldl (λ s q, if pred_in q s then s else s ++ [q]) acc l).
  { induction l as [| q l IH]; intros acc; simpl.
    - intros [H | H]; [done | by apply elem_of_nil in H].
    - intros [H | [-> | H]%elem_of_cons]; apply IH.
      + left. destruct (pred_in q acc); [done | apply elem_of_app; by left].
      + left. destruct (pred_in q acc) eqn:E; [by apply pred_in_spec |].
        apply elem_of_app. right. by left.
      + by right. }
  intros Hp. apply H. by right.
Qed.

Lemma resolve_sound_witness :
  resolve insertion_order 3
    (mkClause [mkPredicate "P" [Term "x"] false; mkPredicate "Q" [Term "x"] false])
    (mkClause [mkPredicate "P" [Term "A"] true])
  = Done [mkClause [mkPredicate "Q" [Term "A"] false]] ∧
  ∀ I,
    models I (mkClause [mkPredicate "P" [Term "x"] false;
                        mkPredicate "Q" [Term "x"] false]) →
    models I (mkClause [mkPredicate "P" [Term "A"] true]) →
    ∀ res, res ∈ [mkClause [mkPredicate "Q" [Term "A"] false]] → models I res.
Proof.
  split; [vm_compute; reflexivity |].
  apply (resolve_sound insertion_order insertion_order_keeps 3).
  vm_compute. reflexivity.
Defined.

(** ** Soundness of the verdict ["no"] *)

Lemma all_pairs_elem (l : list Clause) (a b : Clause) :
  (a, b) ∈ all_pairs l → a ∈ l ∧ b ∈ l.
Proof.
  induction l as [| c l IH]; simpl; [by intros ?%elem_of_nil |].
  intros [H | H]%elem_of_app.
  - apply list_elem_of_In, in_map_iff in H as (x & [= <- <-] & Hx).
    split; [by left | right; by apply list_elem_of_In].
  - destruct (IH H). split; by right.
Qed.

Lemma set_add_elem (c x : Clause) (s : list Clause) :
  x ∈ set_add c s → x ∈ s ∨ x = c.
Proof.
  unfold set_add. destruct (clause_in c s); [by left |].
  intros [H | ->%list_elem_of_singleton]%elem_of_app; [by left | by right].
Qed.

Lemma scan_resolvents_Refuted (rs new derived d : list Clause) :
  scan_resolvents rs new derived = Refuted d →
  ∃ res, res ∈ rs ∧ literals res = [].
Proof.
  revert new derived. induction rs as [| res rs IH]; intros new derived; simpl; [done |].
  destruct (literals res) eqn:E.
  { intros _. exists res. split; [by left | done]. }
  intros H. destruct (clause_in res derived);
    apply IH in H as (r & Hr & Hlit); exists r; (split; [by right | done]).
Qed.

Lemma scan_resolvents_new (rs new derived new' derived' : list Clause) :
  scan_resolvents rs new derived = Scanned new' derived' →
  ∀ c, c ∈ new' → c ∈ new ∨ c ∈ rs.
Proof.
  revert new derived. induction rs as [| res rs IH]; intros new derived; simpl.
  { intros [= <- <-] c Hc. by left. }
  destruct (literals res); [done |].
  destruct (clause_in res derived); intros H c Hc.
  - destruct (IH _ _ H c Hc); [by left | right; by right].
  - destruct (IH _ _ H c Hc) as [[Hin | ->]%set_add_elem | Hin].
    + by left.
    + right. by left.
    + right. by right.
Qed.

Section verdict_sound.
Variable list_set : list Predicate → list Predicate.
Variable iter_set : list Clause → list Clause.

(** [list(set(l))] keeps every member of [l], and the iteration over a set
    of clauses yields members of the set only. *)
Hypothesis list_set_keeps : ∀ l p, p ∈ l → p ∈ list_set l.
Hypothesis iter_set_members : ∀ s c, c ∈ iter_set s → c ∈ s.

Variable I : interp.

Lemma no_model_of_empty (c : Clause) : literals c = [] → ¬ models I c.
Proof.
  intros Hc M. destruct (M (λ _, point I)) as (p & Hp & _).
  rewrite Hc in Hp. by apply elem_of_nil in Hp.
Qed.

Lemma scan_pairs_sound (fuel : nat) (ps : list (Clause * Clause))
    (new derived : list Clause) (r : scan) :
  (∀ a b, (a, b) ∈ ps → models I a ∧ models I b) →
  (∀ c, c ∈ new → models I c) →
  scan_pairs list_set fuel ps new derived = Done r →
  match r with
  | Refuted _ => False
  | Scanned new' _ => ∀ c, c ∈ new' → models I c
  end.
Proof.
  revert new derived. induction ps as [| [ci cj] ps IH]; intros new derived Hps Hnew; simpl.
  { by intros [= <-]. }
  rewrite obind_done. intros (rs & Hrs & Hr).
  destruct (Hps ci cj) as [Mi Mj]; [by left |].
  assert (Hsound : ∀ res, res ∈ rs → models I res).
  { intros res Hres. by eapply (resolve_sound_elem list_set list_set_keeps I). }
  destruct (scan_resolvents rs new derived) as [d | new' derived'] eqn:Hscan.
  - injection Hr as <-.
    apply scan_resolvents_Refuted in Hscan as (res & Hres & Hlit).
    apply (no_model_of_empty res Hlit). by apply Hsound.
  - revert Hr. apply IH.
    + intros a b Hab. apply Hps. by right.
    + intros c Hc. destruct (scan_resolvents_new _ _ _ _ _ Hscan c Hc) as [H | H];
        [by apply Hnew | by apply Hsound].
Qed.

Lemma saturate_sound (rounds fuel lc : nat) (new derived : list Clause)
    (h : list (list Clause)) (f : final) :
  lc < length h →
  (∀ c, c ∈ list_at h lc → models I c) →
  (∀ c, c ∈ new → models I c) →
  saturate list_set iter_set rounds fuel lc new derived h = Done f →
  verdict f = "yes".
Proof.
  revert new derived h. induction rounds as [| k IH]; intros new derived h Hlc Hcl Hnew;
    [done |].
  simpl. rewrite obind_done. intros (r & Hscan & Hrun).
  apply scan_pairs_sound in Hscan; [| | done].
  2:{ intros a b [Ha Hb]%all_pairs_elem. split; by apply Hcl. }
  destruct r as [d | new' derived']; [done |].
  destruct new' as [| c0 new'].
  { by injection Hrun as <-. }
  revert Hrun. apply IH.
  - unfold list_extend. by rewrite length_insert.
  - intros c. rewrite list_at_extend by done.
    intros [H | H%iter_set_members]%elem_of_app; [by apply Hcl | by apply Hscan].
  - intros c Hc. by apply elem_of_nil in Hc.
Qed.
End verdict_sound.

(** X10: the verdict ["no"] is sound: when [resolution(kb)] returns ["no"],
    no interpretation satisfies all the clauses of [kb]. *)
Theorem resolution_no_is_sound (list_set : list Predicate → list Predicate)
    (iter_set : list Clause → list Clause) (rounds fuel kb : nat)
    (h : list (list Clause)) :
  (∀ l p, p ∈ l → p ∈ list_set l) →
  (∀ s c, c ∈ iter_set s → c ∈ s) →
  resolution list_set iter_set rounds fuel kb h = Done "no" →
  ¬ satisfiable (list_at h kb).
Proof.
  intros Hkeep Hmem Hrun [I HI]. unfold resolution, resolution_run in Hrun.
  apply obind_done in Hrun as (f & Hf & [= Hv]).
  apply (saturate_sound list_set iter_set Hkeep Hmem I) in Hf.
  - rewrite Hf in Hv. discriminate.
  - rewrite length_app. simpl. lia.
  - unfold list_at at 1. rewrite list_lookup_middle by done. simpl. exact HI.
  - intros c Hc. by apply elem_of_nil in Hc.
Qed.

Lemma resolution_no_is_sound_witness :
  resolution insertion_order id 1 3 0 [kb_refutable] = Done "no" ∧
  ¬ satisfiable (list_at [kb_refutable] 0).
Proof.
  split; [vm_compute; reflexivity |].
  apply (resolution_no_is_sound insertion_order id 1 3 0 [kb_refutable]).
  - apply insertion_order_keeps.
  - by intros s c.
  - vm_compute. reflexivity.
Defined.

Lemma unify_shared_variable (v f : string) (fuel : nat) :
  name_is_variable v = true → 4 ≤ fuel →
  unify_args fuel [Term v] [Function f [Term v]] (Some ∅) = Done None.
Proof.
  intros Hv Hle. apply (unify_args_mono 4 fuel); [done |].
  cbn [unify_args args_eqb term_eqb andb unify_lists length Nat.eqb negb
       unify_zip unify is_variable].
  rewrite Hv. unfold unify_var at 1. cbn [subst_get]. rewrite lookup_empty.
  cbn [occurs_check term_eqb any_outcome obind]. by rewrite String.eqb_refl.
Qed.

(** X11: the verdict ["yes"] does not mean that the knowledge base has a
    model.  The two clauses of [{p(v)}, {!p(f(v))}], for a variable [v],
    share that variable, which [resolve] does not rename apart; unifying
    [v] with [f(v)] fails the occurs-check, no resolvent is produced and
    [resolution] returns ["yes"], whatever the iteration order of sets; yet
    no interpretation satisfies both clauses. *)
Theorem resolution_yes_is_incomplete (p v f : string) :
  name_is_variable v = true →
  (∀ list_set iter_set rounds fuel, 4 ≤ fuel →
     resolution list_set iter_set (S rounds) fuel 0 [kb_shared_variable p v f]
     = Done "yes") ∧
  ¬ satisfiable (kb_shared_variable p v f).
Proof.
  intros Hv. split.
  - intros list_set iter_set rounds fuel Hle.
    assert (Hres : resolve list_set fuel (mkClause [mkPredicate p [Term v] false])
                     (mkClause [mkPredicate p [Function f [Term v]] true]) = Done []).
    { unfold resolve, resolve_literals.
      cbn [concat_outcome literals pname pargs negated Bool.eqb negb].
      rewrite String.eqb_refl. cbn [andb].
      by rewrite (unify_shared_variable v f fuel Hv Hle). }
    unfold resolution, resolution_run.
    change (list_at [kb_shared_variable p v f] 0) with (kb_shared_variable p v f).
    change (length [kb_shared_variable p v f]) with 1.
    cbn [saturate].
    change (all_pairs (list_at ([kb_shared_variable p v f]
                                ++ [kb_shared_variable p v f]) 1))
      with [(mkClause [mkPredicate p [Term v] false],
             mkClause [mkPredicate p [Function f [Term v]] true])].
    cbn [scan_pairs]. by rewrite Hres.
  - intros [I HI].
    destruct (HI (mkClause [mkPredicate p [Term v] false])
                ltac:(by left) (λ _, func I f [point I])) as (q & Hq & Hh).
    destruct (HI (mkClause [mkPredicate p [Function f [Term v]] true])
                ltac:(right; by left) (λ _, point I)) as (q' & Hq' & Hh').
    apply list_elem_of_singleton in Hq as ->.
    apply list_elem_of_singleton in Hq' as ->.
    unfold literal_holds in Hh, Hh'. simpl in Hh, Hh'. rewrite Hv in Hh, Hh'.
    by apply Hh'.
Qed.

Lemma resolution_yes_is_incomplete_witness :
  (∀ list_set iter_set rounds fuel, 4 ≤ fuel →
     resolution list_set iter_set (S rounds) fuel 0 [kb_shared_variable "P" "x" "f"]
     = Done "yes") ∧
  ¬ satisfiable (kb_shared_variable "P" "x" "f").
Proof. apply (resolution_yes_is_incomplete "P" "x" "f"). reflexivity. Defined.

(** ** The verdict ["yes"]: the working list is closed under resolution *)


Lemma clause_eqb_sym (c d : Clause) : clause_eqb c d = true → clause_eqb d c = true.
Proof. rewrite !clause_eqb_spec. intros H p. by rewrite H. Qed.









Section closed_under_resolution.
Variable list_set : list Predicate → list Predicate.
Variable iter_set : list Clause → list Clause.

(** The iteration over a set of clauses yields exactly its members. *)
Hypothesis iter_set_members : ∀ s c, c ∈ iter_set s ↔ c ∈ s.



End closed_under_resolution.


(** ** Clauses without complementary literals *)

Lemma concat_outcome_nil {A B} (f : A → outcome (list B)) (l : list A) :
  (∀ a, a ∈ l → f a = Done []) → concat_outcome f l = Done [].
Proof.
  induction l as [| a l IH]; intros H; simpl; [done |].
  rewrite H by (by left). simpl. rewrite IH; [done |]. intros a' Ha'. apply H. by right.
Qed.

(** X13: two clauses with no pair of literals of the same predicate name
    and opposite polarity have no resolvent: [resolve] returns the empty
    list without calling [unify]. *)
Theorem resolve_no_complement (list_set : list Predicate → list Predicate)
    (fuel : nat) (ci cj : Clause) :
  (∀ pi pj, pi ∈ literals ci → pj ∈ literals cj →
            pname pi ≠ pname pj ∨ negated pi = negated pj) →
  resolve list_set fuel ci cj = Done [].
Proof.
  intros H. unfold resolve. apply concat_outcome_nil. intros pi Hpi.
  apply concat_outcome_nil. intros pj Hpj. unfold resolve_literals.
  destruct (H pi pj Hpi Hpj) as [Hn | Hp].
  - apply String.eqb_neq in Hn. by rewrite Hn.
  - rewrite Hp, Bool.eqb_reflx. simpl. by rewrite andb_false_r.
Qed.

Lemma resolve_no_complement_witness :
  resolve insertion_order 0
    (mkClause [mkPredicate "P" [Term "x"] false; mkPredicate "Q" [Term "A"] true])
    (mkClause [mkPredicate "P" [Term "A"] false; mkPredicate "R" [] true]) = Done [].
Proof.
  apply resolve_no_complement.
  intros pi pj Hi Hj. repeat (apply elem_of_cons in Hi as [-> | Hi]);
    repeat (apply elem_of_cons in Hj as [-> | Hj]);
    try (by apply elem_of_nil in Hi); try (by apply elem_of_nil in Hj);
    simpl; (by right) || (left; discriminate).
Defined.

(** ** Strings *)

Lemma sapp_cons (c : ascii) (s t : string) : String c s +:+ t = String c (s +:+ t).
Proof. reflexivity. Qed.

Lemma sapp_nil_l (s : string) : "" +:+ s = s.
Proof. reflexivity. Qed.

Lemma sapp_nil_r (s : string) : s +:+ "" = s.
Proof. induction s as [| c s IH]; [done |]. by rewrite sapp_cons, IH. Qed.

Lemma sapp_assoc (s t u : string) : (s +:+ t) +:+ u = s +:+ t +:+ u.
Proof. induction s as [| c s IH]; [done |]. by rewrite !sapp_cons, IH. Qed.

Lemma slength_app (s t : string) :
  String.length (s +:+ t) = String.length s + String.length t.
Proof. induction s as [| c s IH]; [done |]. rewrite sapp_cons. simpl. by rewrite IH. Qed.

Lemma all_chars_app (p : ascii → bool) (s t : string) :
  all_chars p (s +:+ t) = all_chars p s && all_chars p t.
Proof.
  induction s as [| c s IH]; [done |]. rewrite sapp_cons. simpl.
  by rewrite IH, andb_assoc.
Qed.

Lemma all_chars_impl (p q : ascii → bool) (s : string) :
  (∀ c, p c = true → q c = true) → all_chars p s = true → all_chars q s = true.
Proof.
  intros Hpq. induction s as [| c s IH]; [done |]. simpl.
  rewrite !andb_true_iff. intros [H1 H2]. auto.
Qed.

(** ** [split_args] *)

Lemma join_cons (a b : string) (l : list string) :
  join "," (a :: b :: l) = a +:+ "," +:+ join "," (b :: l).
Proof. reflexivity. Qed.

Lemma join_snoc (l : list string) (x : string) :
  join "," (l ++ [x]) = comma_terminated l +:+ x.
Proof.
  induction l as [| a l IH]; [done |].
  change (comma_terminated (a :: l)) with (a +:+ "," +:+ comma_terminated l).
  rewrite !sapp_assoc, <- IH. destruct l as [| b l]; reflexivity.
Qed.

Lemma comma_terminated_snoc (l : list string) (x : string) :
  comma_terminated (l ++ [x]) = comma_terminated l +:+ x +:+ ",".
Proof.
  induction l as [| a l IH]; [done |].
  change (comma_terminated ((a :: l) ++ [x]))
    with (a +:+ "," +:+ comma_terminated (l ++ [x])).
  change (comma_terminated (a :: l)) with (a +:+ "," +:+ comma_terminated l).
  by rewrite IH, !sapp_assoc.
Qed.

Lemma comma_terminated_join (l : list string) :
  l ≠ [] → comma_terminated l = join "," l +:+ ",".
Proof.
  induction l as [| a l IH]; [done |]. intros _.
  destruct l as [| b l]; [done |].
  change (comma_terminated (a :: b :: l))
    with (a +:+ "," +:+ comma_terminated (b :: l)).
  rewrite IH by done. by rewrite join_cons, !sapp_assoc.
Qed.

Lemma split_args_loop_rejoin (s : string) (args : list string) (bal : Z)
    (cur : string) :
  let pieces := split_args_loop s args bal cur in
  comma_terminated args +:+ cur +:+ s = join "," pieces ∨
  comma_terminated args +:+ cur +:+ s = join "," pieces +:+ ",".
Proof.
  revert args bal cur. induction s as [| c s IH]; intros args bal cur; cbn zeta.
  - cbn [split_args_loop]. rewrite sapp_nil_r. destruct cur as [| c cur].
    + rewrite sapp_nil_r. destruct args as [| a args]; [by left |].
      right. by apply comma_terminated_join.
    + left. by rewrite join_snoc.
  - cbn [split_args_loop].
    destruct (Ascii.eqb c "," && (bal =? 0)%Z) eqn:E.
    + apply andb_true_iff in E as [->%Ascii.eqb_eq _].
      specialize (IH (args ++ [cur]) bal ""). cbn zeta in IH.
      rewrite comma_terminated_snoc, !sapp_assoc in IH. exact IH.
    + match goal with |- context [split_args_loop s args ?b ?cu] =>
        specialize (IH args b cu) end.
      cbn zeta in IH. rewrite !sapp_assoc in IH. exact IH.
Qed.

(** X14: [split_args] loses nothing but commas: joining the pieces it
    returns with commas gives the string back, up to one trailing comma
    (an empty last piece is not returned). *)
Theorem split_args_rejoin (s : string) :
  join "," (split_args s) = s ∨ join "," (split_args s) +:+ "," = s.
Proof.
  destruct (split_args_loop_rejoin s [] 0 "") as [H | H]; [left | right];
    symmetry; exact H.
Qed.

(** ** Character classes *)

Lemma word_char_facts (c : ascii) :
  is_word_char c = true →
  is_ascii c = true ∧ is_ascii_space c = false ∧
  Ascii.eqb c "(" = false ∧ Ascii.eqb c ")" = false ∧ Ascii.eqb c "," = false ∧
  Ascii.eqb c "!" = false ∧ Ascii.eqb c "010" = false.
Proof.
  destruct c as [[] [] [] [] [] [] [] []]; cbv; intros H; try discriminate H;
    repeat split; reflexivity.
Qed.

Lemma repr_char_facts (c : ascii) :
  repr_char c = true →
  is_ascii c = true ∧ is_ascii_space c = false ∧ Ascii.eqb c "010" = false.
Proof.
  destruct c as [[] [] [] [] [] [] [] []]; cbv; intros H; try discriminate H;
    repeat split; reflexivity.
Qed.

Lemma name_ok_word (n : string) : name_ok n = true → all_chars is_word_char n = true.
Proof. by destruct n. Qed.

Lemma name_ok_repr (n : string) : name_ok n = true → all_chars repr_char n = true.
Proof.
  intros H%name_ok_word. eapply all_chars_impl; [| exact H].
  intros c Hc. unfold repr_char. by rewrite Hc.
Qed.

Lemma repr_char_join (l : list string) :
  Forall (λ s, all_chars repr_char s = true) l →
  all_chars repr_char (join "," l) = true.
Proof.
  induction 1 as [| a l Ha _ IH]; [done |].
  destruct l as [| b l]; [done |].
  rewrite join_cons, !all_chars_app, Ha, IH. done.
Qed.

Lemma repr_term_chars (t : term) :
  term_ok t = true → all_chars repr_char (repr_term t) = true.
Proof.
  induction t as [n | f args IH] using term_ind'; simpl.
  - apply name_ok_repr.
  - rewrite andb_true_iff, forallb_forall. intros [Hf Hargs].
    rewrite !all_chars_app, (name_ok_repr _ Hf). simpl.
    rewrite andb_true_r. apply repr_char_join.
    apply Forall_forall. intros s (a & <- & Ha)%list_elem_of_In%in_map_iff.
    rewrite Forall_forall in IH. apply IH; [by apply list_elem_of_In | by apply Hargs].
Qed.

Lemma repr_term_nonempty (t : term) : term_ok t = true → repr_term t ≠ "".
Proof.
  destruct t as [n | f args]; simpl.
  - by destruct n.
  - rewrite andb_true_iff. intros [Hf _]. by destruct f.
Qed.

(** ** Reading back what [__repr__] prints *)

Lemma before_last_snoc (c : ascii) (s : string) :
  before_last c (s +:+ String c "") = Some s.
Proof.
  induction s as [| x s IH].
  - simpl. by rewrite Ascii.eqb_refl.
  - rewrite sapp_cons. simpl. by rewrite IH.
Qed.

Lemma line_prefix_id (s : string) :
  all_chars (λ c, negb (Ascii.eqb c "010")) s = true → line_prefix s = s.
Proof.
  induction s as [| c s IH]; [done |]. simpl.
  rewrite andb_true_iff, negb_true_iff. intros [-> Hs]. by rewrite IH.
Qed.

Lemma contains_char_app (c : ascii) (s t : string) :
  contains_char c (s +:+ t) = contains_char c s || contains_char c t.
Proof.
  induction s as [| x s IH]; [done |]. rewrite sapp_cons. simpl.
  by rewrite IH, orb_assoc.
Qed.

Lemma contains_char_none (c : ascii) (s : string) :
  all_chars (λ x, negb (Ascii.eqb x c)) s = true → contains_char c s = false.
Proof.
  induction s as [| x s IH]; [done |]. simpl.
  rewrite andb_true_iff, negb_true_iff. intros [-> Hs]. by rewrite IH.
Qed.

Lemma split_args_loop_plain (n rest : string) (args : list string) (bal : Z)
    (cur : string) :
  all_chars is_word_char n = true →
  split_args_loop (n +:+ rest) args bal cur = split_args_loop rest args bal (cur +:+ n).
Proof.
  revert cur. induction n as [| c n IH]; intros cur.
  - intros _. by rewrite sapp_nil_r.
  - cbn [all_chars]. rewrite andb_true_iff. intros [Hc Hn].
    destruct (word_char_facts c Hc) as (_ & _ & E1 & E2 & E3 & _).
    rewrite sapp_cons. cbn [split_args_loop]. rewrite E1, E2, E3. cbn [andb].
    rewrite IH by done. by rewrite sapp_assoc.
Qed.

Lemma split_args_loop_open (rest : string) (args : list string) (bal : Z)
    (cur : string) :
  split_args_loop (String "(" rest) args bal cur
  = split_args_loop rest args (bal + 1) (cur +:+ "(").
Proof. reflexivity. Qed.

Lemma split_args_loop_close (rest : string) (args : list string) (bal : Z)
    (cur : string) :
  split_args_loop (String ")" rest) args bal cur
  = split_args_loop rest args (bal - 1) (cur +:+ ")").
Proof. reflexivity. Qed.

Lemma split_args_loop_comma_inside (rest : string) (args : list string) (bal : Z)
    (cur : string) :
  bal ≠ 0%Z →
  split_args_loop (String "," rest) args bal cur
  = split_args_loop rest args bal (cur +:+ ",").
Proof.
  intros Hb. cbn [split_args_loop]. apply Z.eqb_neq in Hb. by rewrite Hb.
Qed.

Lemma split_args_loop_comma_top (rest : string) (args : list string) (cur : string) :
  split_args_loop (String "," rest) args 0 cur
  = split_args_loop rest (args ++ [cur]) 0 "".
Proof. reflexivity. Qed.

Lemma join_map_cons {A} (f : A → string) (a b : A) (l : list A) :
  join "," (map f (a :: b :: l)) = f a +:+ "," +:+ join "," (map f (b :: l)).
Proof. reflexivity. Qed.

(** A printed term goes through the loop of [split_args] as one piece. *)
Lemma split_args_loop_term (t : term) :
  term_ok t = true →
  ∀ bal rest args cur, (0 ≤ bal)%Z →
    split_args_loop (repr_term t +:+ rest) args bal cur
    = split_args_loop rest args bal (cur +:+ repr_term t).
Proof.
  induction t as [n | f items IH] using term_ind'; simpl.
  - intros Hn bal rest args cur _. by apply split_args_loop_plain, name_ok_word.
  - rewrite andb_true_iff, forallb_forall. intros [Hf Hitems] bal rest args cur Hbal.
    assert (Hlist : ∀ rest cur (b : Z), (0 < b)%Z →
      split_args_loop (join "," (map repr_term items) +:+ rest) args b cur
      = split_args_loop rest args b (cur +:+ join "," (map repr_term items))).
    { clear rest cur. induction items as [| a items IHl]; intros rest cur b Hb.
      - simpl. by rewrite sapp_nil_r.
      - apply Forall_cons in IH as [IHa IHr].
        assert (Ha : term_ok a = true) by (apply Hitems; by left).
        destruct items as [| a' items].
        + simpl. apply IHa; [done | lia].
        + rewrite join_map_cons, !sapp_assoc, IHa by (done || lia).
          rewrite sapp_cons, sapp_nil_l, split_args_loop_comma_inside by lia.
          rewrite IHl; [| done | | done].
          * by rewrite !sapp_assoc.
          * intros x Hx. apply Hitems. by right. }
    rewrite !sapp_assoc, split_args_loop_plain by by apply name_ok_word.
    rewrite sapp_cons, sapp_nil_l, split_args_loop_open, Hlist by lia.
    rewrite sapp_cons, sapp_nil_l, split_args_loop_close.
    replace (bal + 1 - 1)%Z with bal by lia. by rewrite !sapp_assoc.
Qed.

Lemma split_args_join_repr (items : list term) :
  forallb term_ok items = true →
  split_args (join "," (map repr_term items)) = map repr_term items.
Proof.
  unfold split_args. intros Hitems.
  assert (H : ∀ args, split_args_loop (join "," (map repr_term items)) args 0 ""
                      = args ++ map repr_term items).
  { induction items as [| a items IH]; intros args.
    - simpl. by rewrite app_nil_r.
    - simpl in Hitems. apply andb_true_iff in Hitems as [Ha Hitems].
      destruct items as [| a' items].
      + simpl. rewrite <- (sapp_nil_r (repr_term a)) at 1.
        rewrite split_args_loop_term by done. simpl.
        destruct (repr_term a) eqn:E; [by apply repr_term_nonempty in E | done].
      + rewrite join_map_cons, split_args_loop_term by done.
        rewrite sapp_cons, sapp_nil_l, split_args_loop_comma_top, IH by done.
        by rewrite <- app_assoc. }
  apply H.
Qed.

Lemma prefix_bang (c : ascii) (r : string) :
  String.prefix "!" (String c r) = Ascii.eqb c "!".
Proof.
  cbn [String.prefix]. destruct (ascii_dec "!" c) as [<- | Hne].
  - by destruct r.
  - symmetry. apply Ascii.eqb_neq. congruence.
Qed.

Section parser_properties.
Variable space_beyond_ascii : ascii → bool.
Variable word_beyond_ascii : ascii → bool.

Local Abbreviation is_space' := (is_space space_beyond_ascii).
Local Abbreviation is_word' := (is_word word_beyond_ascii).
Local Abbreviation strip' := (strip space_beyond_ascii).
Local Abbreviation split' := (split space_beyond_ascii).
Local Abbreviation match_call' := (match_call word_beyond_ascii).
Local Abbreviation parse_term_or_function' :=
  (parse_term_or_function space_beyond_ascii word_beyond_ascii).
Local Abbreviation parse_predicate' :=
  (parse_predicate space_beyond_ascii word_beyond_ascii).
Local Abbreviation parse_literals' :=
  (parse_literals space_beyond_ascii word_beyond_ascii).
Local Abbreviation parse_clause' := (parse_clause space_beyond_ascii word_beyond_ascii).
Local Abbreviation parse_lines' := (parse_lines space_beyond_ascii word_beyond_ascii).
Local Abbreviation parse_input' := (parse_input space_beyond_ascii word_beyond_ascii).

Lemma repr_char_not_space (c : ascii) : repr_char c = true → is_space' c = false.
Proof.
  intros (Ha & Hs & _)%repr_char_facts. unfold is_space. by rewrite Ha.
Qed.

Lemma word_char_is_word (c : ascii) : is_word_char c = true → is_word' c = true.
Proof.
  intros Hc. destruct (word_char_facts c Hc) as (Ha & _).
  unfold is_word. by rewrite Ha.
Qed.

Lemma rstrip_id (s : string) :
  all_chars (λ c, negb (is_space' c)) s = true → rstrip space_beyond_ascii s = s.
Proof.
  induction s as [| c s IH]; [done |]. simpl.
  rewrite andb_true_iff, negb_true_iff. intros [Hc Hs].
  rewrite IH by done. rewrite Hc. by destruct s.
Qed.

Lemma lstrip_id (s : string) :
  all_chars (λ c, negb (is_space' c)) s = true → lstrip space_beyond_ascii s = s.
Proof.
  destruct s as [| c s]; [done |]. simpl.
  rewrite andb_true_iff, negb_true_iff. by intros [-> _].
Qed.

Lemma strip_id (s : string) :
  all_chars (λ c, negb (is_space' c)) s = true → strip' s = s.
Proof.
  intros H. unfold strip. rewrite lstrip_id by done. by apply rstrip_id.
Qed.

Lemma strip_repr (s : string) : all_chars repr_char s = true → strip' s = s.
Proof.
  intros H. apply strip_id. eapply all_chars_impl; [| exact H].
  intros c Hc. by rewrite repr_char_not_space.
Qed.

Lemma span_word_name (f rest : string) (c : ascii) :
  all_chars is_word_char f = true → is_word' c = false →
  span_word word_beyond_ascii (f +:+ String c rest) = (f, String c rest).
Proof.
  intros Hf Hc. induction f as [| x f IH].
  - rewrite sapp_nil_l. simpl. by rewrite Hc.
  - simpl in Hf. apply andb_true_iff in Hf as [Hx Hf].
    rewrite sapp_cons. simpl. rewrite (word_char_is_word x Hx), IH by done. done.
Qed.

Lemma match_call_repr (f inner : string) :
  name_ok f = true → all_chars repr_char inner = true →
  match_call' (f +:+ "(" +:+ inner +:+ ")") = Some (f, inner).
Proof.
  intros Hf Hinner. unfold match_call.
  rewrite sapp_cons, sapp_nil_l, span_word_name; [| by apply name_ok_word | done].
  destruct f as [| c f]; [done |]. simpl.
  rewrite line_prefix_id, before_last_snoc; [done |].
  rewrite all_chars_app. simpl. rewrite andb_true_r.
  eapply all_chars_impl; [| exact Hinner].
  intros x (_ & _ & ->)%repr_char_facts. done.
Qed.

Lemma contains_paren_name (n : string) :
  all_chars is_word_char n = true → contains_char "(" n = false.
Proof.
  intros H. apply contains_char_none. eapply all_chars_impl; [| exact H].
  intros c (_ & _ & -> & _)%word_char_facts. done.
Qed.

Lemma parse_args_repr (n : nat) (args : list term) :
  Forall (λ a, parse_term_or_function' n (repr_term a) = Done a) args →
  forallb term_ok args = true →
  map_outcome (λ arg, parse_term_or_function' n (strip' arg)) (map repr_term args)
  = Done args.
Proof.
  induction 1 as [| a args Ha _ IH]; [done |]. simpl.
  rewrite andb_true_iff. intros [Hok Hargs].
  rewrite strip_repr by by apply repr_term_chars.
  rewrite Ha. simpl. by rewrite IH.
Qed.

Lemma repr_args_chars (args : list term) :
  forallb term_ok args = true →
  all_chars repr_char (join "," (map repr_term args)) = true.
Proof.
  rewrite forallb_forall. intros Hargs. apply repr_char_join, Forall_forall.
  intros s (a & <- & Ha)%list_elem_of_In%in_map_iff. by apply repr_term_chars, Hargs.
Qed.

Lemma parse_repr_term (n : nat) (t : term) :
  term_ok t = true → tsize t ≤ n → parse_term_or_function' n (repr_term t) = Done t.
Proof.
  revert t. induction n as [| n IH]; intros t Hok Hle.
  { pose proof (tsize_pos t). lia. }
  cbn [parse_term_or_function].
  rewrite strip_repr by by apply repr_term_chars.
  destruct t as [nm | f args]; simpl in Hok |- *.
  - by rewrite contains_paren_name by by apply name_ok_word.
  - apply andb_true_iff in Hok as [Hf Hargs].
    rewrite contains_char_app, contains_char_app. simpl. rewrite orb_true_r.
    rewrite match_call_repr by (done || by apply repr_args_chars).
    rewrite split_args_join_repr by done.
    rewrite parse_args_repr; [done | | done].
    apply Forall_forall. intros a Ha. apply IH.
    + rewrite forallb_forall in Hargs. by apply Hargs, list_elem_of_In.
    + pose proof (sum_list_fmap_le tsize args a Ha). simpl in Hle. lia.
Qed.

(** X15: parsing reads back what [__repr__] prints: for a term whose names
    are non-empty strings of ASCII word characters,
    [parse_term_or_function(repr(t))] is [t]. *)
Theorem parse_term_reads_repr (t : term) :
  term_ok t = true →
  ∀ n, tsize t ≤ n →
    parse_term_or_function space_beyond_ascii word_beyond_ascii n (repr_term t)
    = Done t.
Proof. intros Hok n Hle. by apply parse_repr_term. Qed.

Lemma parse_repr_predicate (n : nat) (p : Predicate) :
  pred_ok p = true → sum_list (tsize <$> pargs p) ≤ n →
  parse_predicate' n (repr_predicate p) = Done (Some p).
Proof.
  destruct p as [name args neg]. unfold pred_ok. simpl.
  rewrite andb_true_iff. intros [Hname Hargs] Hle.
  unfold parse_predicate, repr_predicate. simpl.
  assert (Hbang : ∀ rest, String.prefix "!" (name +:+ rest) = false).
  { intros rest. destruct name as [| c name]; [done |]. simpl in Hname.
    apply andb_true_iff in Hname as [Hc _].
    destruct (word_char_facts c Hc) as (_ & _ & _ & _ & _ & E & _).
    by rewrite sapp_cons, prefix_bang. }
  assert (Hparse : map_outcome (λ arg, parse_term_or_function' n (strip' arg))
                     (map repr_term args) = Done args).
  { apply parse_args_repr; [| done]. apply Forall_forall. intros a Ha.
    apply parse_repr_term.
    - rewrite forallb_forall in Hargs. by apply Hargs, list_elem_of_In.
    - pose proof (sum_list_fmap_le tsize args a Ha). lia. }
  assert (Hbody : ∀ neg',
    (if negb (contains_char "(" (name +:+ "(" +:+ join "," (map repr_term args) +:+ ")"))
     then Done (Some (mkPredicate
            (name +:+ "(" +:+ join "," (map repr_term args) +:+ ")") [] neg'))
     else match match_call' (name +:+ "(" +:+ join "," (map repr_term args) +:+ ")") with
          | None => Done None
          | Some (name', args_str) =>
              do args' <- map_outcome (λ arg, parse_term_or_function' n (strip' arg))
                            (split_args args_str);
              Done (Some (mkPredicate name' args' neg'))
          end) = Done (Some (mkPredicate name args neg'))).
  { intros neg'. rewrite contains_char_app, contains_char_app. simpl.
    rewrite orb_true_r. simpl.
    rewrite match_call_repr by (done || by apply repr_args_chars).
    rewrite split_args_join_repr by done. by rewrite Hparse. }
  destruct args as [| a args].
  - destruct neg.
    + rewrite sapp_cons, sapp_nil_l, prefix_bang. simpl.
      by rewrite contains_paren_name by by apply name_ok_word.
    + pose proof (Hbang "") as Hbang0. rewrite sapp_nil_r in Hbang0.
      rewrite sapp_nil_l, Hbang0.
      by rewrite contains_paren_name by by apply name_ok_word.
  - destruct neg.
    + rewrite sapp_cons, sapp_nil_l, prefix_bang. apply Hbody.
    + rewrite sapp_nil_l, Hbang. apply Hbody.
Qed.

(** X16: the same for literals: for a literal whose predicate name and
    term names are non-empty strings of ASCII word characters,
    [parse_predicate(repr(p))] is [p], negated or not, with or without
    arguments. *)
Theorem parse_predicate_reads_repr (p : Predicate) :
  pred_ok p = true →
  ∀ n, sum_list (tsize <$> pargs p) ≤ n →
    parse_predicate space_beyond_ascii word_beyond_ascii n (repr_predicate p)
    = Done (Some p).
Proof. intros Hok n Hle. by apply parse_repr_predicate. Qed.

(** ** The parser returns on every input *)

Lemma lstrip_length (s : string) :
  String.length (lstrip space_beyond_ascii s) ≤ String.length s.
Proof.
  induction s as [| c s IH]; [done |]. simpl. destruct (is_space' c); simpl; lia.
Qed.

Lemma rstrip_length (s : string) :
  String.length (rstrip space_beyond_ascii s) ≤ String.length s.
Proof.
  induction s as [| c s IH]; [done |]. cbn [rstrip].
  destruct (rstrip space_beyond_ascii s) as [| x r].
  - destruct (is_space' c); simpl; lia.
  - simpl in *. lia.
Qed.

Lemma strip_length (s : string) : String.length (strip' s) ≤ String.length s.
Proof. unfold strip. etrans; [apply rstrip_length | apply lstrip_length]. Qed.

Lemma span_word_length (s w rest : string) :
  span_word word_beyond_ascii s = (w, rest) →
  String.length w + String.length rest = String.length s.
Proof.
  revert w rest. induction s as [| c s IH]; intros w rest; simpl.
  - by intros [= <- <-].
  - destruct (is_word' c).
    + destruct (span_word word_beyond_ascii s) as [w' rest'] eqn:E.
      intros [= <- <-]. simpl. by rewrite (IH _ _ eq_refl).
    + by intros [= <- <-].
Qed.

Lemma line_prefix_length (s : string) :
  String.length (line_prefix s) ≤ String.length s.
Proof.
  induction s as [| c s IH]; [done |]. simpl.
  destruct (Ascii.eqb c "010"); simpl; lia.
Qed.

Lemma before_last_length (c : ascii) (s a : string) :
  before_last c s = Some a → String.length a < String.length s.
Proof.
  revert a. induction s as [| x s IH]; intros a; simpl; [done |].
  destruct (before_last c s) as [a' |].
  - intros [= <-]. simpl. specialize (IH a' eq_refl). lia.
  - destruct (Ascii.eqb x c); [| done]. intros [= <-]. simpl. lia.
Qed.

Lemma match_call_length (token name args_str : string) :
  match_call' token = Some (name, args_str) →
  String.length args_str < String.length token.
Proof.
  unfold match_call. destruct (span_word word_beyond_ascii token) as [w rest] eqn:E.
  apply span_word_length in E.
  destruct w as [| c w]; [done |]. destruct rest as [| p rest]; [done |].
  destruct (Ascii.eqb p "("); [| done].
  destruct (before_last ")" (line_prefix rest)) as [a |] eqn:Ea; [| done].
  intros [= <- <-]. apply before_last_length in Ea.
  pose proof (line_prefix_length rest). simpl in E. lia.
Qed.

Lemma split_args_loop_length (s : string) (args : list string) (bal : Z)
    (cur piece : string) :
  piece ∈ split_args_loop s args bal cur →
  piece ∈ args ∨ String.length piece ≤ String.length cur + String.length s.
Proof.
  revert args bal cur.
  induction s as [| c s IH]; intros args bal cur; cbn [split_args_loop].
  - destruct cur as [| x cur]; [by left |].
    intros [H | ->%list_elem_of_singleton]%elem_of_app; [by left | right; lia].
  - destruct (Ascii.eqb c "," && (bal =? 0)%Z).
    + intros [[H | ->%list_elem_of_singleton]%elem_of_app | H]%IH.
      * by left.
      * right. simpl. lia.
      * right. simpl in *. lia.
    + intros [H | H]%IH; [by left |]. right.
      rewrite slength_app in H. simpl in *. lia.
Qed.

Lemma split_args_length (s piece : string) :
  piece ∈ split_args s → String.length piece ≤ String.length s.
Proof.
  intros [H | H]%split_args_loop_length; [by apply elem_of_nil in H | exact H].
Qed.

Lemma split_loop_length (s cur piece : string) :
  piece ∈ split_loop space_beyond_ascii s cur →
  String.length piece ≤ String.length cur + String.length s.
Proof.
  revert cur. induction s as [| c s IH]; intros cur; cbn [split_loop].
  - destruct cur; [by intros ?%elem_of_nil | intros ->%list_elem_of_singleton; lia].
  - destruct (is_space' c).
    + destruct cur as [| x cur].
      * intros H%IH. simpl in *. lia.
      * intros [-> | H%IH]%elem_of_cons; simpl in *; lia.
    + intros H%IH. rewrite slength_app in H. simpl in *. lia.
Qed.

Lemma map_outcome_returns {A B} (f : A → outcome B) (l : list A) :
  (∀ a, a ∈ l → ∃ b, f a = Done b) → ∃ bs, map_outcome f l = Done bs.
Proof.
  induction l as [| a l IH]; intros H; [by exists [] |].
  destruct (H a) as [b Hb]; [by left |].
  destruct IH as [bs Hbs]; [intros a' Ha'; apply H; by right |].
  exists (b :: bs). simpl. rewrite Hb. simpl. by rewrite Hbs.
Qed.

Lemma parse_term_returns_fuel (n : nat) (token : string) :
  String.length token < n → ∃ t, parse_term_or_function' n token = Done t.
Proof.
  revert token. induction n as [| n IH]; intros token Hlen; [lia |].
  cbn [parse_term_or_function].
  pose proof (strip_length token) as Hs.
  destruct (contains_char "(" (strip' token)); [| by eexists].
  destruct (match_call' (strip' token)) as [[name args_str] |] eqn:E; [| by eexists].
  apply match_call_length in E.
  destruct (map_outcome_returns (λ arg, parse_term_or_function' n (strip' arg))
              (split_args args_str)) as [args Hargs].
  { intros arg Harg%split_args_length. apply IH.
    pose proof (strip_length arg). lia. }
  rewrite Hargs. by eexists.
Qed.

Lemma parse_predicate_returns (n : nat) (literal : string) :
  String.length literal ≤ n → ∃ r, parse_predicate' n literal = Done r.
Proof.
  intros Hlen. unfold parse_predicate. cbv zeta.
  set (lit := if String.prefix "!" literal
              then match literal with String _ r => r | EmptyString => "" end
              else literal).
  assert (Hlit : String.length lit ≤ String.length literal).
  { subst lit. destruct (String.prefix "!" literal); [| done].
    destruct literal; simpl; lia. }
  clearbody lit.
  destruct (negb (contains_char "(" lit)); [by eexists |].
  destruct (match_call' lit) as [[name args_str] |] eqn:E; [| by eexists].
  apply match_call_length in E.
  destruct (map_outcome_returns (λ arg, parse_term_or_function' n (strip' arg))
              (split_args args_str)) as [args Hargs].
  { intros arg Harg%split_args_length. apply parse_term_returns_fuel.
    pose proof (strip_length arg). lia. }
  rewrite Hargs. by eexists.
Qed.

Lemma parse_literals_returns (n : nat) (tokens : list string) :
  (∀ l, l ∈ tokens → String.length l ≤ n) →
  ∃ ps, parse_literals' n tokens = Done ps.
Proof.
  induction tokens as [| l tokens IH]; intros H; [by eexists |].
  destruct IH as [ps Hps]; [intros l' Hl'; apply H; by right |].
  cbn [parse_literals]. destruct l as [| c l]; [by eexists |].
  destruct (parse_predicate_returns n (String c l)) as [r Hr]; [apply H; by left |].
  rewrite Hr. simpl. rewrite Hps. simpl. destruct r; by eexists.
Qed.

Lemma parse_clause_returns (n : nat) (line : string) :
  String.length line ≤ n → ∃ c, parse_clause' n line = Done c.
Proof.
  intros Hlen. unfold parse_clause.
  destruct (parse_literals_returns n (split' (strip' line))) as [ps Hps].
  { intros l Hl%split_loop_length. pose proof (strip_length line). simpl in Hl. lia. }
  rewrite Hps. by eexists.
Qed.

Lemma parse_lines_returns (n : nat) (lines : list string) (read_clauses : bool) :
  (∀ line, line ∈ lines → String.length line ≤ n) →
  ∃ cs, parse_lines' n lines read_clauses = Done cs.
Proof.
  revert read_clauses. induction lines as [| line lines IH]; intros flag H;
    [by eexists |].
  assert (H' : ∀ line', line' ∈ lines → String.length line' ≤ n)
    by (intros line' Hl'; apply H; by right).
  cbn [parse_lines]. destruct (strip' line) as [| c r] eqn:E; [by apply IH |].
  destruct (String.prefix "Clauses:" (String c r)); [by apply IH |].
  destruct flag; [| by apply IH].
  destruct (parse_clause_returns n (String c r)) as [cl Hcl].
  { rewrite <- E. pose proof (strip_length line). specialize (H line ltac:(by left)). lia. }
  rewrite Hcl. simpl. destruct (IH true H') as [cs Hcs]. rewrite Hcs. simpl.
  destruct (literals cl); by eexists.
Qed.

(** X17: [parse_term_or_function] returns on every string: a recursion
    budget above the length of the string is enough, whatever the string
    holds (unbalanced parentheses, empty pieces, white space). *)
Theorem parse_term_returns (token : string) (n : nat) :
  String.length token < n →
  ∃ t, parse_term_or_function space_beyond_ascii word_beyond_ascii n token = Done t.
Proof. apply parse_term_returns_fuel. Qed.

(** X18: [parse_input] returns a list of clauses on every file: no line
    makes it fail, with a recursion budget of the length of the longest
    line. *)
Theorem parse_input_returns (lines : list string) (n : nat) :
  (∀ line, line ∈ lines → String.length line ≤ n) →
  ∃ cs, parse_input space_beyond_ascii word_beyond_ascii n lines = Done cs.
Proof. intros H. by apply parse_lines_returns. Qed.

(** ** Reading a line of literals *)

Lemma repr_chars_no_space (s : string) :
  all_chars repr_char s = true → all_chars (λ c, negb (is_space' c)) s = true.
Proof.
  intros H. eapply all_chars_impl; [| exact H].
  intros c Hc. by rewrite repr_char_not_space.
Qed.

Lemma repr_predicate_token (p : Predicate) :
  pred_ok p = true →
  repr_predicate p ≠ "" ∧
  all_chars (λ c, negb (is_space' c)) (repr_predicate p) = true.
Proof.
  destruct p as [name args neg]. unfold pred_ok, repr_predicate.
  cbn [pname pargs negated]. rewrite andb_true_iff. intros [Hname Hargs].
  assert (Hn : all_chars (λ c, negb (is_space' c)) name = true)
    by by apply repr_chars_no_space, name_ok_repr.
  assert (Hb : all_chars (λ c, negb (is_space' c)) (if neg then "!" else "") = true)
    by by destruct neg.
  assert (Ho : all_chars (λ c, negb (is_space' c)) "(" = true) by reflexivity.
  assert (Hc : all_chars (λ c, negb (is_space' c)) ")" = true) by reflexivity.
  split.
  - destruct name as [| c name]; [done |].
    destruct neg, args; rewrite ?sapp_cons, ?sapp_nil_l; discriminate.
  - destruct args as [| a args].
    + by rewrite all_chars_app, Hb, Hn.
    + rewrite !all_chars_app, Hb, Hn, Ho, Hc, !andb_true_r. cbn [andb].
      by apply repr_chars_no_space, repr_args_chars.
Qed.

Lemma join_sep_cons (sep a b : string) (l : list string) :
  join sep (a :: b :: l) = a +:+ sep +:+ join sep (b :: l).
Proof. reflexivity. Qed.

Lemma split_loop_token (tok rest cur : string) :
  all_chars (λ c, negb (is_space' c)) tok = true →
  split_loop space_beyond_ascii (tok +:+ rest) cur
  = split_loop space_beyond_ascii rest (cur +:+ tok).
Proof.
  revert cur. induction tok as [| c tok IH]; intros cur.
  - intros _. by rewrite sapp_nil_l, sapp_nil_r.
  - cbn [all_chars]. rewrite andb_true_iff, negb_true_iff. intros [Hc Htok].
    rewrite sapp_cons. cbn [split_loop]. rewrite Hc, IH by done.
    by rewrite sapp_assoc.
Qed.

Lemma split_loop_leading (ws rest : string) :
  all_chars is_space' ws = true →
  split_loop space_beyond_ascii (ws +:+ rest) ""
  = split_loop space_beyond_ascii rest "".
Proof.
  induction ws as [| c ws IH]; [done |]. cbn [all_chars].
  rewrite andb_true_iff. intros [Hc Hws].
  rewrite sapp_cons. cbn [split_loop]. rewrite Hc. by apply IH.
Qed.

Lemma split_loop_trailing (ws : string) :
  all_chars is_space' ws = true → split_loop space_beyond_ascii ws "" = [].
Proof.
  intros H. rewrite <- (sapp_nil_r ws). by rewrite split_loop_leading.
Qed.

Lemma split_loop_space (tok rest : string) :
  tok ≠ "" → all_chars (λ c, negb (is_space' c)) tok = true →
  split_loop space_beyond_ascii (tok +:+ String " " rest) ""
  = tok :: split_loop space_beyond_ascii rest "".
Proof.
  intros Hne Htok. rewrite split_loop_token by done. rewrite sapp_nil_l.
  cbn [split_loop]. assert (Hsp : is_space' " " = true) by reflexivity.
  rewrite Hsp. by destruct tok.
Qed.

Lemma split_loop_last (tok ws : string) :
  tok ≠ "" → all_chars (λ c, negb (is_space' c)) tok = true →
  all_chars is_space' ws = true →
  split_loop space_beyond_ascii (tok +:+ ws) "" = [tok].
Proof.
  intros Hne Htok Hws. rewrite split_loop_token by done. rewrite sapp_nil_l.
  destruct ws as [| c ws].
  - simpl. by destruct tok.
  - cbn [all_chars] in Hws. apply andb_true_iff in Hws as [Hc Hws].
    cbn [split_loop]. rewrite Hc, split_loop_trailing by done. by destruct tok.
Qed.

(** The tokens of a line of tokens separated by single spaces, with any
    white space before and after. *)
Lemma split_join_tokens (toks : list string) (pre post : string) :
  Forall (λ tok, tok ≠ "" ∧ all_chars (λ c, negb (is_space' c)) tok = true) toks →
  all_chars is_space' pre = true → all_chars is_space' post = true →
  split' (pre +:+ join " " toks +:+ post) = toks.
Proof.
  intros Htoks Hpre Hpost. unfold split. rewrite split_loop_leading by done.
  induction Htoks as [| a l [Hne Ha] Hl IH].
  - rewrite sapp_nil_l. by apply split_loop_trailing.
  - destruct l as [| b l].
    + by apply split_loop_last.
    + rewrite join_sep_cons, !sapp_assoc, sapp_cons, sapp_nil_l.
      rewrite split_loop_space by done. by rewrite IH.
Qed.

(** [strip] before [split] changes nothing. *)
Lemma split_loop_lstrip (s : string) :
  split_loop space_beyond_ascii (lstrip space_beyond_ascii s) ""
  = split_loop space_beyond_ascii s "".
Proof.
  induction s as [| c s IH]; [done |]. cbn [lstrip].
  destruct (is_space' c) eqn:E; [| done]. cbn [split_loop]. by rewrite E.
Qed.

Lemma split_loop_rstrip (s cur : string) :
  split_loop space_beyond_ascii (rstrip space_beyond_ascii s) cur
  = split_loop space_beyond_ascii s cur.
Proof.
  revert cur. induction s as [| c s IH]; intros cur; [done |]. cbn [rstrip].
  destruct (rstrip space_beyond_ascii s) as [| x r] eqn:E.
  - destruct (is_space' c) eqn:Ec.
    + cbn [split_loop]. rewrite Ec. destruct cur; by rewrite <- IH.
    + cbn [split_loop]. rewrite Ec. by rewrite <- IH.
  - cbn [split_loop]. destruct (is_space' c); [destruct cur |]; by rewrite <- IH.
Qed.

Lemma split_strip (s : string) : split' (strip' s) = split' s.
Proof. unfold split, strip. by rewrite split_loop_rstrip, split_loop_lstrip. Qed.

Lemma parse_literals_tokens (n : nat) (ps : list Predicate) :
  Forall (λ p, repr_predicate p ≠ "" ∧
               parse_predicate' n (repr_predicate p) = Done (Some p)) ps →
  parse_literals' n (map repr_predicate ps) = Done ps.
Proof.
  induction 1 as [| p ps [Hne Hp] _ IH]; [done |].
  cbn [map parse_literals]. rewrite Hp, IH.
  by destruct (repr_predicate p).
Qed.

Lemma parse_line_literals (n : nat) (ps : list Predicate) (pre post : string) :
  (∀ p, p ∈ ps → pred_ok p = true ∧ sum_list (tsize <$> pargs p) ≤ n) →
  all_chars is_space' pre = true → all_chars is_space' post = true →
  parse_clause' n (pre +:+ join " " (map repr_predicate ps) +:+ post)
  = Done (mkClause ps).
Proof.
  intros Hps Hpre Hpost. unfold parse_clause.
  rewrite split_strip, split_join_tokens; [| | done | done].
  - rewrite parse_literals_tokens; [done |]. apply Forall_forall.
    intros p [Hok Hle]%Hps. split; [by apply repr_predicate_token |].
    by apply parse_repr_predicate.
  - apply Forall_forall. intros s (p & <- & Hp)%list_elem_of_In%in_map_iff.
    apply repr_predicate_token, Hps. by apply list_elem_of_In.
Qed.

(** X19: a line of the literals of a clause, printed by [__repr__] and
    separated by single spaces, with any white space before and after (the
    line feed that [readlines] keeps, indentation), is read back by
    [parse_clause] as that clause, the literals in their order. *)
Theorem parse_clause_reads_line (ps : list Predicate) (n : nat) (pre post : string) :
  (∀ p, p ∈ ps → pred_ok p = true ∧ sum_list (tsize <$> pargs p) ≤ n) →
  all_chars (is_space space_beyond_ascii) pre = true →
  all_chars (is_space space_beyond_ascii) post = true →
  parse_clause space_beyond_ascii word_beyond_ascii n
    (pre +:+ join " " (map repr_predicate ps) +:+ post)
  = Done (mkClause ps).
Proof. apply parse_line_literals. Qed.

Lemma join_bars (l : list string) :
  join " | " l = join " " (intersperse "|" l).
Proof.
  induction l as [| a l IH]; [done |]. destruct l as [| b l]; [done |].
  rewrite join_sep_cons, IH.
  change (intersperse "|" (a :: b :: l)) with (a :: "|" :: intersperse "|" (b :: l)).
  rewrite join_sep_cons. destruct (intersperse "|" (b :: l)) eqn:E; [by destruct l |].
  rewrite join_sep_cons. reflexivity.
Qed.

Lemma map_intersperse {A B} (f : A → B) (x : A) (l : list A) :
  map f (intersperse x l) = intersperse (f x) (map f l).
Proof.
  induction l as [| a l IH]; [done |]. destruct l as [| b l]; [done |].
  change (intersperse x (a :: b :: l)) with (a :: x :: intersperse x (b :: l)).
  cbn [map] in *. by rewrite IH.
Qed.

Lemma elem_of_intersperse {A} (x a : A) (l : list A) :
  a ∈ intersperse x l → a = x ∨ a ∈ l.
Proof.
  induction l as [| b l IH]; [by intros ?%elem_of_nil |].
  destruct l as [| b' l].
  - intros ->%list_elem_of_singleton. right. by left.
  - change (intersperse x (b :: b' :: l)) with (b :: x :: intersperse x (b' :: l)).
    intros [-> | [-> | H]%elem_of_cons]%elem_of_cons.
    + right. by left.
    + by left.
    + destruct (IH H) as [-> | H']; [by left | right; by right].
Qed.

(** X20: [parse_clause] does not read back what [Clause.__repr__] prints:
    the bars between the literals come back as literals of their own, atoms
    of the name [|] without arguments. *)
Theorem parse_clause_reads_repr_bars (c : Clause) (n : nat) :
  (∀ p, p ∈ literals c → pred_ok p = true ∧ sum_list (tsize <$> pargs p) ≤ n) →
  parse_clause space_beyond_ascii word_beyond_ascii n (repr_clause c)
  = Done (mkClause (intersperse (mkPredicate "|" [] false) (literals c))).
Proof.
  intros Hps. unfold parse_clause, repr_clause.
  rewrite split_strip, join_bars.
  change "|" with (repr_predicate (mkPredicate "|" [] false)).
  rewrite <- map_intersperse.
  pose proof (split_join_tokens
    (map repr_predicate (intersperse (mkPredicate "|" [] false) (literals c)))
    "" "") as Hsplit.
  rewrite sapp_nil_l, sapp_nil_r in Hsplit. rewrite Hsplit; [| | done | done].
  - rewrite parse_literals_tokens; [done |]. apply Forall_forall.
    intros p [-> | [Hok Hle]%Hps]%elem_of_intersperse; [done |].
    split; [by apply repr_predicate_token | by apply parse_repr_predicate].
  - apply Forall_forall. intros s (p & <- & Hp)%list_elem_of_In%in_map_iff.
    apply list_elem_of_In, elem_of_intersperse in Hp as [-> | Hp]; [done |].
    by apply repr_predicate_token, Hps.
Qed.

(** ** The lines of a file *)



Lemma parse_lines_nonempty (n : nat) (lines : list string) (read_clauses : bool)
    (cs : list Clause) :
  parse_lines' n lines read_clauses = Done cs → ∀ c, c ∈ cs → literals c ≠ [].
Proof.
  revert read_clauses cs.
  induction lines as [| line lines IH]; intros flag cs; cbn [parse_lines].
  - intros [= <-] c Hc. by apply elem_of_nil in Hc.
  - destruct (strip' line) as [| ch r]; [apply IH |].
    destruct (String.prefix "Clauses:" (String ch r)); [apply IH |].
    destruct flag; [| apply IH].
    destruct (parse_clause' n (String ch r)) as [| cl]; [done |]. simpl.
    destruct (parse_lines' n lines true) as [| cs'] eqn:E; [done |]. simpl.
    destruct (literals cl) eqn:El.
    + intros [= <-]. by eapply IH.
    + intros [= <-] c [-> | Hc]%elem_of_cons; [by rewrite El | by eapply IH].
Qed.

(** X22: no clause that [parse_input] returns is empty: a line on which no
    literal is read adds nothing to the knowledge base, so the empty clause
    cannot be given in a file. *)
Theorem parse_input_no_empty_clause (n : nat) (lines : list string)
    (cs : list Clause) :
  parse_input space_beyond_ascii word_beyond_ascii n lines = Done cs →
  ∀ c, c ∈ cs → literals c ≠ [].
Proof. apply parse_lines_nonempty. Qed.


(** ** Reading a file of printed clauses *)

Lemma repr_predicate_chars (q : ascii → bool) (p : Predicate) :
  (∀ c, repr_char c = true → q c = true) → q "!"%char = true →
  pred_ok p = true → all_chars q (repr_predicate p) = true.
Proof.
  intros Hq Hbang. destruct p as [name args neg]. unfold pred_ok, repr_predicate.
  cbn [pname pargs negated]. rewrite andb_true_iff. intros [Hname Hargs].
  assert (Hn : all_chars q name = true)
    by (eapply all_chars_impl; [exact Hq | by apply name_ok_repr]).
  assert (Hb : all_chars q (if neg then "!" else "") = true).
  { destruct neg; [| done]. simpl. by rewrite Hbang. }
  assert (Ho : all_chars q "(" = true) by (simpl; by rewrite Hq).
  assert (Hc : all_chars q ")" = true) by (simpl; by rewrite Hq).
  destruct args as [| a args].
  - by rewrite all_chars_app, Hb, Hn.
  - rewrite !all_chars_app, Hb, Hn, Ho, Hc, !andb_true_r. cbn [andb].
    eapply all_chars_impl; [exact Hq | by apply repr_args_chars].
Qed.

Lemma prefix_app (w s : string) :
  String.prefix w s = true → ∃ t, s = w +:+ t.
Proof.
  revert s. induction w as [| a w IH]; intros s; [by exists s |].
  destruct s as [| b s]; [done |]. cbn [String.prefix].
  destruct (ascii_dec a b) as [<- | _]; [| done].
  intros [t ->]%IH. by exists t.
Qed.

Lemma split_loop_first (s cur : string) :
  cur ≠ "" →
  ∃ u rest, split_loop space_beyond_ascii s cur = (cur +:+ u) :: rest.
Proof.
  revert cur. induction s as [| c s IH]; intros cur Hne; cbn [split_loop].
  - exists "", []. rewrite sapp_nil_r. by destruct cur.
  - destruct (is_space' c).
    + exists "", (split_loop space_beyond_ascii s ""). rewrite sapp_nil_r.
      by destruct cur.
    + destruct (IH (cur +:+ String c "")) as (u & rest & ->).
      { destruct cur; [done |]. by rewrite sapp_cons. }
      exists (String c u), rest. by rewrite sapp_assoc.
Qed.

Lemma parse_clause_strip (n : nat) (line : string) :
  parse_clause' n (strip' line) = parse_clause' n line.
Proof. unfold parse_clause. by rewrite split_strip. Qed.

(** A line of printed literals is not empty after [strip], and does not
    start with [Clauses:]. *)
Lemma clause_line_not_header (ps : list Predicate) (pre post : string) :
  ps ≠ [] → (∀ p, p ∈ ps → pred_ok p = true) →
  all_chars is_space' pre = true → all_chars is_space' post = true →
  strip' (pre +:+ join " " (map repr_predicate ps) +:+ post) ≠ "" ∧
  String.prefix "Clauses:"
    (strip' (pre +:+ join " " (map repr_predicate ps) +:+ post)) = false.
Proof.
  intros Hne Hok Hpre Hpost.
  assert (Hsplit : split' (strip' (pre +:+ join " " (map repr_predicate ps) +:+ post))
                   = map repr_predicate ps).
  { rewrite split_strip. apply split_join_tokens; [| done | done].
    apply Forall_forall. intros s (p & <- & Hp)%list_elem_of_In%in_map_iff.
    by apply repr_predicate_token, Hok, list_elem_of_In. }
  destruct ps as [| p ps]; [done |].
  set (line := strip' _) in *. clearbody line. split.
  - intros ->. discriminate Hsplit.
  - destruct (String.prefix "Clauses:" line) eqn:E; [| done].
    apply prefix_app in E as [t ->]. unfold split in Hsplit.
    rewrite split_loop_token, sapp_nil_l in Hsplit by reflexivity.
    destruct (split_loop_first t "Clauses:") as (u & rest & Hfirst); [done |].
    rewrite Hfirst in Hsplit. injection Hsplit as Hp _.
    assert (Hchars : all_chars (λ c, negb (Ascii.eqb c ":")) (repr_predicate p) = true).
    { apply repr_predicate_chars; [| done | apply Hok; by left].
      intros [[] [] [] [] [] [] [] []]; cbv; intros H; try discriminate H;
        reflexivity. }
    rewrite <- Hp in Hchars. discriminate Hchars.
Qed.

Lemma parse_lines_clauses (n : nat) (cs : list Clause) :
  (∀ c, c ∈ cs → literals c ≠ [] ∧
     ∀ p, p ∈ literals c → pred_ok p = true ∧ sum_list (tsize <$> pargs p) ≤ n) →
  parse_lines' n
    (map (λ c, join " " (map repr_predicate (literals c)) +:+ String "010" "") cs)
    true
  = Done cs.
Proof.
  induction cs as [| c cs IH]; intros H; [done |].
  destruct (H c ltac:(by left)) as [Hne Hps].
  assert (Hnl : all_chars is_space' (String "010" "") = true) by reflexivity.
  destruct (clause_line_not_header (literals c) "" (String "010" "")) as [Hs Hh];
    [done | intros p Hp; by apply Hps | done | done |].
  rewrite sapp_nil_l in Hs, Hh.
  cbn [map parse_lines].
  destruct (strip' _) as [| ch r] eqn:E; [done |].
  rewrite Hh, <- E, parse_clause_strip.
  pose proof (parse_line_literals n (literals c) "" (String "010" "") Hps
                eq_refl Hnl) as Hparse.
  rewrite sapp_nil_l in Hparse. rewrite Hparse. simpl.
  rewrite IH by (intros c' Hc'; apply H; by right). simpl.
  destruct c as [ps]. simpl in *. by destruct ps.
Qed.

(** X24: a file written one clause per line, the literals printed by
    [__repr__] and separated by single spaces, under a [Clauses:] line, is
    read back by [parse_input] as the list of those clauses, in their
    order; each clause has a literal, and names are non-empty strings of
    ASCII word characters. *)
Theorem parse_input_reads_file (n : nat) (header : string) (cs : list Clause) :
  String.prefix "Clauses:" (strip space_beyond_ascii header) = true →
  (∀ c, c ∈ cs → literals c ≠ [] ∧
     ∀ p, p ∈ literals c → pred_ok p = true ∧ sum_list (tsize <$> pargs p) ≤ n) →
  parse_input space_beyond_ascii word_beyond_ascii n
    (header ::
     map (λ c, join " " (map repr_predicate (literals c)) +:+ String "010" "") cs)
  = Done cs.
Proof.
  intros Hh Hcs. unfold parse_input. cbn [parse_lines].
  destruct (strip' header) as [| ch r]; [done |]. rewrite Hh.
  by apply parse_lines_clauses.
Qed.
End parser_properties.

Lemma parse_term_reads_repr_witness :
  parse_term_or_function (λ _, false) (λ _, false) 4
    (repr_term (Function "f" [Term "x"; Function "g" [Term "A"]]))
  = Done (Function "f" [Term "x"; Function "g" [Term "A"]]).
Proof.
  apply (parse_term_reads_repr (λ _, false) (λ _, false)
           (Function "f" [Term "x"; Function "g" [Term "A"]])).
  - reflexivity.
  - vm_compute. lia.
Defined.

Lemma parse_predicate_reads_repr_witness :
  parse_predicate (λ _, false) (λ _, false) 3
    (repr_predicate (mkPredicate "Loves" [Term "x"; Function "mother" [Term "x"]] true))
  = Done (Some (mkPredicate "Loves" [Term "x"; Function "mother" [Term "x"]] true)).
Proof.
  apply (parse_predicate_reads_repr (λ _, false) (λ _, false)
           (mkPredicate "Loves" [Term "x"; Function "mother" [Term "x"]] true)).
  - reflexivity.
  - vm_compute. lia.
Defined.

Lemma parse_term_returns_witness :
  ∃ t, parse_term_or_function (λ _, false) (λ _, false) 11 "f(x,,g(A))" = Done t.
Proof.
  apply (parse_term_returns (λ _, false) (λ _, false) "f(x,,g(A))" 11).
  vm_compute. lia.
Defined.

Lemma parse_input_returns_witness :
  ∃ cs, parse_input (λ _, false) (λ _, false) 12
          ["Clauses:"; "P(x) !Q(f(A"; ") |"] = Done cs.
Proof.
  apply (parse_input_returns (λ _, false) (λ _, false)
           ["Clauses:"; "P(x) !Q(f(A"; ") |"] 12).
  intros line Hl. repeat (apply elem_of_cons in Hl as [-> | Hl]);
    try (by apply elem_of_nil in Hl); vm_compute; lia.
Defined.

Lemma parse_clause_reads_line_witness :
  parse_clause (λ _, false) (λ _, false) 2
    ("  " +:+
     join " " (map repr_predicate
       [mkPredicate "P" [Term "x"] true; mkPredicate "Q" [Function "f" [Term "x"]] false])
     +:+ String "010" "")
  = Done (mkClause
       [mkPredicate "P" [Term "x"] true; mkPredicate "Q" [Function "f" [Term "x"]] false]).
Proof.
  apply (parse_clause_reads_line (λ _, false) (λ _, false)
           [mkPredicate "P" [Term "x"] true;
            mkPredicate "Q" [Function "f" [Term "x"]] false]
           2 "  " (String "010" "")).
  - intros p Hp. repeat (apply elem_of_cons in Hp as [-> | Hp]);
      try (by apply elem_of_nil in Hp); (split; [reflexivity | vm_compute; lia]).
  - reflexivity.
  - reflexivity.
Defined.

Lemma parse_clause_reads_repr_bars_witness :
  parse_clause (λ _, false) (λ _, false) 1
    (repr_clause (mkClause [mkPredicate "P" [Term "x"] true; mkPredicate "Q" [] false]))
  = Done (mkClause [mkPredicate "P" [Term "x"] true; mkPredicate "|" [] false;
                    mkPredicate "Q" [] false]).
Proof.
  apply (parse_clause_reads_repr_bars (λ _, false) (λ _, false)
           (mkClause [mkPredicate "P" [Term "x"] true; mkPredicate "Q" [] false]) 1).
  intros p Hp. repeat (apply elem_of_cons in Hp as [-> | Hp]);
    try (by apply elem_of_nil in Hp); (split; [reflexivity | vm_compute; lia]).
Defined.


Lemma parse_input_no_empty_clause_witness :
  parse_input (λ _, false) (λ _, false) 1 ["Clauses:"; "Q("; "P(x)"]
  = Done [mkClause [mkPredicate "P" [Term "x"] false]] ∧
  literals (mkClause [mkPredicate "P" [Term "x"] false]) ≠ [].
Proof.
  split; [vm_compute; reflexivity |].
  apply (parse_input_no_empty_clause (λ _, false) (λ _, false) 1
           ["Clauses:"; "Q("; "P(x)"] [mkClause [mkPredicate "P" [Term "x"] false]]).
  - vm_compute. reflexivity.
  - by left.
Defined.


Lemma parse_input_reads_file_witness :
  parse_input (λ _, false) (λ _, false) 2
    ("Clauses:" ::
     map (λ c, join " " (map repr_predicate (literals c)) +:+ String "010" "")
       [mkClause [mkPredicate "P" [Term "x"] true;
                  mkPredicate "Q" [Function "f" [Term "x"]] false];
        mkClause [mkPredicate "P" [Term "A"] false]])
  = Done [mkClause [mkPredicate "P" [Term "x"] true;
                    mkPredicate "Q" [Function "f" [Term "x"]] false];
          mkClause [mkPredicate "P" [Term "A"] false]].
Proof.
  apply (parse_input_reads_file (λ _, false) (λ _, false) 2 "Clauses:").
  - reflexivity.
  - intros c Hc. repeat (apply elem_of_cons in Hc as [-> | Hc]);
      try (by apply elem_of_nil in Hc);
      (split; [discriminate |]); intros p Hp;
      repeat (apply elem_of_cons in Hp as [-> | Hp]);
      try (by apply elem_of_nil in Hp); (split; [reflexivity | vm_compute; lia]).
Defined.
